(** * Word Runner: the gameplay core, embedded and verified

    A shallow embedding of the runtime core of the word-runner game
    (TypeScript): the scoring engine ([ScoreSystem]), the two versions of
    the difficulty controller ([DifficultySystem], distance-gated and
    count-gated), the word selector ([WordManager]) and the two gate loops
    ([GameScene.update] of the Phaser scene and [Game3D.animate] of the
    three.js scene); with them the lookup of the vocabulary tables
    ([getWordsForLevel], [getAllWords]), the line reader of the deck
    import ([parseCSVLine]) and the lane layout ([getLaneX]).

    The file has three parts: the code, module by module, under the names
    of the source; the vocabulary the properties are stated in; and the
    properties, with the claims C1 to C10 of the specification settled
    among them and, after them, the further properties X1 to X27 of the
    code.

    Conventions of the embedding.
    - A JavaScript [number] that only ever holds an integer (scores,
      counters, levels, lives) is a [Z]; one that may hold a fraction
      (times in milliseconds, speed multipliers, progress, the values of
      [Math.random()]) is an exact rational [Q].  Arithmetic is exact; the
      rounding of IEEE doubles is not modelled.
    - Mutable objects become records that are passed in and returned.
    - [undefined] is [None]; a thrown [TypeError] is a [None] result.
    - [Math.random()] is an oracle: its [k]-th call returns [Math_random k],
      and the properties that need it assume its values in [0, 1).
    - Rendering, audio and DOM calls are left out, and with them the
      distance display and the [THREE.Clock] that feeds it: they read the
      state modelled here and never write it. *)

From Stdlib Require Import ZArith QArith Qround List String Ascii Bool Lia Lqa
  Permutation Sorted.
Import ListNotations.

Local Open Scope Z_scope.

(** ** JavaScript helpers *)

(** [a < b] on numbers, as a boolean. *)
Definition Qltb (a b : Q) : bool := negb (Qle_bool b a).

(** [a >= b] on numbers, as a boolean. *)
Definition Qgeb (a b : Q) : bool := Qle_bool b a.

(** [Math.min(a, b)]. *)
Definition Qmin (a b : Q) : Q := if Qle_bool a b then a else b.

(** [arr[i]] for a number [i] that holds an integer: [undefined] out of
    range. *)
Definition arr_get {A : Type} (arr : list A) (i : Z) : option A :=
  if i <? 0 then None else nth_error arr (Z.to_nat i).

(** [arr[i] = x] on an index inside the array. *)
Fixpoint arr_set {A : Type} (arr : list A) (i : nat) (x : A) : list A :=
  match arr, i with
  | [], _ => []
  | _ :: rest, O => x :: rest
  | a :: rest, S k => a :: arr_set rest k x
  end.

(** [Math.round(x)]: the nearest integer, halves going up. *)
Definition Math_round (x : Q) : Z := Qfloor (x + (1 # 2)).

(** [Math.floor(r * n)] for [r] the value of a [Math.random()] call. *)
Definition floor_times (r : Q) (n : Z) : Z := Qfloor (r * inject_Z n).

(** ** types.ts *)

Inductive Language := chinese | arabic.

Inductive Lane := left | center | right.

Inductive QuestionMode := english_to_target | target_to_english.

Record Word := mkWord {
  target : string;
  pronunciation : string;
  english : string;
  category : string
}.

Definition Lane_eqb (a b : Lane) : bool :=
  match a, b with
  | left, left | center, center | right, right => true
  | _, _ => false
  end.

Definition Word_eq_dec (a b : Word) : {a = b} + {a <> b}.
Proof. decide equality; apply string_dec. Defined.

Definition optWord_eq_dec (a b : option Word) : {a = b} + {a <> b}.
Proof. decide equality; apply Word_eq_dec. Defined.

(** ** systems/ScoreSystem.ts *)

Module ScoreSystem.

Record ScoreResult := mkResult {
  basePoints : Z;
  speedBonus : Z;
  streakBonus : Z;
  multiplier : Q;
  totalPoints : Z
}.

(** The private fields of the class. *)
Record t := mk {
  score : Z;
  streak : Z;
  maxStreak : Z;
  correctAnswers : Z;
  totalAnswers : Z
}.

(** The field initialisers. *)
Definition new : t := mk 0 0 0 0 0.

(** The streak bonus of a correct answer, from the streak after its
    increment. *)
Definition streakBonusOf (streak : Z) : Z :=
  if streak =? 5 then 200
  else if streak =? 10 then 500
  else if (streak >? 10) && (Z.rem streak 5 =? 0) then 300
  else 0.

Definition calculateScore (correct : bool) (decisionTimeMs : Q) (hskLevel : Z)
    (s : t) : ScoreResult * t :=
  let totalAnswers1 := totalAnswers s + 1 in
  if negb correct then
    (mkResult 0 0 0 1 0,
     mk (score s) 0 (maxStreak s) (correctAnswers s) totalAnswers1)
  else
    let correctAnswers1 := correctAnswers s + 1 in
    let streak1 := streak s + 1 in
    let maxStreak1 := Z.max (maxStreak s) streak1 in
    let basePoints := 100 in
    let speedBonus := if Qltb decisionTimeMs 1000 then 50 else 0 in
    let streakBonus := streakBonusOf streak1 in
    let multiplier := (1 + inject_Z (hskLevel - 1) * (2 # 10))%Q in
    let totalPoints :=
      Qfloor (inject_Z (basePoints + speedBonus) * multiplier) + streakBonus in
    (mkResult basePoints speedBonus streakBonus multiplier totalPoints,
     mk (score s + totalPoints) streak1 maxStreak1 correctAnswers1
        totalAnswers1).

Definition getScore (s : t) : Z := score s.
Definition getStreak (s : t) : Z := streak s.
Definition getMaxStreak (s : t) : Z := maxStreak s.
Definition getCorrectAnswers (s : t) : Z := correctAnswers s.
Definition getTotalAnswers (s : t) : Z := totalAnswers s.

Definition reset (_ : t) : t := mk 0 0 0 0 0.

(** A call made on the object by its client. *)
Inductive Call :=
| CallCalculateScore (correct : bool) (decisionTimeMs : Q) (hskLevel : Z)
| CallReset.

Definition call (c : Call) (s : t) : option ScoreResult * t :=
  match c with
  | CallCalculateScore correct ms lvl =>
      let '(r, s') := calculateScore correct ms lvl s in (Some r, s')
  | CallReset => (None, reset s)
  end.

(** A sequence of calls, oldest first; the results are collected in call
    order. *)
Fixpoint run (cs : list Call) (s : t) : list (option ScoreResult) * t :=
  match cs with
  | [] => ([], s)
  | c :: rest =>
      let '(r, s1) := call c s in
      let '(rs, s2) := run rest s1 in
      (r :: rs, s2)
  end.

(** The level every [calculateScore] of the sequence is called with is at
    least [lo]. *)
Definition levelsFrom (lo : Z) (cs : list Call) : Prop :=
  Forall (fun c => match c with
                   | CallCalculateScore _ _ lvl => lo <= lvl
                   | CallReset => True
                   end) cs.

(** How many calls of a sequence were awarded the streak bonus [b]. *)
Definition awards (b : Z) (rs : list (option ScoreResult)) : nat :=
  List.length (filter (fun r => match r with
                                | Some r => streakBonus r =? b
                                | None => false
                                end) rs).

(** A sequence of correct answers only. *)
Definition allCorrect (cs : list Call) : Prop :=
  Forall (fun c => match c with
                   | CallCalculateScore true _ _ => True
                   | _ => False
                   end) cs.

(** The invariant of the score state. *)
Definition Inv (s : t) : Prop :=
  0 <= streak s <= maxStreak s /\
  0 <= correctAnswers s <= totalAnswers s /\
  0 <= score s.

(** No counter goes down from [s] to [s']. *)
Definition Grows (s s' : t) : Prop :=
  score s <= score s' /\ maxStreak s <= maxStreak s' /\
  correctAnswers s <= correctAnswers s' /\ totalAnswers s <= totalAnswers s'.

(** [getAccuracy]: the share of correct answers, in percent. *)
Definition getAccuracy (s : t) : Z :=
  if totalAnswers s =? 0 then 0
  else Math_round (inject_Z (correctAnswers s) / inject_Z (totalAnswers s)
                   * 100).

(** The answers given since the last [reset], oldest first: [true] for a
    correct one. [acc] holds those of the calls already read. *)
Fixpoint answersSince (cs : list Call) (acc : list bool) : list bool :=
  match cs with
  | [] => acc
  | CallCalculateScore correct _ _ :: rest => answersSince rest (acc ++ [correct])
  | CallReset :: rest => answersSince rest []
  end.

(** The points awarded since the last [reset]. *)
Fixpoint pointsSince (rs : list (option ScoreResult)) (acc : Z) : Z :=
  match rs with
  | [] => acc
  | Some r :: rest => pointsSince rest (acc + totalPoints r)
  | None :: rest => pointsSince rest 0
  end.

(** [n] correct answers in a row, between [pre] and [post]. *)
Definition hasRun (answers : list bool) (n : nat) : Prop :=
  exists pre post, answers = pre ++ repeat true n ++ post.

(** The answers end with exactly [n] correct ones. *)
Definition endsWithRun (answers : list bool) (n : nat) : Prop :=
  exists pre, answers = pre ++ repeat true n /\
              (pre = [] \/ exists pre', pre = pre' ++ [false]).

(** The state [s] counts the answers [a]: their number, the correct ones,
    the run of correct answers they end with, and their longest run of
    correct answers. *)
Definition Tracks (a : list bool) (s : t) : Prop :=
  totalAnswers s = Z.of_nat (List.length a) /\
  correctAnswers s = Z.of_nat (count_occ Bool.bool_dec a true) /\
  (exists n, streak s = Z.of_nat n /\ endsWithRun a n) /\
  (exists m, maxStreak s = Z.of_nat m /\ hasRun a m /\
             forall k, hasRun a k -> (k <= m)%nat).

End ScoreSystem.

(** ** systems/DifficultySystem.ts *)

Record DifficultySettings := mkSettings {
  hskLevel : Z;
  speedMultiplier : Q;
  decisionTime : Z
}.

(** The state both versions of the class hold: the current settings and
    whether a level-change callback is registered. *)
Record DifficultyState := mkDifficulty {
  currentSettings : DifficultySettings;
  onLevelChange : bool
}.

(** What one [update] does: [None] when it throws, else the settings it
    returns, the new state and the level the callback was called with, if
    it was called. *)
Definition UpdateResult : Type :=
  option (DifficultySettings * DifficultyState * option Z).

(** The notification both versions end with. *)
Definition notify (previousLevel : Z) (d : DifficultyState) : option Z :=
  if negb (hskLevel (currentSettings d) =? previousLevel) && onLevelChange d
  then Some (hskLevel (currentSettings d))
  else None.

(** The distance-gated version (systems/DifficultySystem.ts). *)
Module DifficultySystem.

Record Threshold := mkThreshold {
  distance : Q;
  th_hskLevel : Z;
  speed : Q;
  th_decisionTime : Z
}.

Definition DIFFICULTY_THRESHOLDS : list Threshold :=
  [ mkThreshold 0 1 1 3000;
    mkThreshold 500 2 (11 # 10) 2700;
    mkThreshold 1500 3 (12 # 10) 2400;
    mkThreshold 3000 4 (13 # 10) 2100;
    mkThreshold 5000 5 (14 # 10) 1800;
    mkThreshold 8000 6 (15 # 10) 1500 ].

Definition new : DifficultyState :=
  mkDifficulty (mkSettings 1 1 3000) false.

Definition setLevelChangeCallback (d : DifficultyState) : DifficultyState :=
  mkDifficulty (currentSettings d) true.

(** The loop of [update]: the thresholds are tried from the last to the
    first, and the first one reached replaces the settings; when none is
    reached the settings stay. [ths] is the table already reversed. *)
Fixpoint findTier (ths : list Threshold) (dist : Q)
    (cur : DifficultySettings) : DifficultySettings :=
  match ths with
  | [] => cur
  | th :: rest =>
      if Qgeb dist (distance th)
      then mkSettings (th_hskLevel th) (speed th) (th_decisionTime th)
      else findTier rest dist cur
  end.

Definition update (dist : Q) (d : DifficultyState) : UpdateResult :=
  let previousLevel := hskLevel (currentSettings d) in
  let d' := mkDifficulty
              (findTier (rev DIFFICULTY_THRESHOLDS) dist (currentSettings d))
              (onLevelChange d) in
  Some (currentSettings d', d', notify previousLevel d').

Definition getCurrentSettings (d : DifficultyState) : DifficultySettings :=
  currentSettings d.

Definition reset (d : DifficultyState) : DifficultyState :=
  mkDifficulty (mkSettings 1 1 3000) (onLevelChange d).

(** The level the distance-gated table gives a distance that is not
    negative: the highest tier whose threshold is reached. *)
Definition tierOf (dist : Q) : Z :=
  if Qgeb dist 8000 then 6
  else if Qgeb dist 5000 then 5
  else if Qgeb dist 3000 then 4
  else if Qgeb dist 1500 then 3
  else if Qgeb dist 500 then 2
  else 1.

(** The state of the distance-gated controller after [update(8000)]. *)
Definition atLevel6 : DifficultyState :=
  match update 8000 new with
  | Some (_, d, _) => d
  | None => new
  end.

End DifficultySystem.

(** The count-gated version of the same file. *)
Module DifficultySystemCount.

Record LevelSetting := mkLevel {
  ls_hskLevel : Z;
  speed : Q;
  ls_decisionTime : Z
}.

Definition CORRECT_ANSWERS_PER_LEVEL : Z := 50.

Definition LEVEL_SETTINGS : list LevelSetting :=
  [ mkLevel 1 1 3000;
    mkLevel 2 (105 # 100) 2800;
    mkLevel 3 (11 # 10) 2600;
    mkLevel 4 (115 # 100) 2400;
    mkLevel 5 (12 # 10) 2200;
    mkLevel 6 (125 # 100) 2000 ].

Definition new : DifficultyState :=
  mkDifficulty (mkSettings 1 1 3000) false.

Definition setLevelChangeCallback (d : DifficultyState) : DifficultyState :=
  mkDifficulty (currentSettings d) true.

(** [Math.min(6, Math.floor(correctAnswers / 50) + 1)]. *)
Definition newLevel (correctAnswers : Q) : Z :=
  Z.min 6 (Qfloor (correctAnswers / inject_Z CORRECT_ANSWERS_PER_LEVEL) + 1).

(** Reading a field of [LEVEL_SETTINGS[levelIndex]] throws when the index
    is outside the table. *)
Definition update (correctAnswers : Q) (d : DifficultyState) : UpdateResult :=
  let previousLevel := hskLevel (currentSettings d) in
  let levelIndex := newLevel correctAnswers - 1 in
  match arr_get LEVEL_SETTINGS levelIndex with
  | None => None
  | Some settings =>
      let d' := mkDifficulty
                  (mkSettings (ls_hskLevel settings) (speed settings)
                              (ls_decisionTime settings))
                  (onLevelChange d) in
      Some (currentSettings d', d', notify previousLevel d')
  end.

Definition getCurrentSettings (d : DifficultyState) : DifficultySettings :=
  currentSettings d.

Definition reset (d : DifficultyState) : DifficultyState :=
  mkDifficulty (mkSettings 1 1 3000) (onLevelChange d).

End DifficultySystemCount.

(** The level an [update] resolves, when it returns. *)
Definition resolvedLevel (r : UpdateResult) : option Z :=
  match r with
  | Some (settings, _, _) => Some (hskLevel settings)
  | None => None
  end.

(** ** systems/WordManager.ts *)

Module WordManager.

Record WordQuestion := mkQuestion {
  correctWord : Word;
  options : list (Lane * option Word);
  correctLane : option Lane;
  mode : QuestionMode
}.

(** The fields of the class, and [randomCalls], the number of
    [Math.random()] calls made so far: call number [k] returns
    [Math_random k]. *)
Record t := mk {
  recentWords : list string;
  customWords : option (list Word);
  language : Language;
  randomCalls : nat
}.

Definition maxRecentWords : nat := 20.

Definition new (lang : Language) : t := mk [] None lang 0.

Definition setCustomWords (words : list Word) (wm : t) : t :=
  mk (recentWords wm) (Some words) (language wm) (randomCalls wm).

Definition hasCustomWords (wm : t) : bool :=
  match customWords wm with
  | Some (_ :: _) => true
  | _ => false
  end.

Definition reset (wm : t) : t :=
  mk [] (customWords wm) (language wm) (randomCalls wm).

Definition clearCustomWords (wm : t) : t :=
  mk (recentWords wm) None (language wm) (randomCalls wm).

(** [recentWords.includes(s)]. *)
Definition includes (l : list string) (s : string) : bool :=
  existsb (String.eqb s) l.

(** [recentWords.push(s)] followed by the [shift()] that keeps at most
    [maxRecentWords] entries. *)
Definition pushRecent (recent : list string) (s : string) : list string :=
  let pushed := recent ++ [s] in
  if (maxRecentWords <? List.length pushed)%nat then tl pushed else pushed.

(** [[a[i], a[j]] = [a[j], a[i]]] on indices inside the array (the only
    ones [shuffle] produces when [Math.random()] is below 1); the array is
    left as it is otherwise. *)
Definition swap {A : Type} (a : list A) (i : nat) (j : Z) : list A :=
  match nth_error a i, arr_get a j with
  | Some ai, Some aj => arr_set (arr_set a i aj) (Z.to_nat j) ai
  | _, _ => a
  end.

(** One pass of the loops of [getDistractors] over [words]: a word is
    appended unless two distractors are there already or one of them has
    its target. *)
Fixpoint fill (distractors words : list Word) : list Word :=
  match words with
  | [] => distractors
  | word :: rest =>
      if (2 <=? List.length distractors)%nat then distractors
      else if existsb (fun d => String.eqb (target d) (target word)) distractors
           then fill distractors rest
           else fill (distractors ++ [word]) rest
  end.

(** The loop of [generateQuestion] over the lanes, from index [i] on. *)
Fixpoint buildOptions (lanes : list Lane) (i correctLaneIndex : Z)
    (correctWord : Word) (distractors : list Word) (distractorIndex : nat)
    : list (Lane * option Word) :=
  match lanes with
  | [] => []
  | lane :: rest =>
      if i =? correctLaneIndex
      then (lane, Some correctWord)
           :: buildOptions rest (i + 1) correctLaneIndex correctWord
                           distractors distractorIndex
      else (lane, nth_error distractors distractorIndex)
           :: buildOptions rest (i + 1) correctLaneIndex correctWord
                           distractors (S distractorIndex)
  end.

Section Environment.

(** The value of the [k]-th call of [Math.random()]. *)
Variable Math_random : nat -> Q.

(** The vocabulary tables of [data/], which are not part of the core. *)
Variable getWordsForLevel : Z -> Language -> list Word.

Definition getAvailableWords (level : Z) (wm : t) : list Word :=
  let currentWords := getWordsForLevel level (language wm) in
  let prevWords :=
    if level >? 1 then getWordsForLevel (level - 1) (language wm) else [] in
  currentWords ++ prevWords.

(** The candidate pool of [generateQuestion]. *)
Definition candidateWords (level : Z) (wm : t) : list Word :=
  match customWords wm with
  | Some (w :: ws) => w :: ws
  | _ => getAvailableWords level wm
  end.

(** The loop of [shuffle], from index [i] down to 1; [k] counts the
    [Math.random()] calls. *)
Fixpoint shuffleLoop {A : Type} (i : nat) (shuffled : list A) (k : nat)
    : list A * nat :=
  match i with
  | O => (shuffled, k)
  | S i' =>
      let j := floor_times (Math_random k) (Z.of_nat i + 1) in
      shuffleLoop i' (swap shuffled i j) (S k)
  end.

Definition shuffle {A : Type} (array : list A) (k : nat) : list A * nat :=
  shuffleLoop (List.length array - 1) array k.

Definition getDistractors (correctWord : Word) (_hskLevel : Z)
    (pool : list Word) (k : nat) : list Word * nat :=
  let sameCategoryWords :=
    filter (fun w => String.eqb (category w) (category correctWord)
                     && negb (String.eqb (target w) (target correctWord)))
           pool in
  let '(shuffledCategory, k1) := shuffle sameCategoryWords k in
  let '(shuffledPool, k2) :=
    shuffle (filter (fun w => negb (String.eqb (target w) (target correctWord)))
                    pool) k1 in
  (fill (fill [] shuffledCategory) shuffledPool, k2).

(** The pick of the correct word: a not recently used word, else any
    word of the pool; [undefined] when the pool is empty. The second
    [Math.random()] is only called when the first pick is [undefined]. *)
Definition pickCorrect (words : list Word) (recent : list string) (k : nat)
    : option Word * nat :=
  let availableWords :=
    filter (fun w => negb (includes recent (target w))) words in
  match arr_get availableWords
          (floor_times (Math_random k) (Z.of_nat (List.length availableWords))) with
  | Some w => (Some w, S k)
  | None =>
      (arr_get words
         (floor_times (Math_random (S k)) (Z.of_nat (List.length words))),
       S (S k))
  end.

(** [generateQuestion]: [None] when reading [correctWord.target] throws,
    which happens exactly when the pool is empty. *)
Definition generateQuestion (level : Z) (wm : t) : option WordQuestion * t :=
  let words := candidateWords level wm in
  let '(picked, k1) := pickCorrect words (recentWords wm) (randomCalls wm) in
  match picked with
  | None => (None, mk (recentWords wm) (customWords wm) (language wm) k1)
  | Some correctWord =>
      let recent := pushRecent (recentWords wm) (target correctWord) in
      let '(distractors, k2) := getDistractors correctWord level words k1 in
      let lanes := [left; center; right] in
      let correctLaneIndex := floor_times (Math_random k2) 3 in
      let correctLane := arr_get lanes correctLaneIndex in
      let options :=
        buildOptions lanes 0 correctLaneIndex correctWord distractors 0 in
      let mode :=
        if Qltb (Math_random (S k2)) (1 # 2)
        then english_to_target else target_to_english in
      (Some (mkQuestion correctWord options correctLane mode),
       mk recent (customWords wm) (language wm) (S (S k2)))
  end.

(** [n] questions in a row at one level, oldest first; a call that
    throws yields [None]. *)
Fixpoint generateQuestions (n : nat) (level : Z) (wm : t)
    : list (option WordQuestion) * t :=
  match n with
  | O => ([], wm)
  | S n' =>
      let '(q, wm1) := generateQuestion level wm in
      let '(qs, wm2) := generateQuestions n' level wm1 in
      (q :: qs, wm2)
  end.

End Environment.

End WordManager.

(** ** The gate loop shared by scenes/GameScene.ts and Game3D

    [GameScene] (Phaser) and [Game3D] (three.js) keep the same fields and run
    the same [spawnGate], [processGateCollision] and per-frame loop over the
    gates; they differ in the progress formula, the two thresholds, the
    timing constants and the pause toggle, which only [Game3D] has. The
    shared part is written once here, over what differs.

    A frame is taken to be instantaneous: every clock read made while one
    frame is handled ([time], [this.time.now], [performance.now()]) returns
    the time of the frame. *)

Module Game.

(** A gate. [gid] is not a field of the source: it is the number of gates
    created before this one and stands for the identity of the object. *)
Record Gate := mkGate {
  gid : nat;
  progress : Q;
  question : WordManager.WordQuestion;
  processed : bool;
  spawnTime : Q
}.

(** The fields of the scene that the core reads or writes. The last three
    are not fields of the source: [spawned] counts the gates created,
    [resolved] lists the [gid] of every [processGateCollision] call and
    [retired] the [gid] of every gate spliced out, newest first. *)
Record t := mk {
  currentLane : Lane;
  isMoving : bool;
  wordManager : WordManager.t;
  scoreSystem : ScoreSystem.t;
  difficultySystem : DifficultyState;
  lives : Z;
  gameSpeed : Q;
  gates : list Gate;
  lastGateSpawnTime : Q;
  questionStartTime : Q;
  isPaused : bool;
  isGameOver : bool;
  spawned : nat;
  resolved : list nat;
  retired : list nat
}.

Definition set_lane (l : Lane) (s : t) : t :=
  mk l true (wordManager s) (scoreSystem s) (difficultySystem s) (lives s)
     (gameSpeed s) (gates s) (lastGateSpawnTime s) (questionStartTime s)
     (isPaused s) (isGameOver s) (spawned s) (resolved s) (retired s).

Definition set_isMoving (b : bool) (s : t) : t :=
  mk (currentLane s) b (wordManager s) (scoreSystem s) (difficultySystem s)
     (lives s) (gameSpeed s) (gates s) (lastGateSpawnTime s)
     (questionStartTime s) (isPaused s) (isGameOver s) (spawned s)
     (resolved s) (retired s).

Definition set_wordManager (wm : WordManager.t) (s : t) : t :=
  mk (currentLane s) (isMoving s) wm (scoreSystem s) (difficultySystem s)
     (lives s) (gameSpeed s) (gates s) (lastGateSpawnTime s)
     (questionStartTime s) (isPaused s) (isGameOver s) (spawned s)
     (resolved s) (retired s).

Definition set_difficulty (d : DifficultyState) (speed : Q) (s : t) : t :=
  mk (currentLane s) (isMoving s) (wordManager s) (scoreSystem s) d
     (lives s) speed (gates s) (lastGateSpawnTime s) (questionStartTime s)
     (isPaused s) (isGameOver s) (spawned s) (resolved s) (retired s).

Definition set_gates (gs : list Gate) (s : t) : t :=
  mk (currentLane s) (isMoving s) (wordManager s) (scoreSystem s)
     (difficultySystem s) (lives s) (gameSpeed s) gs (lastGateSpawnTime s)
     (questionStartTime s) (isPaused s) (isGameOver s) (spawned s)
     (resolved s) (retired s).

Definition set_questionStartTime (now : Q) (s : t) : t :=
  mk (currentLane s) (isMoving s) (wordManager s) (scoreSystem s)
     (difficultySystem s) (lives s) (gameSpeed s) (gates s)
     (lastGateSpawnTime s) now (isPaused s) (isGameOver s) (spawned s)
     (resolved s) (retired s).

Definition set_isPaused (b : bool) (s : t) : t :=
  mk (currentLane s) (isMoving s) (wordManager s) (scoreSystem s)
     (difficultySystem s) (lives s) (gameSpeed s) (gates s)
     (lastGateSpawnTime s) (questionStartTime s) b (isGameOver s)
     (spawned s) (resolved s) (retired s).

(** What [processGateCollision] writes: the score, the lives, the
    game-over flag, and the entry of the gate in [resolved]. *)
Definition set_outcome (sc : ScoreSystem.t) (l : Z) (over : bool) (g : nat)
    (s : t) : t :=
  mk (currentLane s) (isMoving s) (wordManager s) sc (difficultySystem s) l
     (gameSpeed s) (gates s) (lastGateSpawnTime s) (questionStartTime s)
     (isPaused s) over (spawned s) (g :: resolved s) (retired s).

Definition log_retired (g : nat) (s : t) : t :=
  mk (currentLane s) (isMoving s) (wordManager s) (scoreSystem s)
     (difficultySystem s) (lives s) (gameSpeed s) (gates s)
     (lastGateSpawnTime s) (questionStartTime s) (isPaused s) (isGameOver s)
     (spawned s) (resolved s) (g :: retired s).

(** The state the constructors and [resetGameState] leave. *)
Definition new (wm : WordManager.t) (d : DifficultyState) : t :=
  mk center false wm ScoreSystem.new d 3 1 [] 0 0 false false 0%nat [] [].

(** [this.currentLane === gate.question.correctLane]. *)
Definition onCorrectLane (lane : Lane) (q : WordManager.WordQuestion) : bool :=
  match WordManager.correctLane q with
  | Some l => Lane_eqb lane l
  | None => false
  end.

Definition processGateCollision (gate : Gate) (now : Q) (s : t) : t :=
  let isCorrect := onCorrectLane (currentLane s) (question gate) in
  let decisionTime := (now - questionStartTime s)%Q in
  let '(result, sc) :=
    ScoreSystem.calculateScore isCorrect decisionTime
      (hskLevel (currentSettings (difficultySystem s))) (scoreSystem s) in
  if isCorrect then
    if (Z.rem (ScoreSystem.getCorrectAnswers sc) 10 =? 0) && (lives s <? 3)
    then set_outcome sc (lives s + 1) (isGameOver s) (gid gate) s
    else set_outcome sc (lives s) (isGameOver s) (gid gate) s
  else
    let lives1 := lives s - 1 in
    set_outcome sc lives1 (if lives1 <=? 0 then true else isGameOver s)
                (gid gate) s.

Section Loop.

Variable Math_random : nat -> Q.
Variable getWordsForLevel : Z -> Language -> list Word.

(** [difficultySystem.update], in either version. *)
Variable difficultyUpdate : Q -> DifficultyState -> UpdateResult.

(** The progress a frame at [now] gives a gate at the speed [speed]. *)
Variable progressAt : Q -> Q -> Gate -> Q.

(** The progress from which a gate collides, the progress from which it
    is removed, and [GATE_SPACING_TIME]. *)
Variables collisionAt retireAt spacingTime : Q.

(** [spawnGate]; a [generateQuestion] that throws leaves the scene as it
    was, the [Math.random()] calls made apart. *)
Definition spawnGate (now : Q) (s : t) : t :=
  let settings := currentSettings (difficultySystem s) in
  match WordManager.generateQuestion Math_random getWordsForLevel
          (hskLevel settings) (wordManager s) with
  | (None, wm) => set_wordManager wm s
  | (Some question, wm) =>
      let qStart :=
        match gates s with [] => now | _ :: _ => questionStartTime s end in
      let gate := mkGate (spawned s) 0 question false now in
      mk (currentLane s) (isMoving s) wm (scoreSystem s)
         (difficultySystem s) (lives s) (gameSpeed s) (gates s ++ [gate])
         now qStart (isPaused s) (isGameOver s) (S (spawned s))
         (resolved s) (retired s)
  end.

(** The body of the loop over the gates for one gate: the new progress,
    the collision, and whether the gate is removed. [remaining] is the
    length the array has once this gate is spliced out. *)
Definition stepGate (now : Q) (gate : Gate) (remaining : nat) (s : t)
    : option Gate * t :=
  let p := progressAt now (gameSpeed s) gate in
  let gate1 := mkGate (gid gate) p (question gate) (processed gate)
                      (spawnTime gate) in
  let '(gate2, s1) :=
    if Qgeb p collisionAt && negb (processed gate1)
    then (mkGate (gid gate) p (question gate) true (spawnTime gate),
          processGateCollision gate1 now s)
    else (gate1, s) in
  if Qgeb p retireAt
  then (None,
        let s2 := log_retired (gid gate) s1 in
        if (0 <? remaining)%nat then set_questionStartTime now s2 else s2)
  else (Some gate2, s1).

(** [for (let i = gates.length - 1; i >= 0; i--)]: [before] holds
    [gates[0..i]] with [gates[i]] first, [after] what is left of
    [gates[i+1..]], in array order. *)
Fixpoint updateGates (now : Q) (before after : list Gate) (s : t)
    : list Gate * t :=
  match before with
  | [] => (after, s)
  | gate :: before' =>
      match stepGate now gate (List.length before' + List.length after) s with
      | (None, s1) => updateGates now before' after s1
      | (Some gate', s1) => updateGates now before' (gate' :: after) s1
      end
  end.

(** One frame, from the difficulty update to the spawn of a new gate;
    an [update] that throws ends the frame before anything is
    written. [arrived] tells whether the player has reached the lane it
    was moving to, in which case [Game3D.animate] clears [isMoving]
    before it turns to the gates. *)
Definition frame (now : Q) (arrived : bool) (s : t) : t :=
  match difficultyUpdate
          (inject_Z (ScoreSystem.getCorrectAnswers (scoreSystem s)))
          (difficultySystem s) with
  | None => s
  | Some (settings, d, _) =>
      let s0 := set_difficulty d (speedMultiplier settings) s in
      let s1 := if arrived then set_isMoving false s0 else s0 in
      let '(gs, s2) := updateGates now (rev (gates s1)) [] s1 in
      let s3 := set_gates gs s2 in
      let timeSinceLastSpawn := (now - lastGateSpawnTime s3)%Q in
      if match gates s3 with [] => true | _ :: _ => false end
         || Qltb (spacingTime / gameSpeed s3) timeSinceLastSpawn
      then spawnGate now s3
      else s3
  end.

End Loop.

End Game.

(** ** scenes/GameScene.ts *)

Module GameScene.

Definition VANISHING_POINT_X : Q := 240.
Definition TRACK_WIDTH_START : Q := 80.
Definition TRACK_WIDTH_END : Q := 420.

(** [getLaneX]: where a lane is across the screen at a progress. *)
Definition getLaneX (lane : Lane) (progress : Q) : Q :=
  let trackWidth :=
    (TRACK_WIDTH_START
     + (TRACK_WIDTH_END - TRACK_WIDTH_START) * progress)%Q in
  let laneOffset := (trackWidth / 3)%Q in
  match lane with
  | left => (VANISHING_POINT_X - laneOffset)%Q
  | center => VANISHING_POINT_X
  | right => (VANISHING_POINT_X + laneOffset)%Q
  end.

Definition GATE_TRAVEL_TIME : Q := 6000.
Definition GATE_SPACING_TIME : Q := 6500.

(** [Math.min(1, elapsed / (GATE_TRAVEL_TIME / this.gameSpeed))]. *)
Definition progressAt (time speed : Q) (gate : Game.Gate) : Q :=
  let elapsed := (time - Game.spawnTime gate)%Q in
  Qmin 1 (elapsed / (GATE_TRAVEL_TIME / speed)).

Definition collisionAt : Q := 95 # 100.
Definition retireAt : Q := 11 # 10.

(** What the scene is given: a frame at [time], a lane request from the
    keyboard or a swipe, the end of the lane tween. *)
Inductive Event :=
| Update (time : Q)
| MoveToLane (lane : Lane)
| TweenComplete.

Section Scene.

Variable Math_random : nat -> Q.
Variable getWordsForLevel : Z -> Language -> list Word.
Variable difficultyUpdate : Q -> DifficultyState -> UpdateResult.

Definition spawnGate : Q -> Game.t -> Game.t :=
  Game.spawnGate Math_random getWordsForLevel.

(** [create]: [resetGameState] and the first [spawnGate]. *)
Definition create (now : Q) : Game.t :=
  spawnGate now
    (Game.new (WordManager.new chinese)
              (DifficultySystem.setLevelChangeCallback DifficultySystem.new)).

(** [update]. [gameOver] starts the game-over scene, after which Phaser
    calls [update] no more. *)
Definition update (time : Q) (s : Game.t) : Game.t :=
  if Game.isGameOver s then s
  else Game.frame Math_random getWordsForLevel difficultyUpdate progressAt
                  collisionAt retireAt GATE_SPACING_TIME time false s.

Definition moveToLane (lane : Lane) (s : Game.t) : Game.t :=
  if Game.isMoving s then s else Game.set_lane lane s.

Definition step (e : Event) (s : Game.t) : Game.t :=
  match e with
  | Update time => update time s
  | MoveToLane lane => moveToLane lane s
  | TweenComplete => Game.set_isMoving false s
  end.

Definition run (es : list Event) (s : Game.t) : Game.t :=
  fold_left (fun s e => step e s) es s.

End Scene.

End GameScene.

(** ** Game3D *)

Module Game3D.

Definition GATE_TRAVEL_TIME : Q := 4000.
Definition GATE_SPACING_TIME : Q := 4500.

(** [elapsed / (this.GATE_TRAVEL_TIME / this.gameSpeed)]. *)
Definition progressAt (now speed : Q) (gate : Game.Gate) : Q :=
  let elapsed := (now - Game.spawnTime gate)%Q in
  (elapsed / (GATE_TRAVEL_TIME / speed))%Q.

Definition collisionAt : Q := 98 # 100.
Definition retireAt : Q := 115 # 100.

(** What the game is given: an animation frame at [now], in which the
    player may have [arrived] on its lane; the pause key; a lane key or
    swipe. *)
Inductive Event :=
| AnimationFrame (now : Q) (arrived : bool)
| PauseKey
| LaneKey (lane : Lane).

Section Scene.

Variable Math_random : nat -> Q.
Variable getWordsForLevel : Z -> Language -> list Word.
Variable difficultyUpdate : Q -> DifficultyState -> UpdateResult.

Definition spawnGate : Q -> Game.t -> Game.t :=
  Game.spawnGate Math_random getWordsForLevel.

(** The constructor, given the word manager it has set up and the
    difficulty system, and the first [spawnGate] of [init]. *)
Definition init (wm : WordManager.t) (d : DifficultyState) (now : Q) : Game.t :=
  spawnGate now (Game.new wm d).

(** [togglePause]; the [THREE.Clock] it restarts only measures the
    frame delta, which moves the runner and the distance display. *)
Definition togglePause (s : Game.t) : Game.t :=
  Game.set_isPaused (negb (Game.isPaused s)) s.

Definition moveToLane (lane : Lane) (s : Game.t) : Game.t :=
  if Game.isMoving s || Game.isPaused s then s else Game.set_lane lane s.

Definition animate (now : Q) (arrived : bool) (s : Game.t) : Game.t :=
  if Game.isGameOver s then s
  else if Game.isPaused s then s
  else Game.frame Math_random getWordsForLevel difficultyUpdate progressAt
                  collisionAt retireAt GATE_SPACING_TIME now arrived s.

Definition step (e : Event) (s : Game.t) : Game.t :=
  match e with
  | AnimationFrame now arrived => animate now arrived s
  | PauseKey => togglePause s
  | LaneKey lane =>
      if Game.isPaused s || Game.isGameOver s then s else moveToLane lane s
  end.

Definition run (es : list Event) (s : Game.t) : Game.t :=
  fold_left (fun s e => step e s) es s.

End Scene.

End Game3D.

(** ** data/index.ts and data/arabic/index.ts *)

Module Data.

Section Tables.

(** The word lists of the level files ([hsk1Words] to [hsk6Words],
    [arabic1Words] to [arabic6Words]), which hold data only: the list of
    each language for the levels 1 to 6. *)
Variables hskWords arabicWords : Z -> list Word.

(** A [Record<number, Word[]>] with the keys 1 to 6, in key order. *)
Definition chineseWordsByLevel : list (Z * list Word) :=
  map (fun level => (level, hskWords level)) [1; 2; 3; 4; 5; 6].

Definition arabicWordsByLevel : list (Z * list Word) :=
  map (fun level => (level, arabicWords level)) [1; 2; 3; 4; 5; 6].

(** [table[level]]: [undefined] for a key the record does not have. *)
Definition lookup (table : list (Z * list Word)) (level : Z)
    : option (list Word) :=
  option_map snd (find (fun entry => fst entry =? level) table).

(** [x || []] on the result of a lookup; an array is never falsy. *)
Definition orEmpty (x : option (list Word)) : list Word :=
  match x with
  | Some words => words
  | None => []
  end.

Definition getArabicWordsForLevel (level : Z) : list Word :=
  orEmpty (lookup arabicWordsByLevel level).

Definition getWordsForLevel (level : Z) (language : Language) : list Word :=
  match language with
  | arabic => getArabicWordsForLevel level
  | chinese => orEmpty (lookup chineseWordsByLevel level)
  end.

(** [getAllWords]: [Object.values] lists the values in key order. *)
Definition getAllWords (language : Language) : list Word :=
  match language with
  | arabic => flat_map (fun level => getArabicWordsForLevel level)
                       [1; 2; 3; 4; 5; 6]
  | chinese => List.concat (map snd chineseWordsByLevel)
  end.

End Tables.

End Data.

(** ** utils/csvParser.ts: [parseCSVLine]

    The function that [parseAnkiCSV] splits the header and every row of an
    imported deck with. A line is the list of its characters. The loop only compares
    characters with the quote and the three separators, which are ASCII; a
    character outside ASCII stands here as the bytes of its encoding, none
    of which is one of the four. *)

Module CsvParser.

Definition quote : ascii := "034"%char.
Definition comma : ascii := ","%char.
Definition tab : ascii := "009"%char.
Definition semicolon : ascii := ";"%char.

Definition isQuote (c : ascii) : bool := Ascii.eqb c quote.

(** [char === ',' || char === '\t' || char === ';']. *)
Definition isSeparator (c : ascii) : bool :=
  Ascii.eqb c comma || Ascii.eqb c tab || Ascii.eqb c semicolon.

(** The loop of [parseCSVLine] over what is left of the line, and the
    [result.push(current)] that follows it. A quote that is followed by a
    quote, inside quotes, is read as one quote character and both are
    passed. *)
Fixpoint scan (line current : list ascii) (inQuotes : bool)
    (result : list (list ascii)) : list (list ascii) :=
  match line with
  | [] => result ++ [current]
  | char :: rest =>
      if isQuote char then
        if inQuotes then
          match rest with
          | next :: rest' =>
              if isQuote next
              then scan rest' (current ++ [quote]) inQuotes result
              else scan rest current (negb inQuotes) result
          | [] => scan rest current (negb inQuotes) result
          end
        else scan rest current (negb inQuotes) result
      else if isSeparator char && negb inQuotes
      then scan rest [] inQuotes (result ++ [current])
      else scan rest (current ++ [char]) inQuotes result
  end.

Definition parseCSVLine (line : list ascii) : list (list ascii) :=
  scan line [] false [].

End CsvParser.

(** * The vocabulary of the properties *)

(** ** The word selector *)

(** What [getDistractors] returns: at most two words of the pool, with
    targets that differ from each other and from the target of the
    correct word; and two of them when the pool has two such words. *)
Definition distractorsOf (correctWord : Word) (pool ds : list Word) : Prop :=
  NoDup (map target ds) /\
  Forall (fun d => target d <> target correctWord /\ In d pool) ds /\
  (List.length ds <= 2)%nat /\
  ((exists a b, In a pool /\ In b pool /\
                target a <> target correctWord /\
                target b <> target correctWord /\
                target a <> target b) ->
   List.length ds = 2%nat).

(** The pool has three words whose targets differ from one another. *)
Definition threeTargets (pool : list Word) : Prop :=
  exists a b c,
    In a pool /\ In b pool /\ In c pool /\
    target a <> target b /\ target a <> target c /\ target b <> target c.

(** [t] is in the buffer with [p] entries after it. *)
Definition within (t : string) (recent : list string) (p : nat) : Prop :=
  exists pre post, recent = pre ++ t :: post /\ List.length post = p.

(** The pool has at least 21 words with distinct targets. *)
Definition richPool (pool : list Word) : Prop :=
  exists l, incl l pool /\ NoDup (map target l) /\ (21 <= List.length l)%nat.

(** [Math.random()] returns a number from 0 inclusive to 1 exclusive. *)
Definition inUnitInterval (Math_random : nat -> Q) : Prop :=
  forall k, (0 <= Math_random k)%Q /\ (Math_random k < 1)%Q.

(** The correct word has two other words of its category in the pool, with
    targets that differ from its target and from each other. *)
Definition twoOfCategory (correctWord : Word) (pool : list Word) : Prop :=
  exists a b,
    In a pool /\ In b pool /\
    category a = category correctWord /\ category b = category correctWord /\
    target a <> target correctWord /\ target b <> target correctWord /\
    target a <> target b.

(** ** The gates *)

Module GameInv.
Import Game.

(** The bookkeeping of resolutions over an array of gates [gs] and the
    rest of the scene [s]: no gate is listed twice in [resolved]; the gates
    are distinct objects created earlier; a gate is marked [processed]
    exactly when it is listed in [resolved]; and every gate that was
    removed is listed in [resolved]. *)
Definition GatesOk (gs : list Gate) (s : t) : Prop :=
  NoDup (resolved s) /\
  NoDup (map gid gs) /\
  (forall g, In g gs ->
             (gid g < spawned s)%nat /\
             (processed g = true <-> In (gid g) (resolved s))) /\
  (forall id, In id (resolved s) -> (id < spawned s)%nat) /\
  (forall id, In id (retired s) -> In id (resolved s)).

(** Every gate of [gs] whose progress has reached [collisionAt] is marked
    [processed]. *)
Definition Settled (collisionAt : Q) (gs : list Gate) : Prop :=
  forall g, In g gs -> Qgeb (progress g) collisionAt = true ->
            processed g = true.

(** The invariant of a scene: the bookkeeping holds of its gates, and
    every gate whose progress has reached the collision threshold is
    marked. *)
Definition Once (collisionAt : Q) (s : t) : Prop :=
  GatesOk (gates s) s /\ Settled collisionAt (gates s).

End GameInv.

(** How often the gate [id] was resolved. *)
Definition resolutions (s : Game.t) (id : nat) : nat :=
  count_occ Nat.eq_dec (Game.resolved s) id.

(** Resolution happens once: no gate was resolved twice; a gate of the
    scene whose progress has reached the collision threshold was resolved
    once and is marked; a gate that is not marked was not resolved; a gate
    that was removed was resolved once. *)
Definition ResolvedOnce (collisionAt : Q) (s : Game.t) : Prop :=
  (forall id, (resolutions s id <= 1)%nat) /\
  (forall g, In g (Game.gates s) ->
             Qgeb (Game.progress g) collisionAt = true ->
             Game.processed g = true /\ resolutions s (Game.gid g) = 1%nat) /\
  (forall g, In g (Game.gates s) ->
             Game.processed g = false -> resolutions s (Game.gid g) = 0%nat) /\
  (forall id, In id (Game.retired s) -> resolutions s id = 1%nat).

(** ** The accounts of a game *)

(** The lives are at most 3, and at least 1 while the game is not over;
    the score system has counted one answer for every collision that was
    resolved. *)
Definition Accounts (s : Game.t) : Prop :=
  (Game.lives s <= 3)%Z /\
  (Game.isGameOver s = false -> (1 <= Game.lives s)%Z) /\
  ScoreSystem.getTotalAnswers (Game.scoreSystem s)
  = Z.of_nat (List.length (Game.resolved s)) /\
  (0 <= ScoreSystem.getCorrectAnswers (Game.scoreSystem s)
   <= ScoreSystem.getTotalAnswers (Game.scoreSystem s))%Z.

(** What the frames use of [difficultySystem.update]: called with a count
    that is not negative it returns, and the settings it returns, which
    are those it leaves, have a level from 1 to 6 and a speed from 1 to
    [hi]. *)
Definition tableUpdate (update : Q -> DifficultyState -> UpdateResult)
    (hi : Q) : Prop :=
  forall (c : Z) (d : DifficultyState), (0 <= c)%Z ->
    exists settings d' note,
      update (inject_Z c) d = Some (settings, d', note) /\
      currentSettings d' = settings /\
      (1 <= hskLevel settings <= 6)%Z /\
      (1 <= speedMultiplier settings)%Q /\ (speedMultiplier settings <= hi)%Q.

(** The [update] of the next frame does not throw, and the speed the
    gates travel at is between 1 and [hi]. *)
Definition frameSafe (update : Q -> DifficultyState -> UpdateResult)
    (hi : Q) (s : Game.t) : Prop :=
  update (inject_Z (ScoreSystem.getCorrectAnswers (Game.scoreSystem s)))
         (Game.difficultySystem s) <> None /\
  (1 <= Game.gameSpeed s)%Q /\ (Game.gameSpeed s <= hi)%Q.

(** The scene [s] with another lane, [isMoving] and [isPaused]. *)
Definition withPlayer (lane : Lane) (moving paused : bool) (s : Game.t)
    : Game.t :=
  Game.set_isPaused paused (Game.set_isMoving moving (Game.set_lane lane s)).

(** The gates are in the array in the order they were created. *)
Definition inSpawnOrder (s : Game.t) : Prop :=
  StronglySorted lt (map Game.gid (Game.gates s)).

(** ** Concrete decks and games *)

Module WordExamples.

(** An oracle for [Math.random()] that always returns 0, and one that
    always returns 1/2. *)
Definition randomZero : nat -> Q := fun _ => 0%Q.
Definition randomHalf : nat -> Q := fun _ => (1 # 2)%Q.

(** No built-in vocabulary: the pool is the custom deck. *)
Definition noWords : Z -> Language -> list Word := fun _ _ => [].

(** A word that is its own pronunciation and translation. *)
Definition word (t : string) : Word := mkWord t t t "custom".

Definition deck3 : list Word := map word ["yi"; "er"; "san"]%string.

Definition deck21 : list Word :=
  map word ["a"; "b"; "c"; "d"; "e"; "f"; "g"; "h"; "i"; "j"; "k"; "l"; "m";
            "n"; "o"; "p"; "q"; "r"; "s"; "t"; "u"]%string.

Definition manager (deck : list Word) : WordManager.t :=
  WordManager.setCustomWords deck (WordManager.new chinese).

End WordExamples.

Module GameExamples.

(** [Game3D] over a custom deck of three words, with the count-gated
    difficulty system and [Math.random()] at 0; the first gate is spawned
    at time 0 and its correct lane is left. *)
Definition run3D : list Game3D.Event -> Game.t -> Game.t :=
  Game3D.run WordExamples.randomZero WordExamples.noWords
             DifficultySystemCount.update.

Definition start3D : Game.t :=
  Game3D.init WordExamples.randomZero WordExamples.noWords
              (WordExamples.manager WordExamples.deck3)
              DifficultySystemCount.new 0.

(** [GameScene] over a vocabulary of three words, with the distance-gated
    difficulty system of its directory. *)
Definition words3 : Z -> Language -> list Word := fun _ _ => WordExamples.deck3.

Definition runScene : list GameScene.Event -> Game.t -> Game.t :=
  GameScene.run WordExamples.randomZero words3 DifficultySystem.update.

Definition startScene : Game.t :=
  GameScene.create WordExamples.randomZero words3 0.

(** The progress of the gates, in lowest terms. *)
Definition progresses (s : Game.t) : list Q :=
  map (fun g => Qred (Game.progress g)) (Game.gates s).

(** A game of [Game3D] lost in five frames: the player stays in the
    center lane while the correct lane of every gate is left. *)
Definition lost3D : Game.t :=
  run3D [Game3D.AnimationFrame 4000 false; Game3D.AnimationFrame 5000 false;
         Game3D.AnimationFrame 9000 false; Game3D.AnimationFrame 10000 false;
         Game3D.AnimationFrame 14000 false] start3D.

(** A game of [Game3D] paused after one second. *)
Definition paused3D : Game.t :=
  run3D [Game3D.AnimationFrame 1000 false; Game3D.PauseKey] start3D.

End GameExamples.

(** ** The difficulty controllers *)

(** The levels the level-change callback is called with, in order, while
    [update] is called with each of the [signals] in turn; a call that
    throws ends the sequence. *)
Fixpoint notifications (update : Q -> DifficultyState -> UpdateResult)
    (signals : list Q) (d : DifficultyState) : list Z :=
  match signals with
  | [] => []
  | s :: rest =>
      match update s d with
      | None => []
      | Some (_, d', note) =>
          match note with
          | Some level => level :: notifications update rest d'
          | None => notifications update rest d'
          end
      end
  end.

(** The state [update] leaves, or the state it was called on when it
    throws. *)
Definition stateAfter (r : UpdateResult) (d : DifficultyState) : DifficultyState :=
  match r with
  | Some (_, d', _) => d'
  | None => d
  end.

(** ** Lines of separated values *)

(** The fields, with [sep] between them. *)
Fixpoint joinWith (sep : ascii) (fields : list (list ascii)) : list ascii :=
  match fields with
  | [] => []
  | [field] => field
  | field :: rest => field ++ sep :: joinWith sep rest
  end.

(** A field with every quote doubled. *)
Definition escapeQuotes (field : list ascii) : list ascii :=
  flat_map (fun c => if CsvParser.isQuote c then [c; c] else [c]) field.

(** A field in quotes, as a spreadsheet exports it. *)
Definition quoteField (field : list ascii) : list ascii :=
  CsvParser.quote :: escapeQuotes field ++ [CsvParser.quote].

(** A field without quote or separator. *)
Definition plainField (field : list ascii) : Prop :=
  Forall (fun c => CsvParser.isQuote c = false /\
                   CsvParser.isSeparator c = false) field.

(** A cell of a line: a field, and whether it is written in quotes. *)
Definition writeCell (cell : bool * list ascii) : list ascii :=
  if fst cell then quoteField (snd cell) else snd cell.

(** A cell may be written without quotes only if its field is plain. *)
Definition writable (cell : bool * list ascii) : Prop :=
  fst cell = false -> plainField (snd cell).

(** The separators of a line. *)
Definition separatorsOf (line : list ascii) : list ascii :=
  filter CsvParser.isSeparator line.

(** * Properties *)

(** ** Numbers *)

(** Turns a comparison of rationals built from integers into one of
    integers. *)
Ltac q2z :=
  unfold Qle, Qlt, Qeq, Qminus, Qplus, Qopp, Qmult, inject_Z;
  cbn [Qnum Qden Pos.mul].

Lemma Qltb_lt (a b : Q) : Qltb a b = true <-> (a < b)%Q.
Proof.
  unfold Qltb. rewrite negb_true_iff.
  split; intro H.
  - apply Qnot_le_lt. intro Hle. apply Qle_bool_iff in Hle. congruence.
  - destruct (Qle_bool b a) eqn:E; [|reflexivity].
    apply Qle_bool_iff in E. exfalso. exact (Qlt_not_le _ _ H E).
Qed.

Lemma Qltb_ge (a b : Q) : Qltb a b = false <-> (b <= a)%Q.
Proof.
  unfold Qltb. rewrite negb_false_iff. apply Qle_bool_iff.
Qed.

Lemma Qgeb_le (a b : Q) : Qgeb a b = true <-> (b <= a)%Q.
Proof. unfold Qgeb. apply Qle_bool_iff. Qed.

Lemma Qgeb_lt (a b : Q) : Qgeb a b = false <-> (a < b)%Q.
Proof.
  unfold Qgeb. split; intro H.
  - apply Qnot_le_lt. intro Hle. apply Qle_bool_iff in Hle. congruence.
  - destruct (Qle_bool b a) eqn:E; [|reflexivity].
    apply Qle_bool_iff in E. exfalso. exact (Qlt_not_le _ _ H E).
Qed.

Lemma Qmin_le_l (a b : Q) : (Qmin a b <= a)%Q.
Proof.
  unfold Qmin. destruct (Qle_bool a b) eqn:E.
  - apply Qle_refl.
  - apply Qlt_le_weak. apply Qnot_le_lt. intro H.
    apply Qle_bool_iff in H. congruence.
Qed.

(** ** The scoring engine *)

Module ScoreFacts.
Import ScoreSystem.

(** Unfolds [calculateScore] down to the fields, keeping the arithmetic
    as written. *)
Ltac score_simpl :=
  unfold calculateScore;
  cbn [negb fst snd score streak maxStreak correctAnswers totalAnswers
       basePoints speedBonus streakBonus multiplier totalPoints].

Lemma streakBonusOf_cases (n : Z) :
  (n = 5 -> streakBonusOf n = 200) /\
  (n = 10 -> streakBonusOf n = 500) /\
  (n > 10 -> n mod 5 = 0 -> streakBonusOf n = 300) /\
  (n <> 5 -> n <> 10 -> ~ (n > 10 /\ n mod 5 = 0) -> streakBonusOf n = 0).
Proof.
  unfold streakBonusOf. repeat split; intros.
  - subst. reflexivity.
  - subst. reflexivity.
  - destruct (n =? 5) eqn:E5; [lia|]. destruct (n =? 10) eqn:E10; [lia|].
    assert (Hr : Z.rem n 5 = 0) by (rewrite Z.rem_mod_nonneg; lia).
    rewrite Hr. replace (n >? 10) with true by (symmetry; apply Z.gtb_lt; lia).
    reflexivity.
  - destruct (n =? 5) eqn:E5; [lia|]. destruct (n =? 10) eqn:E10; [lia|].
    destruct (n >? 10) eqn:G; [|reflexivity].
    destruct (Z.rem n 5 =? 0) eqn:R; [|reflexivity].
    exfalso. apply H1. apply Z.gtb_lt in G. apply Z.eqb_eq in R.
    rewrite Z.rem_mod_nonneg in R; lia.
Qed.

Lemma streakBonusOf_nonneg (n : Z) : 0 <= streakBonusOf n.
Proof.
  unfold streakBonusOf.
  destruct (n =? 5); [lia|]. destruct (n =? 10); [lia|].
  destruct ((n >? 10) && (Z.rem n 5 =? 0)); lia.
Qed.

Lemma streakBonusOf_200 (n : Z) : streakBonusOf n = 200 <-> n = 5.
Proof.
  unfold streakBonusOf. destruct (n =? 5) eqn:E5.
  - apply Z.eqb_eq in E5. tauto.
  - apply Z.eqb_neq in E5. destruct (n =? 10).
    + split; intro; [discriminate | contradiction].
    + destruct ((n >? 10) && (Z.rem n 5 =? 0));
        (split; intro; [discriminate | contradiction]).
Qed.

Lemma streakBonusOf_500 (n : Z) : streakBonusOf n = 500 <-> n = 10.
Proof.
  unfold streakBonusOf. destruct (n =? 5) eqn:E5.
  - apply Z.eqb_eq in E5. split; intro; [discriminate | lia].
  - destruct (n =? 10) eqn:E10.
    + apply Z.eqb_eq in E10. tauto.
    + apply Z.eqb_neq in E10.
      destruct ((n >? 10) && (Z.rem n 5 =? 0));
        (split; intro; [discriminate | contradiction]).
Qed.

(** The base points times the multiplier are not negative from level -4
    on. *)
Lemma points_nonneg (base lvl : Z) :
  0 <= base -> -4 <= lvl ->
  0 <= Qfloor (inject_Z base * (1 + inject_Z (lvl - 1) * (2 # 10)))%Q.
Proof.
  intros Hb Hl.
  change 0 with (Qfloor 0).
  apply Qfloor_resp_le.
  apply Qmult_le_0_compat; q2z; lia.
Qed.

Lemma run_cons (c : Call) (cs : list Call) (s : t) :
  run (c :: cs) s =
  (fst (call c s) :: fst (run cs (snd (call c s))), snd (run cs (snd (call c s)))).
Proof.
  simpl. destruct (call c s) as [r s1]. simpl.
  destruct (run cs s1) as [rs s2]. reflexivity.
Qed.

(** Past the streak [n], a run of correct answers awards the bonus of
    streak [n] no more. *)
Lemma awards_none (b n : Z) (Hb : forall k, streakBonusOf k = b <-> k = n) :
  forall cs s, allCorrect cs -> n <= streak s ->
               awards b (fst (run cs s)) = 0%nat.
Proof.
  induction cs as [|c cs IH]; intros s Hc Hs; [reflexivity|].
  inversion Hc as [|c' cs' Hhd Htl]; subst.
  destruct c as [[|] ms lvl|]; try contradiction.
  rewrite run_cons. unfold awards in *. simpl.
  destruct (streakBonusOf (streak s + 1) =? b) eqn:E.
  - apply Z.eqb_eq in E. apply Hb in E. lia.
  - apply IH; [assumption | simpl; lia].
Qed.

Lemma awards_once (b n : Z) (Hb : forall k, streakBonusOf k = b <-> k = n) :
  forall cs s, allCorrect cs -> (awards b (fst (run cs s)) <= 1)%nat.
Proof.
  induction cs as [|c cs IH]; intros s Hc; [unfold awards; simpl; lia|].
  inversion Hc as [|c' cs' Hhd Htl]; subst.
  destruct c as [[|] ms lvl|]; try contradiction.
  rewrite run_cons. unfold awards in *. simpl.
  destruct (streakBonusOf (streak s + 1) =? b) eqn:E.
  - apply Z.eqb_eq in E. apply Hb in E. simpl.
    pose proof (awards_none b n Hb cs
                  (snd (calculateScore true ms lvl s)) Htl) as H0.
    unfold awards in H0. simpl in H0. rewrite H0; [lia | lia].
  - apply IH. assumption.
Qed.

Lemma calculateScore_grows (correct : bool) (ms : Q) (lvl : Z) (s : t) :
  -4 <= lvl -> Grows s (snd (calculateScore correct ms lvl s)).
Proof.
  intro Hl. unfold Grows.
  destruct correct; score_simpl.
  - pose proof (streakBonusOf_nonneg (streak s + 1)).
    pose proof (points_nonneg (100 + (if Qltb ms 1000 then 50 else 0)) lvl
                  ltac:(destruct (Qltb ms 1000); lia) Hl).
    lia.
  - lia.
Qed.

Lemma calculateScore_inv (correct : bool) (ms : Q) (lvl : Z) (s : t) :
  -4 <= lvl -> Inv s -> Inv (snd (calculateScore correct ms lvl s)).
Proof.
  intros Hl HI.
  pose proof (calculateScore_grows correct ms lvl s Hl) as HG.
  unfold Inv, Grows in *. revert HG.
  destruct correct; score_simpl; lia.
Qed.

Lemma run_inv (cs : list Call) :
  forall s, levelsFrom (-4) cs -> Inv s -> Inv (snd (run cs s)).
Proof.
  induction cs as [|c cs IH]; intros s Hl HI; [exact HI|].
  inversion Hl as [|c' cs' Hhd Htl]; subst.
  rewrite run_cons. simpl. apply IH; [assumption|].
  destruct c as [correct ms lvl|]; simpl.
  - pose proof (calculateScore_inv correct ms lvl s Hhd HI) as H.
    destruct (calculateScore correct ms lvl s). exact H.
  - unfold Inv; simpl; lia.
Qed.




(** C5, as it holds. A wrong answer adds one to the total of answers,
    sets the streak to 0, leaves the score, the correct count and the
    longest streak as they were, and returns no points in any field; the
    multiplier it returns is 1. *)
Theorem calculateScore_incorrect_answer (ms : Q) (lvl : Z) (s : t) :
  let r := fst (calculateScore false ms lvl s) in
  let s' := snd (calculateScore false ms lvl s) in
  totalAnswers s' = totalAnswers s + 1 /\
  streak s' = 0 /\
  score s' = score s /\
  correctAnswers s' = correctAnswers s /\
  maxStreak s' = maxStreak s /\
  basePoints r = 0 /\ speedBonus r = 0 /\ streakBonus r = 0 /\
  totalPoints r = 0 /\
  multiplier r = 1%Q.
Proof. score_simpl. repeat split. Qed.

(** C5, as stated, fails: the result of a wrong answer is not zero in
    every field, its multiplier is 1. *)
Lemma incorrect_answer_multiplier_not_zero :
  let r := fst (calculateScore false 0 1 new) in
  ~ (basePoints r = 0 /\ speedBonus r = 0 /\ streakBonus r = 0 /\
     (multiplier r == 0)%Q /\ totalPoints r = 0).
Proof. cbv zeta. intros (_ & _ & _ & H & _). vm_compute in H. discriminate. Qed.

(** C10, as it holds. When every [calculateScore] is called with a level
    of at least -4 (the levels of the game are 1 to 6), the state after
    any sequence of [calculateScore] and [reset] calls on a new score
    system satisfies the invariant, and no [calculateScore] call makes
    the score, the longest streak, the correct count or the total count
    smaller. *)
Theorem score_invariant :
  (forall cs : list Call,
      levelsFrom (-4) cs -> Inv (snd (run cs new))) /\
  (forall (correct : bool) (ms : Q) (lvl : Z) (s : t),
      -4 <= lvl -> Grows s (snd (calculateScore correct ms lvl s))).
Proof.
  split.
  - intros cs Hl. apply run_inv; [exact Hl|].
    unfold Inv, new; simpl; lia.
  - intros correct ms lvl s Hl. apply calculateScore_grows. exact Hl.
Qed.

Lemma score_invariant_witness :
  let cs := [CallCalculateScore true 500 1; CallCalculateScore false 1500 2;
             CallReset; CallCalculateScore true 1500 6] in
  levelsFrom (-4) cs /\ Inv (snd (run cs new)) /\
  Grows new (snd (calculateScore true 500 1 new)).
Proof.
  assert (Hl : levelsFrom (-4)
                 [CallCalculateScore true 500 1; CallCalculateScore false 1500 2;
                  CallReset; CallCalculateScore true 1500 6]).
  { unfold levelsFrom. repeat constructor; lia. }
  split; [exact Hl|]. split.
  - exact (proj1 score_invariant _ Hl).
  - apply (proj2 score_invariant true 500%Q 1 new). lia.
Defined.

(** C10, as stated, fails: a correct answer at level -9 has the
    multiplier -1 and takes the score of a new score system to -150. *)
Lemma score_negative_below_level :
  ~ Inv (snd (run [CallCalculateScore true 500 (-9)] new)).
Proof. unfold Inv. vm_compute. intros (_ & _ & H). apply H. reflexivity. Qed.

End ScoreFacts.

(** ** The difficulty controllers *)

Module DifficultyFacts.

Lemma distance_level (dist : Q) (d : DifficultyState) :
  (0 <= dist)%Q ->
  resolvedLevel (DifficultySystem.update dist d) = Some (DifficultySystem.tierOf dist).
Proof.
  intro H0. unfold DifficultySystem.update, resolvedLevel, DifficultySystem.tierOf.
  cbn [currentSettings hskLevel rev DifficultySystem.DIFFICULTY_THRESHOLDS
       app DifficultySystem.findTier DifficultySystem.distance
       DifficultySystem.th_hskLevel].
  repeat match goal with
         | |- context [Qgeb dist ?c] => destruct (Qgeb dist c) eqn:?
         end; cbn [hskLevel]; try reflexivity.
  match goal with
  | E : Qgeb dist 0 = false |- _ => apply Qgeb_lt in E; lra
  end.
Qed.

Lemma tierOf_mono (s1 s2 : Q) : (s1 <= s2)%Q -> DifficultySystem.tierOf s1 <= DifficultySystem.tierOf s2 <= 6.
Proof.
  intro H. unfold DifficultySystem.tierOf.
  repeat match goal with
         | |- context [Qgeb ?x ?c] => destruct (Qgeb x c) eqn:?
         end;
    repeat match goal with
           | E : Qgeb _ _ = true |- _ => apply Qgeb_le in E
           | E : Qgeb _ _ = false |- _ => apply Qgeb_lt in E
           end;
    try lia; exfalso; lra.
Qed.

Lemma level_settings_get (i : Z) :
  0 <= i <= 5 ->
  exists e, arr_get DifficultySystemCount.LEVEL_SETTINGS i = Some e /\
            DifficultySystemCount.ls_hskLevel e = i + 1.
Proof.
  intro H.
  assert (C : i = 0 \/ i = 1 \/ i = 2 \/ i = 3 \/ i = 4 \/ i = 5) by lia.
  destruct C as [-> | [-> | [-> | [-> | [-> | ->]]]]];
    eexists; split; reflexivity.
Qed.

Lemma newLevel_range (c : Q) :
  (0 <= c)%Q -> 1 <= DifficultySystemCount.newLevel c <= 6.
Proof.
  intro H. unfold DifficultySystemCount.newLevel.
  assert (0 <= Qfloor (c / inject_Z DifficultySystemCount.CORRECT_ANSWERS_PER_LEVEL)).
  { change 0 with (Qfloor 0). apply Qfloor_resp_le.
    unfold Qdiv. apply Qmult_le_0_compat; [exact H|].
    vm_compute. discriminate. }
  lia.
Qed.

Lemma newLevel_mono (c1 c2 : Q) :
  (c1 <= c2)%Q ->
  DifficultySystemCount.newLevel c1 <= DifficultySystemCount.newLevel c2.
Proof.
  intro H. unfold DifficultySystemCount.newLevel.
  assert (Qfloor (c1 / inject_Z DifficultySystemCount.CORRECT_ANSWERS_PER_LEVEL)
          <= Qfloor (c2 / inject_Z DifficultySystemCount.CORRECT_ANSWERS_PER_LEVEL)).
  { apply Qfloor_resp_le. unfold Qdiv.
    apply Qmult_le_compat_r; [exact H|]. vm_compute. discriminate. }
  lia.
Qed.

Lemma count_level (c : Q) (d : DifficultyState) :
  (0 <= c)%Q ->
  resolvedLevel (DifficultySystemCount.update c d)
  = Some (DifficultySystemCount.newLevel c).
Proof.
  intro H. unfold DifficultySystemCount.update.
  pose proof (newLevel_range c H) as R.
  destruct (level_settings_get (DifficultySystemCount.newLevel c - 1))
    as (e & Hget & Hlvl); [lia|].
  rewrite Hget. cbn [resolvedLevel currentSettings hskLevel].
  rewrite Hlvl. f_equal. lia.
Qed.



(** The count-gated [update] throws on a negative signal: index -1 of
    [LEVEL_SETTINGS] is [undefined]. *)
Lemma count_update_throws_below_zero :
  DifficultySystemCount.update (-1) DifficultySystemCount.new = None.
Proof. reflexivity. Qed.


End DifficultyFacts.

(** ** Arrays and random indices *)

Lemma floor_times_range (r : Q) (n : Z) :
  (0 <= r)%Q -> (r < 1)%Q -> 0 < n -> 0 <= floor_times r n < n.
Proof.
  intros H0 H1 Hn. unfold floor_times.
  assert (Hn' : (0 < inject_Z n)%Q) by (q2z; lia).
  split.
  - change 0 with (Qfloor 0). apply Qfloor_resp_le.
    apply Qmult_le_0_compat; [exact H0 | apply Qlt_le_weak; exact Hn'].
  - rewrite Zlt_Qlt.
    apply Qle_lt_trans with (y := (r * inject_Z n)%Q); [apply Qfloor_le|].
    setoid_replace (inject_Z n) with (1 * inject_Z n)%Q at 2 by ring.
    apply Qmult_lt_compat_r; assumption.
Qed.

Lemma floor_times_zero (r : Q) : floor_times r 0 = 0.
Proof.
  unfold floor_times.
  assert (E : (r * inject_Z 0 == 0)%Q) by ring.
  rewrite E. reflexivity.
Qed.

Lemma arr_get_nth_error {A : Type} (arr : list A) (i : Z) :
  0 <= i -> arr_get arr i = nth_error arr (Z.to_nat i).
Proof.
  intro H. unfold arr_get.
  destruct (i <? 0) eqn:E; [apply Z.ltb_lt in E; lia | reflexivity].
Qed.

Lemma arr_get_in_range {A : Type} (arr : list A) (i : Z) :
  0 <= i < Z.of_nat (List.length arr) -> exists x, arr_get arr i = Some x /\ In x arr.
Proof.
  intro H. rewrite arr_get_nth_error by lia.
  destruct (nth_error arr (Z.to_nat i)) as [x|] eqn:E.
  - exists x. split; [reflexivity | eapply nth_error_In; exact E].
  - apply nth_error_None in E. lia.
Qed.

Lemma arr_get_In {A : Type} (arr : list A) (i : Z) (x : A) :
  arr_get arr i = Some x -> In x arr.
Proof.
  unfold arr_get. destruct (i <? 0); [discriminate|].
  apply nth_error_In.
Qed.

Lemma arr_set_nth_same {A : Type} (arr : list A) (i : nat) (x : A) :
  (i < List.length arr)%nat -> nth_error (arr_set arr i x) i = Some x.
Proof.
  revert i. induction arr as [|a arr IH]; intros [|i] H; simpl in *;
    try lia; [reflexivity|].
  apply IH. lia.
Qed.

Lemma arr_set_nth_other {A : Type} (arr : list A) (i j : nat) (x : A) :
  i <> j -> nth_error (arr_set arr i x) j = nth_error arr j.
Proof.
  revert i j. induction arr as [|a arr IH]; intros [|i] [|j] H; simpl;
    try reflexivity; try congruence.
  apply IH. congruence.
Qed.

(** Writing [x] over the entry [a] trades one for the other. *)
Lemma arr_set_Permutation {A : Type} (arr : list A) (i : nat) (a x : A) :
  nth_error arr i = Some a ->
  Permutation (x :: arr) (a :: arr_set arr i x).
Proof.
  revert i. induction arr as [|b arr IH]; intros [|i] H; simpl in *;
    try discriminate.
  - injection H as ->. apply perm_swap.
  - apply perm_trans with (l' := b :: x :: arr); [apply perm_swap|].
    apply perm_trans with (l' := b :: a :: arr_set arr i x);
      [apply perm_skip; apply IH; exact H | apply perm_swap].
Qed.

Lemma swap_Permutation {A : Type} (arr : list A) (i : nat) (j : Z) :
  Permutation arr (WordManager.swap arr i j).
Proof.
  unfold WordManager.swap.
  destruct (nth_error arr i) as [ai|] eqn:Ei; [|apply Permutation_refl].
  destruct (arr_get arr j) as [aj|] eqn:Ej; [|apply Permutation_refl].
  unfold arr_get in Ej. destruct (j <? 0); [discriminate|].
  set (jn := Z.to_nat j) in *.
  assert (Hi : (i < List.length arr)%nat)
    by (apply nth_error_Some; congruence).
  assert (Ej' : nth_error (arr_set arr i aj) jn = Some aj).
  { destruct (Nat.eq_dec i jn) as [<-|Hne].
    - apply arr_set_nth_same. exact Hi.
    - rewrite arr_set_nth_other by exact Hne. exact Ej. }
  apply Permutation_cons_inv with (a := aj).
  apply perm_trans with (l' := ai :: arr_set arr i aj).
  - apply arr_set_Permutation. exact Ei.
  - apply arr_set_Permutation. exact Ej'.
Qed.

Section ShuffleFacts.

Variable Math_random : nat -> Q.

Lemma shuffleLoop_Permutation {A : Type} (i : nat) :
  forall (arr : list A) (k : nat),
    Permutation arr (fst (WordManager.shuffleLoop Math_random i arr k)).
Proof.
  induction i as [|i IH]; intros arr k; simpl.
  - apply Permutation_refl.
  - eapply perm_trans; [apply swap_Permutation | apply IH].
Qed.

Lemma shuffle_Permutation {A : Type} (arr : list A) (k : nat) :
  Permutation arr (fst (WordManager.shuffle Math_random arr k)).
Proof. apply shuffleLoop_Permutation. Qed.

End ShuffleFacts.

(** ** The word selector *)

Section WordManagerFacts.

Variable Math_random : nat -> Q.
Variable getWordsForLevel : Z -> Language -> list Word.

(** [Math.random()] returns a number from 0 inclusive to 1 exclusive. *)
Hypothesis Math_random_range :
  forall k, (0 <= Math_random k)%Q /\ (Math_random k < 1)%Q.

Local Abbreviation generateQuestion :=
  (WordManager.generateQuestion Math_random getWordsForLevel).
Local Abbreviation candidateWords :=
  (WordManager.candidateWords getWordsForLevel).
Local Abbreviation pickCorrect := (WordManager.pickCorrect Math_random).
Local Abbreviation getDistractors := (WordManager.getDistractors Math_random).

(** A random index into a non-empty array hits an entry. *)
Lemma random_entry {A : Type} (arr : list A) (k : nat) :
  arr <> [] ->
  exists x,
    arr_get arr (floor_times (Math_random k) (Z.of_nat (List.length arr))) = Some x
    /\ In x arr.
Proof.
  intro Hne. apply arr_get_in_range.
  destruct (Math_random_range k) as [H0 H1].
  apply floor_times_range; try assumption.
  destruct arr; [congruence | simpl; lia].
Qed.

Lemma includes_In (l : list string) (s : string) :
  WordManager.includes l s = true <-> In s l.
Proof.
  unfold WordManager.includes. rewrite existsb_exists. split.
  - intros (x & Hin & Heq). apply String.eqb_eq in Heq. subst. exact Hin.
  - intro Hin. exists s. split; [exact Hin | apply String.eqb_refl].
Qed.

(** The correct word is a word of the pool, and a word not recently used
    whenever the pool has one. *)
Lemma pickCorrect_spec (words : list Word) (recent : list string) (k : nat) :
  words <> [] ->
  exists w k',
    pickCorrect words recent k = (Some w, k') /\ In w words /\
    ((exists a, In a words /\ ~ In (target a) recent) -> ~ In (target w) recent).
Proof.
  intro Hne. unfold WordManager.pickCorrect.
  set (avail := filter (fun w => negb (WordManager.includes recent (target w))) words).
  destruct avail as [|a0 avail'] eqn:Ea.
  - simpl List.length. rewrite floor_times_zero. cbn [arr_get Z.ltb Z.compare].
    simpl nth_error.
    destruct (random_entry words (S k) Hne) as (x & Hget & Hin).
    rewrite Hget. exists x, (S (S k)). split; [reflexivity|]. split; [exact Hin|].
    intros (a & Ha & Hna). exfalso.
    assert (Hf : In a avail).
    { apply filter_In. split; [exact Ha|].
      apply negb_true_iff. destruct (WordManager.includes recent (target a)) eqn:E;
        [apply includes_In in E; contradiction | reflexivity]. }
    rewrite Ea in Hf. exact Hf.
  - destruct (random_entry (a0 :: avail') k ltac:(discriminate)) as (x & Hget & Hin).
    rewrite Hget. exists x, (S k). split; [reflexivity|].
    rewrite <- Ea in Hin. apply filter_In in Hin. destruct Hin as [Hw Hn].
    split; [exact Hw|]. intros _ Hr. apply includes_In in Hr.
    rewrite Hr in Hn. discriminate.
Qed.

Lemma pickCorrect_empty (recent : list string) (k : nat) :
  fst (pickCorrect [] recent k) = None.
Proof.
  unfold WordManager.pickCorrect. simpl. rewrite !floor_times_zero. reflexivity.
Qed.

(** An empty pool makes [generateQuestion] throw. *)
Lemma generateQuestion_empty_pool (level : Z) (wm : WordManager.t) :
  candidateWords level wm = [] -> fst (generateQuestion level wm) = None.
Proof.
  intro E. unfold WordManager.generateQuestion. rewrite E.
  pose proof (pickCorrect_empty (WordManager.recentWords wm)
                (WordManager.randomCalls wm)) as H.
  destruct (pickCorrect [] _ _) as [picked k]. cbn [fst] in H. subst picked.
  reflexivity.
Qed.

(** *** The distractors *)

Lemma has_target (ds : list Word) (w : Word) :
  existsb (fun d => String.eqb (target d) (target w)) ds = true
  <-> In (target w) (map target ds).
Proof.
  rewrite existsb_exists, in_map_iff. split.
  - intros (d & Hin & Heq). apply String.eqb_eq in Heq. exists d. tauto.
  - intros (d & Heq & Hin). exists d. split; [exact Hin|].
    apply String.eqb_eq. exact Heq.
Qed.

Lemma fill_cons (ds : list Word) (w : Word) (ws : list Word) :
  WordManager.fill ds (w :: ws) =
  if (2 <=? List.length ds)%nat then ds
  else if existsb (fun d => String.eqb (target d) (target w)) ds
       then WordManager.fill ds ws
       else WordManager.fill (ds ++ [w]) ws.
Proof. reflexivity. Qed.

Lemma fill_length (ws : list Word) :
  forall ds, (List.length ds <= 2)%nat ->
             (List.length (WordManager.fill ds ws) <= 2)%nat.
Proof.
  induction ws as [|w ws IH]; intros ds H; [exact H|].
  rewrite fill_cons.
  destruct (2 <=? List.length ds)%nat eqn:E; [exact H|].
  apply Nat.leb_gt in E.
  destruct (existsb _ ds); apply IH; [exact H|].
  rewrite length_app. simpl. lia.
Qed.

(** A pass only appends. *)
Lemma fill_extends (ws : list Word) :
  forall ds, exists ext, WordManager.fill ds ws = ds ++ ext.
Proof.
  induction ws as [|w ws IH]; intros ds.
  - exists []. symmetry. apply app_nil_r.
  - rewrite fill_cons. destruct (2 <=? List.length ds)%nat.
    + exists []. symmetry. apply app_nil_r.
    + destruct (existsb _ ds); [apply IH|].
      destruct (IH (ds ++ [w])) as (ext & Hext).
      exists (w :: ext). rewrite Hext, <- app_assoc. reflexivity.
Qed.

(** A pass that ends with fewer than two distractors has seen no target
    other than theirs. *)
Lemma fill_covers (ws : list Word) :
  forall ds,
    (List.length (WordManager.fill ds ws) < 2)%nat ->
    forall w, In w ws -> In (target w) (map target (WordManager.fill ds ws)).
Proof.
  induction ws as [|w0 ws IH]; intros ds Hlen w Hin; [contradiction|].
  rewrite fill_cons in *. simpl in Hin.
  destruct (2 <=? List.length ds)%nat eqn:E.
  { apply Nat.leb_le in E. lia. }
  destruct (existsb (fun d => String.eqb (target d) (target w0)) ds) eqn:Ex.
  - destruct Hin as [<- | Hin]; [|apply IH; assumption].
    apply has_target in Ex.
    destruct (fill_extends ws ds) as (ext & ->).
    rewrite map_app. apply in_or_app. left. exact Ex.
  - destruct Hin as [<- | Hin]; [|apply IH; assumption].
    destruct (fill_extends ws (ds ++ [w0])) as (ext & ->).
    rewrite !map_app. apply in_or_app. left. apply in_or_app. right.
    simpl. left. reflexivity.
Qed.

(** A pass keeps the targets of the distractors distinct, and keeps any
    property [R] that the words it reads have. *)
Lemma fill_invariant (R : Word -> Prop) (ws : list Word) :
  forall ds,
    NoDup (map target ds) -> Forall R ds -> Forall R ws ->
    NoDup (map target (WordManager.fill ds ws)) /\
    Forall R (WordManager.fill ds ws).
Proof.
  induction ws as [|w ws IH]; intros ds Hnd Hds Hws; [simpl; tauto|].
  inversion Hws as [|w' ws' Hw Hws']; subst.
  rewrite fill_cons.
  destruct (2 <=? List.length ds)%nat; [tauto|].
  destruct (existsb (fun d => String.eqb (target d) (target w)) ds) eqn:Ex.
  - apply IH; assumption.
  - apply IH; [| |assumption].
    + rewrite map_app. simpl.
      apply (Permutation_NoDup (Permutation_cons_append _ _)).
      constructor; [|exact Hnd].
      intro Hin. apply has_target in Hin. congruence.
    + apply Forall_app. split; [exact Hds | constructor; [exact Hw | constructor]].
Qed.

Lemma getDistractors_spec (cw : Word) (lvl : Z) (pool : list Word) (k : nat) :
  distractorsOf cw pool (fst (getDistractors cw lvl pool k)).
Proof.
  unfold WordManager.getDistractors.
  set (same := filter _ pool).
  set (others := filter (fun w => negb (String.eqb (target w) (target cw))) pool).
  pose proof (shuffle_Permutation Math_random same k) as Psame.
  destruct (WordManager.shuffle Math_random same k) as [shuffledCategory k1].
  pose proof (shuffle_Permutation Math_random others k1) as Pothers.
  destruct (WordManager.shuffle Math_random others k1) as [shuffledPool k2].
  cbn [fst] in *.
  set (R := fun d : Word => target d <> target cw /\ In d pool).
  assert (Rsame : Forall R shuffledCategory).
  { apply Forall_forall. intros w Hw.
    apply (Permutation_in _ (Permutation_sym Psame)) in Hw.
    apply filter_In in Hw. destruct Hw as [Hin Hb].
    apply andb_true_iff in Hb. destruct Hb as [_ Hb].
    apply negb_true_iff in Hb. apply String.eqb_neq in Hb. split; assumption. }
  assert (Rothers : Forall R shuffledPool).
  { apply Forall_forall. intros w Hw.
    apply (Permutation_in _ (Permutation_sym Pothers)) in Hw.
    apply filter_In in Hw. destruct Hw as [Hin Hb].
    apply negb_true_iff in Hb. apply String.eqb_neq in Hb. split; assumption. }
  destruct (fill_invariant R shuffledCategory [] (NoDup_nil _)
              (Forall_nil _) Rsame) as [N1 F1].
  assert (L1 : (List.length (WordManager.fill [] shuffledCategory) <= 2)%nat)
    by (apply fill_length; simpl; lia).
  destruct (fill_invariant R shuffledPool _ N1 F1 Rothers) as [N2 F2].
  pose proof (fill_length shuffledPool _ L1) as L2.
  split; [exact N2|]. split; [exact F2|]. split; [exact L2|].
  intros (a & b & Ha & Hb & Hac & Hbc & Hab).
  set (ds := WordManager.fill (WordManager.fill [] shuffledCategory) shuffledPool) in *.
  destruct (Nat.lt_ge_cases (List.length ds) 2) as [Hlt | Hge]; [|lia].
  exfalso.
  assert (In_others : forall w, In w pool -> target w <> target cw ->
                                In w shuffledPool).
  { intros w Hw Hne. apply (Permutation_in _ Pothers).
    apply filter_In. split; [exact Hw|].
    apply negb_true_iff. apply String.eqb_neq. exact Hne. }
  pose proof (fill_covers shuffledPool _ Hlt a (In_others a Ha Hac)) as Ta.
  pose proof (fill_covers shuffledPool _ Hlt b (In_others b Hb Hbc)) as Tb.
  fold ds in Ta, Tb.
  destruct ds as [|d0 [|d1 ds']]; simpl in *; try lia; try contradiction.
  destruct Ta as [Ta|[]]. destruct Tb as [Tb|[]]. congruence.
Qed.

(** *** The lanes *)

(** The options for two distractors and a correct lane index inside the
    lanes. *)
Lemma buildOptions_two (idx : Z) (cw d1 d2 : Word) :
  0 <= idx < 3 ->
  let opts :=
    WordManager.buildOptions [left; center; right] 0 idx cw [d1; d2] 0 in
  let lane := arr_get [left; center; right] idx in
  (lane = Some left /\
   opts = [(left, Some cw); (center, Some d1); (right, Some d2)]) \/
  (lane = Some center /\
   opts = [(left, Some d1); (center, Some cw); (right, Some d2)]) \/
  (lane = Some right /\
   opts = [(left, Some d1); (center, Some d2); (right, Some cw)]).
Proof.
  intro H.
  assert (C : idx = 0 \/ idx = 1 \/ idx = 2) by lia.
  destruct C as [-> | [-> | ->]]; cbn; auto.
Qed.

(** The options always cover the three lanes, in order. *)
Lemma buildOptions_lanes (lanes : list Lane) :
  forall (i idx : Z) (cw : Word) (ds : list Word) (di : nat),
    map fst (WordManager.buildOptions lanes i idx cw ds di) = lanes.
Proof.
  induction lanes as [|l lanes IH]; intros; simpl; [reflexivity|].
  destruct (i =? idx); simpl; f_equal; apply IH.
Qed.

(** *** One question *)

(** [generateQuestion] on a pool that is not empty. *)
Lemma generateQuestion_spec (level : Z) (wm : WordManager.t) :
  candidateWords level wm <> [] ->
  exists cw ds idx mode k,
    generateQuestion level wm =
      (Some (WordManager.mkQuestion cw
               (WordManager.buildOptions [left; center; right] 0 idx cw ds 0)
               (arr_get [left; center; right] idx) mode),
       WordManager.mk
         (WordManager.pushRecent (WordManager.recentWords wm) (target cw))
         (WordManager.customWords wm) (WordManager.language wm) k) /\
    0 <= idx < 3 /\
    In cw (candidateWords level wm) /\
    ((exists a, In a (candidateWords level wm) /\
                ~ In (target a) (WordManager.recentWords wm)) ->
     ~ In (target cw) (WordManager.recentWords wm)) /\
    distractorsOf cw (candidateWords level wm) ds.
Proof.
  intro Hne. unfold WordManager.generateQuestion.
  destruct (pickCorrect_spec (candidateWords level wm)
              (WordManager.recentWords wm) (WordManager.randomCalls wm) Hne)
    as (cw & k1 & Hpick & Hin & Hrecent).
  rewrite Hpick.
  pose proof (getDistractors_spec cw level (candidateWords level wm) k1) as Hd.
  destruct (getDistractors cw level (candidateWords level wm) k1) as [ds k2].
  cbn [fst] in Hd.
  eexists cw, ds, _, _, _. split; [reflexivity|].
  split; [|tauto].
  destruct (Math_random_range k2). apply floor_times_range; try assumption. lia.
Qed.

Lemma two_other_targets (pool : list Word) (cw : Word) :
  threeTargets pool ->
  exists a b, In a pool /\ In b pool /\
              target a <> target cw /\ target b <> target cw /\
              target a <> target b.
Proof.
  intros (a & b & c & Ha & Hb & Hc & Hab & Hac & Hbc).
  destruct (string_dec (target a) (target cw)) as [Ea|Na].
  - exists b, c. repeat split; try assumption; congruence.
  - destruct (string_dec (target b) (target cw)) as [Eb|Nb].
    + exists a, c. repeat split; try assumption; congruence.
    + exists a, b. repeat split; assumption.
Qed.

Lemma differs_by_target (d cw : Word) :
  target d <> target cw -> Some d <> Some cw.
Proof. intros H E. injection E as ->. apply H. reflexivity. Qed.

(** C1. When the candidate pool has three words with pairwise distinct
    targets, [generateQuestion] returns a question with three options on
    the lanes left, center and right, one lane each; one option holds the
    correct word and no other does; the two others hold words whose
    targets differ from the target of the correct word and from each
    other; and [correctLane] is the lane of the option that holds the
    correct word, and of no other option. *)
Theorem generateQuestion_wellformed (level : Z) (wm : WordManager.t) :
  threeTargets (candidateWords level wm) ->
  exists q wm',
    generateQuestion level wm = (Some q, wm') /\
    List.length (WordManager.options q) = 3%nat /\
    map fst (WordManager.options q) = [left; center; right] /\
    exists lane d1 d2,
      WordManager.correctLane q = Some lane /\
      In (lane, Some (WordManager.correctWord q)) (WordManager.options q) /\
      (forall l, In (l, Some (WordManager.correctWord q)) (WordManager.options q)
                 -> l = lane) /\
      count_occ optWord_eq_dec (map snd (WordManager.options q))
                (Some (WordManager.correctWord q)) = 1%nat /\
      Permutation (map snd (WordManager.options q))
                  [Some (WordManager.correctWord q); Some d1; Some d2] /\
      target d1 <> target (WordManager.correctWord q) /\
      target d2 <> target (WordManager.correctWord q) /\
      target d1 <> target d2.
Proof.
  intro H3.
  assert (Hne : candidateWords level wm <> []).
  { destruct H3 as (a & _ & _ & Ha & _). intro E. rewrite E in Ha. exact Ha. }
  destruct (generateQuestion_spec level wm Hne)
    as (cw & ds & idx & mode & k & Hgen & Hidx & _ & _ & Hd).
  destruct Hd as (Hnd & Hfa & _ & Htwo).
  specialize (Htwo (two_other_targets _ cw H3)).
  destruct ds as [|d1 [|d2 [|d3 ds]]]; try discriminate Htwo.
  inversion Hfa as [|? ? [Hd1 _] Hfa']; subst.
  inversion Hfa' as [|? ? [Hd2 _] _]; subst.
  assert (Hd12 : target d1 <> target d2).
  { simpl in Hnd. inversion Hnd as [|? ? Hnin _]; subst.
    intro E. apply Hnin. left. symmetry. exact E. }
  pose proof (differs_by_target d1 cw Hd1) as S1.
  pose proof (differs_by_target d2 cw Hd2) as S2.
  eexists _, _. split; [exact Hgen|].
  cbn [WordManager.options WordManager.correctLane WordManager.correctWord].
  destruct (buildOptions_two idx cw d1 d2 Hidx) as [[El Eo] | [[El Eo] | [El Eo]]];
    cbv zeta in El, Eo; rewrite El, Eo;
    (split; [reflexivity|]); (split; [reflexivity|]).
  - exists left, d1, d2. split; [reflexivity|].
    split; [simpl; auto|]. split.
    { intros l [E | [E | [E | []]]]; congruence. }
    split.
    { cbn [map snd].
      repeat first [ rewrite count_occ_cons_eq by reflexivity
                   | rewrite count_occ_cons_neq by assumption ].
      reflexivity. }
    split; [apply Permutation_refl | auto].
  - exists center, d1, d2. split; [reflexivity|].
    split; [simpl; auto|]. split.
    { intros l [E | [E | [E | []]]]; congruence. }
    split.
    { cbn [map snd].
      repeat first [ rewrite count_occ_cons_eq by reflexivity
                   | rewrite count_occ_cons_neq by assumption ].
      reflexivity. }
    split; [apply perm_swap | auto].
  - exists right, d1, d2. split; [reflexivity|].
    split; [simpl; auto|]. split.
    { intros l [E | [E | [E | []]]]; congruence. }
    split.
    { cbn [map snd].
      repeat first [ rewrite count_occ_cons_eq by reflexivity
                   | rewrite count_occ_cons_neq by assumption ].
      reflexivity. }
    split; [|auto].
    apply perm_trans with (l' := [Some d1; Some cw; Some d2]);
      [apply perm_skip; apply perm_swap | apply perm_swap].
Qed.

(** *** Pools with fewer than three targets *)

(** On a pool that is not empty and has no three words with distinct
    targets, [generateQuestion] returns a question with three options, at
    least one of which holds [undefined] for its word. *)
Lemma generateQuestion_few_targets (level : Z) (wm : WordManager.t) :
  candidateWords level wm <> [] ->
  ~ threeTargets (candidateWords level wm) ->
  exists q wm',
    generateQuestion level wm = (Some q, wm') /\
    List.length (WordManager.options q) = 3%nat /\
    exists lane, In (lane, None) (WordManager.options q).
Proof.
  intros Hne Hno.
  destruct (generateQuestion_spec level wm Hne)
    as (cw & ds & idx & mode & k & Hgen & Hidx & Hcw & _ & Hd).
  destruct Hd as (Hnd & Hfa & Hlen & _).
  eexists _, _. split; [exact Hgen|].
  cbn [WordManager.options].
  assert (C : idx = 0 \/ idx = 1 \/ idx = 2) by lia.
  destruct ds as [|d1 [|d2 ds]].
  - destruct C as [-> | [-> | ->]]; cbn; split; try reflexivity;
      [exists center | exists left | exists left]; auto.
  - destruct C as [-> | [-> | ->]]; cbn; split; try reflexivity;
      [exists right | exists right | exists center]; auto.
  - exfalso. apply Hno.
    inversion Hfa as [|? ? [Hd1 Hp1] Hfa']; subst.
    inversion Hfa' as [|? ? [Hd2 Hp2] _]; subst.
    simpl in Hnd. inversion Hnd as [|? ? Hnin _]; subst.
    exists cw, d1, d2. repeat split; try assumption; try congruence.
    intro E. apply Hnin. left. symmetry. exact E.
Qed.

(** *** The recency buffer *)

Lemma pushRecent_length (recent : list string) (x : string) :
  (List.length recent <= 20)%nat ->
  (List.length (WordManager.pushRecent recent x) <= 20)%nat.
Proof.
  intro H. unfold WordManager.pushRecent, WordManager.maxRecentWords.
  destruct (20 <? List.length (recent ++ [x]))%nat eqn:E.
  - destruct recent as [|a r]; simpl in *; [lia|].
    rewrite length_app. simpl. lia.
  - apply Nat.ltb_ge in E. exact E.
Qed.

(** The buffer after a push is the old buffer followed by the new entry,
    without the oldest entry if that makes more than 20. *)
Lemma pushRecent_fifo (recent : list string) (x : string) :
  (List.length recent <= 20)%nat ->
  WordManager.pushRecent recent x
  = skipn (List.length (recent ++ [x]) - 20) (recent ++ [x]).
Proof.
  intro H. unfold WordManager.pushRecent, WordManager.maxRecentWords.
  rewrite length_app. simpl List.length.
  destruct (20 <? List.length recent + 1)%nat eqn:E.
  - apply Nat.ltb_lt in E.
    replace (List.length recent + 1 - 20)%nat with 1%nat by lia.
    destruct recent; reflexivity.
  - apply Nat.ltb_ge in E.
    replace (List.length recent + 1 - 20)%nat with 0%nat by lia.
    reflexivity.
Qed.

Lemma within_In (t : string) (recent : list string) (p : nat) :
  within t recent p -> In t recent.
Proof.
  intros (pre & post & -> & _). apply in_or_app. right. left. reflexivity.
Qed.

Lemma pushRecent_within_new (recent : list string) (x : string) :
  (List.length recent <= 20)%nat ->
  within x (WordManager.pushRecent recent x) 0.
Proof.
  intro H. unfold WordManager.pushRecent, WordManager.maxRecentWords.
  destruct (20 <? List.length (recent ++ [x]))%nat eqn:E.
  - destruct recent as [|a r]; simpl in *; [discriminate|].
    exists r, []. split; reflexivity.
  - exists recent, []. split; reflexivity.
Qed.

(** An entry with fewer than 19 entries after it stays in the buffer at
    the next push. *)
Lemma pushRecent_within_old (recent : list string) (t x : string) (p : nat) :
  within t recent p -> (p < 19)%nat ->
  within t (WordManager.pushRecent recent x) (S p).
Proof.
  intros (pre & post & -> & Hp) Hlt.
  unfold WordManager.pushRecent, WordManager.maxRecentWords.
  assert (Epush : (pre ++ t :: post) ++ [x] = pre ++ t :: (post ++ [x]))
    by (rewrite <- app_assoc; reflexivity).
  rewrite Epush.
  destruct (20 <? List.length (pre ++ t :: post ++ [x]))%nat eqn:E.
  - destruct pre as [|a pre'].
    + apply Nat.ltb_lt in E. simpl in E. rewrite length_app in E.
      simpl in E. lia.
    + exists pre', (post ++ [x]). split; [reflexivity|].
      rewrite length_app. simpl. lia.
  - exists pre, (post ++ [x]). split; [reflexivity|].
    rewrite length_app. simpl. lia.
Qed.

(** A buffer of at most 20 entries leaves a word of such a pool out. *)
Lemma fresh_word (pool : list Word) (recent : list string) :
  richPool pool -> (List.length recent <= 20)%nat ->
  exists a, In a pool /\ ~ In (target a) recent.
Proof.
  intros (l & Hincl & Hnd & Hlen) Hr.
  destruct (filter (fun w => negb (WordManager.includes recent (target w))) l)
    as [|a rest] eqn:Ef.
  - exfalso.
    assert (Hsub : incl (map target l) recent).
    { intros t Ht. apply in_map_iff in Ht. destruct Ht as (w & <- & Hw).
      destruct (WordManager.includes recent (target w)) eqn:E.
      - apply includes_In. exact E.
      - exfalso.
        assert (Hin : In w (filter (fun w => negb (WordManager.includes recent (target w))) l)).
        { apply filter_In. split; [exact Hw | rewrite E; reflexivity]. }
        rewrite Ef in Hin. exact Hin. }
    pose proof (NoDup_incl_length Hnd Hsub) as Hle.
    rewrite length_map in Hle. lia.
  - assert (Hin : In a (filter (fun w => negb (WordManager.includes recent (target w))) l))
      by (rewrite Ef; left; reflexivity).
    apply filter_In in Hin. destruct Hin as [Hl Hb].
    exists a. split; [apply Hincl; exact Hl|].
    intro Hr'. apply includes_In in Hr'. rewrite Hr' in Hb. discriminate.
Qed.

Local Abbreviation generateQuestions :=
  (WordManager.generateQuestions Math_random getWordsForLevel).

Lemma candidateWords_same (level : Z) (wm wm' : WordManager.t) :
  WordManager.customWords wm' = WordManager.customWords wm ->
  WordManager.language wm' = WordManager.language wm ->
  candidateWords level wm' = candidateWords level wm.
Proof.
  intros Hc Hl. unfold WordManager.candidateWords, WordManager.getAvailableWords.
  rewrite Hc, Hl. reflexivity.
Qed.

(** One question over a rich pool: the call returns, its correct word was
    not in the buffer, and the buffer and the pool it leaves. *)
Lemma generateQuestion_step (level : Z) (wm : WordManager.t) :
  (List.length (WordManager.recentWords wm) <= 20)%nat ->
  richPool (candidateWords level wm) ->
  exists q wm1,
    generateQuestion level wm = (Some q, wm1) /\
    ~ In (target (WordManager.correctWord q)) (WordManager.recentWords wm) /\
    WordManager.recentWords wm1
    = WordManager.pushRecent (WordManager.recentWords wm)
                             (target (WordManager.correctWord q)) /\
    candidateWords level wm1 = candidateWords level wm.
Proof.
  intros Hlen Hrich.
  pose proof (fresh_word _ _ Hrich Hlen) as Hfresh.
  assert (Hne : candidateWords level wm <> []).
  { destruct Hfresh as (a & Ha & _). intro E. rewrite E in Ha. exact Ha. }
  destruct (generateQuestion_spec level wm Hne)
    as (cw & ds & idx & mode & k & Hgen & _ & _ & Hrecent & _).
  eexists _, _. split; [exact Hgen|].
  cbn [WordManager.correctWord WordManager.recentWords].
  split; [exact (Hrecent Hfresh)|]. split; [reflexivity|].
  apply candidateWords_same; reflexivity.
Qed.

Lemma generateQuestions_succ (n : nat) (level : Z) (wm : WordManager.t) :
  generateQuestions (S n) level wm =
  (fst (generateQuestion level wm)
     :: fst (generateQuestions n level (snd (generateQuestion level wm))),
   snd (generateQuestions n level (snd (generateQuestion level wm)))).
Proof.
  cbn [WordManager.generateQuestions].
  destruct (generateQuestion level wm) as [q wm1]. cbn [fst snd].
  destruct (generateQuestions n level wm1) as [qs wm2]. reflexivity.
Qed.

(** A target that sits in the buffer with [p] entries after it is not
    selected by the next [20 - p] questions. *)
Lemma not_selected_again (level : Z) (t : string) (n : nat) :
  forall (wm : WordManager.t) (p j : nat) (qj : WordManager.WordQuestion),
    (List.length (WordManager.recentWords wm) <= 20)%nat ->
    richPool (candidateWords level wm) ->
    within t (WordManager.recentWords wm) p ->
    nth_error (fst (generateQuestions n level wm)) j = Some (Some qj) ->
    (p + j <= 19)%nat ->
    target (WordManager.correctWord qj) <> t.
Proof.
  induction n as [|n IH]; intros wm p j qj Hlen Hrich Hin Hj Hp.
  - destruct j; discriminate Hj.
  - rewrite generateQuestions_succ in Hj. cbn [fst] in Hj.
    destruct (generateQuestion_step level wm Hlen Hrich)
      as (q & wm1 & Hgen & Hfresh & Hrec & Hpool).
    rewrite Hgen in Hj. cbn [fst snd] in Hj.
    destruct j as [|j]; simpl in Hj.
    + injection Hj as <-. intro E. apply Hfresh. rewrite E.
      eapply within_In. exact Hin.
    + apply (IH wm1 (S p) j qj).
      * rewrite Hrec. apply pushRecent_length. exact Hlen.
      * rewrite Hpool. exact Hrich.
      * rewrite Hrec. apply pushRecent_within_old; [exact Hin | lia].
      * exact Hj.
      * lia.
Qed.


End WordManagerFacts.

(** *** Concrete runs of the word selector *)

Module WordExampleFacts.
Import WordExamples.

Lemma randomZero_range (k : nat) : (0 <= randomZero k)%Q /\ (randomZero k < 1)%Q.
Proof. split; vm_compute; [discriminate | reflexivity]. Qed.

Lemma randomHalf_range (k : nat) : (0 <= randomHalf k)%Q /\ (randomHalf k < 1)%Q.
Proof. split; vm_compute; [discriminate | reflexivity]. Qed.

Lemma deck3_threeTargets :
  threeTargets (WordManager.candidateWords noWords 1 (manager deck3)).
Proof.
  exists (word "yi"), (word "er"), (word "san"). cbn.
  repeat split; auto; discriminate.
Qed.

Lemma deck21_rich :
  richPool (WordManager.candidateWords noWords 1 (manager deck21)).
Proof.
  exists deck21. split; [apply incl_refl|]. split; [|cbn; lia].
  cbn. repeat constructor; cbn; intuition discriminate.
Qed.

End WordExampleFacts.

(** A question over a deck of three words, with [Math.random()] at 1/2. *)
Lemma generateQuestion_wellformed_witness :
  threeTargets (WordManager.candidateWords WordExamples.noWords 1
                  (WordExamples.manager WordExamples.deck3)) /\
  exists q wm',
    WordManager.generateQuestion WordExamples.randomHalf WordExamples.noWords 1
      (WordExamples.manager WordExamples.deck3) = (Some q, wm') /\
    List.length (WordManager.options q) = 3%nat /\
    map fst (WordManager.options q) = [left; center; right].
Proof.
  split; [exact WordExampleFacts.deck3_threeTargets|].
  destruct (generateQuestion_wellformed WordExamples.randomHalf WordExamples.noWords
              WordExampleFacts.randomHalf_range 1
              (WordExamples.manager WordExamples.deck3)
              WordExampleFacts.deck3_threeTargets)
    as (q & wm' & Hgen & Hlen & Hlanes & _).
  exists q, wm'. split; [exact Hgen|]. split; assumption.
Defined.


(** C9, on the code. With a deck of one word, [generateQuestion] returns a
    question whose options on center and right hold [undefined] for their
    word: there are three options, not fewer, and two of them hold no
    word. *)
Theorem generateQuestion_single_word :
  let w := WordExamples.word "yi" in
  fst (WordManager.generateQuestion WordExamples.randomZero WordExamples.noWords 1
         (WordExamples.manager [w]))
  = Some (WordManager.mkQuestion w
            [(left, Some w); (center, None); (right, None)]
            (Some left) english_to_target).
Proof. vm_compute. reflexivity. Qed.

(** ** The gate loop *)

Module GameFacts.
Import Game.
Import GameInv.

Lemma GatesOk_Permutation (gs gs' : list Gate) (s : t) :
  Permutation gs gs' -> GatesOk gs s -> GatesOk gs' s.
Proof.
  intros P (H1 & H2 & H3 & H4 & H5).
  split; [exact H1|]. split.
  - eapply Permutation_NoDup; [apply Permutation_map; exact P | exact H2].
  - split; [|tauto].
    intros g Hg. apply H3. eapply Permutation_in; [apply Permutation_sym; exact P | exact Hg].
Qed.

(** What [processGateCollision] leaves of the fields the bookkeeping
    reads. *)
Lemma processGateCollision_fields (gate : Gate) (now : Q) (s : t) :
  let s' := processGateCollision gate now s in
  resolved s' = gid gate :: resolved s /\
  retired s' = retired s /\
  spawned s' = spawned s /\
  gameSpeed s' = gameSpeed s /\
  isPaused s' = isPaused s /\
  difficultySystem s' = difficultySystem s /\
  wordManager s' = wordManager s /\
  lastGateSpawnTime s' = lastGateSpawnTime s.
Proof.
  unfold processGateCollision.
  destruct (ScoreSystem.calculateScore _ _ _ _) as [result sc].
  destruct (onCorrectLane _ _).
  - destruct (_ && _); cbn; repeat split.
  - cbn; repeat split.
Qed.

(** The bookkeeping only reads [resolved], [retired] and [spawned]. *)
Lemma GatesOk_ext (gs : list Gate) (s s' : t) :
  resolved s' = resolved s -> retired s' = retired s ->
  spawned s' = spawned s -> GatesOk gs s -> GatesOk gs s'.
Proof.
  unfold GatesOk. intros -> -> ->. tauto.
Qed.

(** A gate that keeps its identity and its mark may replace itself. *)
Lemma GatesOk_same (g g' : Gate) (rest : list Gate) (s : t) :
  gid g' = gid g -> processed g' = processed g ->
  GatesOk (g :: rest) s -> GatesOk (g' :: rest) s.
Proof.
  intros Hid Hp (H1 & H2 & H3 & H4 & H5).
  split; [exact H1|]. split; [simpl in *; rewrite Hid; exact H2|].
  split; [|tauto].
  intros h [<- | Hh].
  - rewrite Hid, Hp. apply H3. left. reflexivity.
  - apply H3. right. exact Hh.
Qed.

(** The collision of a gate not yet marked: it is listed and marked. *)
Lemma GatesOk_collide (g g' : Gate) (rest : list Gate) (s s' : t) :
  gid g' = gid g -> processed g = false -> processed g' = true ->
  resolved s' = gid g :: resolved s -> retired s' = retired s ->
  spawned s' = spawned s ->
  GatesOk (g :: rest) s -> GatesOk (g' :: rest) s'.
Proof.
  intros Hid Hp Hp' Hres Hret Hsp (H1 & H2 & H3 & H4 & H5).
  destruct (H3 g (or_introl eq_refl)) as [Hlt Hiff].
  assert (Hnew : ~ In (gid g) (resolved s)).
  { intro Hin. apply Hiff in Hin. congruence. }
  unfold GatesOk. rewrite Hres, Hret, Hsp.
  split; [constructor; assumption|].
  split; [simpl in *; rewrite Hid; exact H2|].
  split; [|split].
  - intros h [<- | Hh].
    + rewrite Hid, Hp'. split; [exact Hlt|]. split; intro; [left|]; reflexivity.
    + destruct (H3 h (or_intror Hh)) as [Hlt' Hiff'].
      split; [exact Hlt'|]. rewrite Hiff'. split; [right; assumption|].
      intros [E | Hin]; [|exact Hin].
      exfalso. simpl in H2. inversion H2 as [|? ? Hnin _]; subst.
      apply Hnin. rewrite E. apply in_map. exact Hh.
  - intros id [<- | Hin]; [exact Hlt | apply H4; exact Hin].
  - intros id Hin. right. apply H5. exact Hin.
Qed.

(** The removal of a gate that is listed. *)
Lemma GatesOk_retire (g : Gate) (rest : list Gate) (s s' : t) :
  In (gid g) (resolved s) ->
  resolved s' = resolved s -> retired s' = gid g :: retired s ->
  spawned s' = spawned s ->
  GatesOk (g :: rest) s -> GatesOk rest s'.
Proof.
  intros Hin Hres Hret Hsp (H1 & H2 & H3 & H4 & H5).
  unfold GatesOk. rewrite Hres, Hret, Hsp.
  split; [exact H1|].
  split; [simpl in H2; inversion H2; assumption|].
  split; [intros h Hh; apply H3; right; exact Hh|].
  split; [exact H4|].
  intros id [<- | Hid]; [exact Hin | apply H5; exact Hid].
Qed.

Section LoopFacts.

Variable progressAt : Q -> Q -> Gate -> Q.
Variables collisionAt retireAt : Q.

Local Abbreviation stepGate := (Game.stepGate progressAt collisionAt retireAt).
Local Abbreviation updateGates :=
  (Game.updateGates progressAt collisionAt retireAt).

(** What one turn of the loop does with its gate, whatever the state. *)
Lemma stepGate_result (now : Q) (g : Gate) (remaining : nat) (s : t) :
  let p := progressAt now (gameSpeed s) g in
  let r := stepGate now g remaining s in
  gameSpeed (snd r) = gameSpeed s /\
  spawned (snd r) = spawned s /\
  (Qgeb p retireAt = true ->
   fst r = None /\ retired (snd r) = gid g :: retired s) /\
  (Qgeb p retireAt = false ->
   retired (snd r) = retired s /\
   exists g', fst r = Some g' /\ gid g' = gid g /\ progress g' = p /\
              spawnTime g' = spawnTime g /\ question g' = question g).
Proof.
  cbv zeta. unfold Game.stepGate.
  set (p := progressAt now (gameSpeed s) g).
  cbn [processed].
  pose proof (processGateCollision_fields
                (mkGate (gid g) p (question g) (processed g) (spawnTime g))
                now s) as F.
  cbv zeta in F. destruct F as (_ & Fret & Fsp & Fspeed & _).
  destruct (Qgeb p collisionAt && negb (processed g));
    destruct (Qgeb p retireAt); cbn [fst snd];
    destruct (0 <? remaining)%nat; cbn;
    repeat split; try congruence; try discriminate;
    eexists; repeat split; reflexivity.
Qed.

Hypothesis collision_before_retire :
  forall p, Qgeb p retireAt = true -> Qgeb p collisionAt = true.

(** One turn of the loop keeps the bookkeeping. *)
Lemma stepGate_ok (now : Q) (g : Gate) (rest : list Gate) (remaining : nat)
    (s : t) :
  GatesOk (g :: rest) s ->
  match stepGate now g remaining s with
  | (None, s') => GatesOk rest s'
  | (Some g', s') =>
      GatesOk (g' :: rest) s' /\
      (Qgeb (progress g') collisionAt = true -> processed g' = true)
  end.
Proof.
  intro Hok. unfold Game.stepGate.
  set (p := progressAt now (gameSpeed s) g).
  cbn [processed].
  set (g1 := mkGate (gid g) p (question g) (processed g) (spawnTime g)).
  pose proof (processGateCollision_fields g1 now s) as F.
  cbv zeta in F. destruct F as (Fres & Fret & Fsp & _).
  destruct (Qgeb p collisionAt) eqn:Ec; cbn [andb];
    [destruct (processed g) eqn:Ep; cbn [negb]|].
  - (* at the threshold, already resolved *)
    assert (Hin : In (gid g) (resolved s)).
    { destruct Hok as (_ & _ & H3 & _).
      apply (H3 g (or_introl eq_refl)). exact Ep. }
    destruct (Qgeb p retireAt).
    + eapply GatesOk_retire with (g := g) (s := s); try exact Hok;
        try exact Hin; destruct (0 <? remaining)%nat; reflexivity.
    + split; [|intros _; reflexivity].
      apply GatesOk_same with (g := g);
        [reflexivity | cbn; congruence | exact Hok].
  - (* at the threshold, not yet resolved: the collision *)
    set (g2 := mkGate (gid g) p (question g) true (spawnTime g)).
    assert (Hok2 : GatesOk (g2 :: rest) (processGateCollision g1 now s)).
    { apply GatesOk_collide with (g := g) (s := s);
        try assumption; reflexivity. }
    destruct (Qgeb p retireAt).
    + eapply GatesOk_retire with (g := g2); try exact Hok2;
        try (destruct (0 <? remaining)%nat; reflexivity).
      rewrite Fres. left. reflexivity.
    + split; [exact Hok2 | intros _; reflexivity].
  - (* below the threshold *)
    destruct (Qgeb p retireAt) eqn:Er.
    + apply collision_before_retire in Er. congruence.
    + split; [|cbn; intro H; congruence].
      apply GatesOk_same with (g := g);
        [reflexivity | reflexivity | exact Hok].
Qed.

(** The loop over the gates keeps the bookkeeping, and leaves every gate
    it has turned to settled. *)
Lemma updateGates_ok (now : Q) (before : list Gate) :
  forall (after : list Gate) (s : t),
    GatesOk (before ++ after) s -> Settled collisionAt after ->
    GatesOk (fst (updateGates now before after s))
            (snd (updateGates now before after s)) /\
    Settled collisionAt (fst (updateGates now before after s)).
Proof.
  induction before as [|g before IH]; intros after s Hok Hset.
  - cbn. split; assumption.
  - cbn [Game.updateGates].
    pose proof (stepGate_ok now g (before ++ after)
                  (List.length before + List.length after) s Hok) as Hstep.
    destruct (stepGate now g (List.length before + List.length after) s)
      as [[g'|] s1].
    + destruct Hstep as [Hok1 Hg'].
      apply IH.
      * eapply GatesOk_Permutation; [|exact Hok1].
        apply Permutation_middle.
      * intros h [<- | Hh]; [exact Hg' | apply Hset; exact Hh].
    + apply IH; assumption.
Qed.

(** The gates the loop keeps are those whose new progress is below
    [retireAt], in array order; the others are listed in [retired]. *)
Lemma updateGates_survivors (now : Q) (before : list Gate) :
  forall (after : list Gate) (s : t),
    let keeps := fun g =>
      negb (Qgeb (progressAt now (gameSpeed s) g) retireAt) in
    let r := updateGates now before after s in
    map gid (fst r) = map gid (rev (filter keeps before)) ++ map gid after /\
    retired (snd r)
    = rev (map gid (filter (fun g => negb (keeps g)) before)) ++ retired s /\
    gameSpeed (snd r) = gameSpeed s /\
    spawned (snd r) = spawned s.
Proof.
  induction before as [|g before IH]; intros after s; cbv zeta.
  - cbn. repeat split.
  - cbn [Game.updateGates filter].
    pose proof (stepGate_result now g
                  (List.length before + List.length after) s) as R.
    cbv zeta in R. destruct R as (Rspeed & Rsp & Rret & Rkeep).
    destruct (Qgeb (progressAt now (gameSpeed s) g) retireAt) eqn:E;
      cbn [negb].
    + destruct (Rret eq_refl) as [Efst Eret].
      destruct (stepGate now g (List.length before + List.length after) s)
        as [og s1]. cbn [fst snd] in *. subst og.
      specialize (IH after s1). cbv zeta in IH.
      rewrite Rspeed in IH. destruct IH as (I1 & I2 & I3 & I4).
      split; [exact I1|]. split; [|split; congruence].
      rewrite I2, Eret. cbn [map rev]. rewrite <- app_assoc. reflexivity.
    + destruct (Rkeep eq_refl) as (Eret & g' & Efst & Hid & _).
      destruct (stepGate now g (List.length before + List.length after) s)
        as [og s1]. cbn [fst snd] in *. subst og.
      specialize (IH (g' :: after) s1). cbv zeta in IH.
      rewrite Rspeed in IH. destruct IH as (I1 & I2 & I3 & I4).
      split; [|split; [|split; congruence]].
      * rewrite I1. cbn [map rev]. rewrite map_app, <- app_assoc.
        cbn [map app]. rewrite Hid. reflexivity.
      * rewrite I2, Eret. reflexivity.
Qed.

End LoopFacts.

Lemma Once_new (collisionAt : Q) (wm : WordManager.t) (d : DifficultyState) :
  Once collisionAt (Game.new wm d).
Proof.
  unfold Once, GatesOk, Settled. cbn.
  repeat split; try constructor; contradiction.
Qed.

(** The invariant only reads the gates and the three logs. *)
Lemma Once_ext (collisionAt : Q) (s s' : t) :
  gates s' = gates s -> resolved s' = resolved s ->
  retired s' = retired s -> spawned s' = spawned s ->
  Once collisionAt s -> Once collisionAt s'.
Proof.
  unfold Once. intros Hg Hres Hret Hsp [H1 H2]. rewrite Hg.
  split; [|exact H2]. eapply GatesOk_ext; eassumption.
Qed.

Section FrameFacts.

Variable Math_random : nat -> Q.
Variable getWordsForLevel : Z -> Language -> list Word.
Variable difficultyUpdate : Q -> DifficultyState -> UpdateResult.
Variable progressAt : Q -> Q -> Gate -> Q.
Variables collisionAt retireAt spacingTime : Q.

Hypothesis collision_before_retire :
  forall p, Qgeb p retireAt = true -> Qgeb p collisionAt = true.

(** A gate collides after it is spawned, not at its spawn. *)
Hypothesis collision_positive : Qgeb 0 collisionAt = false.

Local Abbreviation spawnGate := (Game.spawnGate Math_random getWordsForLevel).
Local Abbreviation frame :=
  (Game.frame Math_random getWordsForLevel difficultyUpdate progressAt
              collisionAt retireAt spacingTime).

Lemma spawnGate_ok (now : Q) (s : t) :
  Once collisionAt s -> Once collisionAt (spawnGate now s).
Proof.
  intros [Hok Hset]. unfold Game.spawnGate.
  destruct (WordManager.generateQuestion _ _ _ _) as [[q|] wm].
  - destruct Hok as (H1 & H2 & H3 & H4 & H5).
    unfold Once, GatesOk, Settled. cbn [gates resolved retired spawned].
    split; [split; [exact H1 | split; [|split; [|split]]]|].
    + rewrite map_app. cbn [map gid].
      apply (Permutation_NoDup (Permutation_cons_append _ _)).
      constructor; [|exact H2].
      intro Hin. apply in_map_iff in Hin. destruct Hin as (g & Hid & Hg).
      destruct (H3 g Hg) as [Hlt _]. lia.
    + intros g Hg. apply in_app_or in Hg. destruct Hg as [Hg | [<- | []]].
      * destruct (H3 g Hg) as [Hlt Hiff]. split; [lia | exact Hiff].
      * cbn [gid processed]. split; [lia|]. split; [discriminate|].
        intro Hin. apply H4 in Hin. lia.
    + intros id Hin. apply H4 in Hin. lia.
    + exact H5.
    + intros g Hg. apply in_app_or in Hg. destruct Hg as [Hg | [<- | []]].
      * apply Hset. exact Hg.
      * cbn [progress]. intro E. congruence.
  - eapply Once_ext with (s := s); try reflexivity. split; assumption.
Qed.

Lemma frame_ok (now : Q) (arrived : bool) (s : t) :
  Once collisionAt s -> Once collisionAt (frame now arrived s).
Proof.
  intros Hs. unfold Game.frame.
  destruct (difficultyUpdate _ _) as [[[settings d] note]|]; [|exact Hs].
  set (s0 := set_difficulty d (speedMultiplier settings) s).
  set (s1 := if arrived then set_isMoving false s0 else s0).
  assert (H1 : Once collisionAt s1).
  { apply Once_ext with (s := s); try (unfold s1, s0; destruct arrived; reflexivity).
    exact Hs. }
  destruct H1 as [Hok1 _].
  assert (Hloop : GatesOk (rev (gates s1) ++ []) s1).
  { rewrite app_nil_r. eapply GatesOk_Permutation; [|exact Hok1].
    apply Permutation_rev. }
  pose proof (updateGates_ok progressAt collisionAt retireAt
                collision_before_retire now (rev (gates s1)) [] s1 Hloop
                ltac:(intros g [])) as [Hok2 Hset2].
  destruct (Game.updateGates progressAt collisionAt retireAt now
              (rev (gates s1)) [] s1) as [gs s2].
  cbn [fst snd] in Hok2, Hset2.
  assert (H3 : Once collisionAt (set_gates gs s2)).
  { split; cbn [gates set_gates]; [|exact Hset2].
    eapply GatesOk_ext with (s := s2); try reflexivity. exact Hok2. }
  destruct (_ || _); [apply spawnGate_ok|]; exact H3.
Qed.

End FrameFacts.

End GameFacts.

(** ** The two scenes *)

Lemma Once_ResolvedOnce (collisionAt : Q) (s : Game.t) :
  GameInv.Once collisionAt s -> ResolvedOnce collisionAt s.
Proof.
  intros [(H1 & H2 & H3 & H4 & H5) Hset].
  assert (Hle : forall id, (resolutions s id <= 1)%nat).
  { apply (proj1 (NoDup_count_occ Nat.eq_dec _)). exact H1. }
  assert (Hin : forall id, In id (Game.resolved s) -> resolutions s id = 1%nat).
  { intros id Hid. pose proof (Hle id).
    apply (count_occ_In Nat.eq_dec) in Hid. unfold resolutions in *. lia. }
  split; [exact Hle|]. split; [|split].
  - intros g Hg Hp. pose proof (Hset g Hg Hp) as Hm.
    split; [exact Hm|]. apply Hin. apply (H3 g Hg). exact Hm.
  - intros g Hg Hp. apply count_occ_not_In. intro Hr.
    apply (H3 g Hg) in Hr. congruence.
  - intros id Hid. apply Hin. apply H5. exact Hid.
Qed.

Section SceneFacts.

Variable Math_random : nat -> Q.
Variable getWordsForLevel : Z -> Language -> list Word.
Variable difficultyUpdate : Q -> DifficultyState -> UpdateResult.

Lemma GameScene_thresholds :
  (forall p, Qgeb p GameScene.retireAt = true ->
             Qgeb p GameScene.collisionAt = true) /\
  Qgeb 0 GameScene.collisionAt = false.
Proof.
  split; [|reflexivity].
  intros p H. apply Qgeb_le in H. apply Qgeb_le.
  unfold GameScene.retireAt, GameScene.collisionAt in *. lra.
Qed.

Lemma Game3D_thresholds :
  (forall p, Qgeb p Game3D.retireAt = true ->
             Qgeb p Game3D.collisionAt = true) /\
  Qgeb 0 Game3D.collisionAt = false.
Proof.
  split; [|reflexivity].
  intros p H. apply Qgeb_le in H. apply Qgeb_le.
  unfold Game3D.retireAt, Game3D.collisionAt in *. lra.
Qed.

Lemma GameScene_step_ok (e : GameScene.Event) (s : Game.t) :
  GameInv.Once GameScene.collisionAt s ->
  GameInv.Once GameScene.collisionAt
    (GameScene.step Math_random getWordsForLevel difficultyUpdate e s).
Proof.
  intro Hs. destruct GameScene_thresholds as [Hcr Hc0].
  destruct e as [time | lane |]; cbn [GameScene.step].
  - unfold GameScene.update. destruct (Game.isGameOver s); [exact Hs|].
    apply GameFacts.frame_ok with (retireAt := GameScene.retireAt); assumption.
  - unfold GameScene.moveToLane. destruct (Game.isMoving s); [exact Hs|].
    eapply GameFacts.Once_ext with (s := s); try reflexivity. exact Hs.
  - eapply GameFacts.Once_ext with (s := s); try reflexivity. exact Hs.
Qed.

Lemma Game3D_step_ok (e : Game3D.Event) (s : Game.t) :
  GameInv.Once Game3D.collisionAt s ->
  GameInv.Once Game3D.collisionAt
    (Game3D.step Math_random getWordsForLevel difficultyUpdate e s).
Proof.
  intro Hs. destruct Game3D_thresholds as [Hcr Hc0].
  destruct e as [now arrived | | lane]; cbn [Game3D.step].
  - unfold Game3D.animate. destruct (Game.isGameOver s); [exact Hs|].
    destruct (Game.isPaused s); [exact Hs|].
    apply GameFacts.frame_ok with (retireAt := Game3D.retireAt); assumption.
  - eapply GameFacts.Once_ext with (s := s); try reflexivity. exact Hs.
  - destruct (_ || _); [exact Hs|].
    unfold Game3D.moveToLane. destruct (_ || _); [exact Hs|].
    eapply GameFacts.Once_ext with (s := s); try reflexivity. exact Hs.
Qed.

Lemma GameScene_run_ok (es : list GameScene.Event) :
  forall s, GameInv.Once GameScene.collisionAt s ->
            GameInv.Once GameScene.collisionAt
              (GameScene.run Math_random getWordsForLevel difficultyUpdate es s).
Proof.
  induction es as [|e es IH]; intros s Hs; [exact Hs|].
  cbn. apply IH. apply GameScene_step_ok. exact Hs.
Qed.

Lemma Game3D_run_ok (es : list Game3D.Event) :
  forall s, GameInv.Once Game3D.collisionAt s ->
            GameInv.Once Game3D.collisionAt
              (Game3D.run Math_random getWordsForLevel difficultyUpdate es s).
Proof.
  induction es as [|e es IH]; intros s Hs; [exact Hs|].
  cbn. apply IH. apply Game3D_step_ok. exact Hs.
Qed.


End SceneFacts.

(** ** Retirement *)

Section RetirementFacts.

Variable Math_random : nat -> Q.
Variable getWordsForLevel : Z -> Language -> list Word.
Variable difficultyUpdate : Q -> DifficultyState -> UpdateResult.

Lemma spawnGate_keeps (now : Q) (s : Game.t) :
  let s' := Game.spawnGate Math_random getWordsForLevel now s in
  Game.retired s' = Game.retired s /\
  (Game.gates s' = Game.gates s \/
   exists gate, Game.gates s' = Game.gates s ++ [gate] /\
                Game.gid gate = Game.spawned s).
Proof.
  cbv zeta. unfold Game.spawnGate.
  destruct (WordManager.generateQuestion _ _ _ _) as [[q|] wm]; cbn.
  - split; [reflexivity|]. right. eexists. split; reflexivity.
  - split; [reflexivity|]. left. reflexivity.
Qed.

(** The progress of [GameScene] is clamped: it never exceeds 1, so it
    never reaches the progress 1.1 from which a gate is removed. *)
Lemma GameScene_progress_clamped (time speed : Q) (gate : Game.Gate) :
  (GameScene.progressAt time speed gate <= 1)%Q /\
  Qgeb (GameScene.progressAt time speed gate) GameScene.retireAt = false.
Proof.
  assert (H : (GameScene.progressAt time speed gate <= 1)%Q)
    by (unfold GameScene.progressAt; apply Qmin_le_l).
  split; [exact H|]. apply Qgeb_lt. unfold GameScene.retireAt. lra.
Qed.

Lemma filter_all {A : Type} (f : A -> bool) (l : list A) :
  (forall x, f x = true) -> filter f l = l.
Proof.
  intro H. induction l as [|a l IH]; simpl; [reflexivity|].
  rewrite H, IH. reflexivity.
Qed.

Lemma filter_none {A : Type} (f : A -> bool) (l : list A) :
  (forall x, f x = false) -> filter f l = [].
Proof.
  intro H. induction l as [|a l IH]; simpl; [reflexivity|].
  rewrite H. exact IH.
Qed.

Lemma GameScene_update_keeps (time : Q) (s : Game.t) :
  let s' := GameScene.update Math_random getWordsForLevel difficultyUpdate
              time s in
  Game.retired s' = Game.retired s /\
  incl (map Game.gid (Game.gates s)) (map Game.gid (Game.gates s')).
Proof.
  cbv zeta. unfold GameScene.update.
  destruct (Game.isGameOver s); [split; [reflexivity | apply incl_refl]|].
  unfold Game.frame.
  destruct (difficultyUpdate _ _) as [[[settings d] note]|];
    [|split; [reflexivity | apply incl_refl]].
  cbn [negb]. set (s1 := Game.set_difficulty d (speedMultiplier settings) s).
  pose proof (GameFacts.updateGates_survivors GameScene.progressAt
                GameScene.collisionAt GameScene.retireAt time
                (rev (Game.gates s1)) [] s1) as S.
  cbv zeta in S. destruct S as (Sgates & Sret & _).
  rewrite filter_all in Sgates
    by (intro g; rewrite (proj2 (GameScene_progress_clamped _ _ g)); reflexivity).
  rewrite filter_none in Sret
    by (intro g; rewrite (proj2 (GameScene_progress_clamped _ _ g)); reflexivity).
  rewrite rev_involutive, app_nil_r in Sgates. cbn in Sret.
  destruct (Game.updateGates _ _ _ _ _ _ s1) as [gs s2]. cbn [fst snd] in *.
  set (s3 := Game.set_gates gs s2).
  assert (H3 : Game.retired s3 = Game.retired s /\
               map Game.gid (Game.gates s3) = map Game.gid (Game.gates s)).
  { split; [exact Sret | exact Sgates]. }
  destruct H3 as [R3 G3].
  destruct (_ || _).
  - pose proof (spawnGate_keeps time s3) as K. cbv zeta in K.
    destruct K as [Kret Kgates]. split; [congruence|].
    rewrite <- G3.
    destruct Kgates as [-> | (gate & -> & _)]; [apply incl_refl|].
    rewrite map_app. apply incl_appl. apply incl_refl.
  - split; [exact R3 | rewrite G3; apply incl_refl].
Qed.

Lemma GameScene_run_keeps (es : list GameScene.Event) :
  forall s,
    let s' := GameScene.run Math_random getWordsForLevel difficultyUpdate es s in
    Game.retired s' = Game.retired s /\
    incl (map Game.gid (Game.gates s)) (map Game.gid (Game.gates s')).
Proof.
  induction es as [|e es IH]; intros s; cbv zeta.
  - split; [reflexivity | apply incl_refl].
  - cbn [GameScene.run fold_left].
    specialize (IH (GameScene.step Math_random getWordsForLevel
                      difficultyUpdate e s)).
    cbv zeta in IH. destruct IH as [IHr IHg].
    assert (Hstep :
      Game.retired (GameScene.step Math_random getWordsForLevel
                      difficultyUpdate e s) = Game.retired s /\
      incl (map Game.gid (Game.gates s))
           (map Game.gid (Game.gates (GameScene.step Math_random
                                        getWordsForLevel difficultyUpdate e s)))).
    { destruct e as [time | lane |]; cbn [GameScene.step].
      - apply GameScene_update_keeps.
      - unfold GameScene.moveToLane. destruct (Game.isMoving s);
          (split; [reflexivity | apply incl_refl]).
      - split; [reflexivity | apply incl_refl]. }
    destruct Hstep as [Hr Hg].
    split; [unfold GameScene.run in IHr; congruence|].
    eapply incl_tran; [exact Hg | exact IHg].
Qed.

(** C2, on the code of [GameScene]. The progress of a gate is clamped to
    1, below the removal threshold 1.1; so whatever frames and inputs
    follow, no gate is ever removed: the list of removals stays empty from
    the start of the game, and every gate of the scene is still one of its
    gates later. *)
Theorem GameScene_never_retires :
  (forall (time speed : Q) (gate : Game.Gate),
      (GameScene.progressAt time speed gate <= 1)%Q) /\
  (forall (es : list GameScene.Event) (now : Q),
      Game.retired (GameScene.run Math_random getWordsForLevel difficultyUpdate
                      es (GameScene.create Math_random getWordsForLevel now))
      = []) /\
  (forall (es : list GameScene.Event) (s : Game.t),
      incl (map Game.gid (Game.gates s))
           (map Game.gid
              (Game.gates (GameScene.run Math_random getWordsForLevel
                             difficultyUpdate es s)))).
Proof.
  split; [intros; apply GameScene_progress_clamped|]. split.
  - intros es now.
    rewrite (proj1 (GameScene_run_keeps es _)).
    unfold GameScene.create, GameScene.spawnGate.
    rewrite (proj1 (spawnGate_keeps now _)). reflexivity.
  - intros es s. apply (proj2 (GameScene_run_keeps es s)).
Qed.

Lemma same_gid (gs : list Game.Gate) (g g' : Game.Gate) :
  NoDup (map Game.gid gs) -> In g gs -> In g' gs ->
  Game.gid g = Game.gid g' -> g = g'.
Proof.
  induction gs as [|a gs IH]; intros Hnd Hg Hg' Hid; [contradiction|].
  simpl in Hnd. inversion Hnd as [|? ? Hnin Hnd']; subst.
  destruct Hg as [<- | Hg]; destruct Hg' as [<- | Hg'].
  - reflexivity.
  - exfalso. apply Hnin. rewrite Hid. apply in_map. exact Hg'.
  - exfalso. apply Hnin. rewrite <- Hid. apply in_map. exact Hg.
  - apply IH; assumption.
Qed.

(** The progress of [Game3D] is not clamped: from the time
    [spawnTime + 1.15 * (GATE_TRAVEL_TIME / speed)] on it has reached the
    removal threshold. *)
Lemma Game3D_progress_reaches (now speed : Q) (gate : Game.Gate) :
  (0 < speed)%Q ->
  (Game.spawnTime gate
   + Game3D.retireAt * (Game3D.GATE_TRAVEL_TIME / speed) <= now)%Q ->
  Qgeb (Game3D.progressAt now speed gate) Game3D.retireAt = true.
Proof.
  intros Hs Hnow. apply Qgeb_le. unfold Game3D.progressAt.
  assert (HT : (0 < Game3D.GATE_TRAVEL_TIME / speed)%Q).
  { apply Qlt_shift_div_l; [exact Hs|]. unfold Game3D.GATE_TRAVEL_TIME. lra. }
  apply Qle_shift_div_l; [exact HT|].
  set (T := (Game3D.GATE_TRAVEL_TIME / speed)%Q) in *. lra.
Qed.

(** In [Game3D], a frame of the running game that comes late enough
    removes the gate: the sibling of [GameScene.update] does retire its
    gates. *)
Lemma Game3D_retires (now : Q) (arrived : bool) (s : Game.t)
    (settings : DifficultySettings) (d : DifficultyState) (note : option Z)
    (g : Game.Gate) :
  Game.isGameOver s = false -> Game.isPaused s = false ->
  difficultyUpdate
    (inject_Z (ScoreSystem.getCorrectAnswers (Game.scoreSystem s)))
    (Game.difficultySystem s) = Some (settings, d, note) ->
  (0 < speedMultiplier settings)%Q ->
  GameInv.GatesOk (Game.gates s) s ->
  In g (Game.gates s) ->
  (Game.spawnTime g
   + Game3D.retireAt * (Game3D.GATE_TRAVEL_TIME / speedMultiplier settings)
   <= now)%Q ->
  let s' := Game3D.animate Math_random getWordsForLevel difficultyUpdate
              now arrived s in
  ~ In (Game.gid g) (map Game.gid (Game.gates s')) /\
  In (Game.gid g) (Game.retired s').
Proof.
  intros Hover Hpaused Hupd Hspeed Hok Hg Hnow. cbv zeta.
  unfold Game3D.animate. rewrite Hover, Hpaused.
  unfold Game.frame. rewrite Hupd.
  set (s0 := Game.set_difficulty d (speedMultiplier settings) s).
  set (s1 := if arrived then Game.set_isMoving false s0 else s0).
  assert (E1 : Game.gates s1 = Game.gates s /\
               Game.gameSpeed s1 = speedMultiplier settings /\
               Game.spawned s1 = Game.spawned s /\
               Game.retired s1 = Game.retired s)
    by (unfold s1, s0; destruct arrived; repeat split).
  destruct E1 as (Eg & Espeed & Esp & Eret).
  pose proof (GameFacts.updateGates_survivors Game3D.progressAt
                Game3D.collisionAt Game3D.retireAt now
                (rev (Game.gates s1)) [] s1) as S.
  cbv zeta in S. destruct S as (Sgates & Sret & _ & Ssp).
  destruct (Game.updateGates _ _ _ _ _ _ s1) as [gs s2]. cbn [fst snd] in *.
  rewrite Espeed, Eg in Sgates, Sret.
  pose proof (Game3D_progress_reaches now _ g Hspeed Hnow) as Hp.
  destruct Hok as (_ & Hnd & Hbound & _).
  assert (Hgone : ~ In (Game.gid g) (map Game.gid gs)).
  { rewrite Sgates, app_nil_r. intro Hin.
    apply in_map_iff in Hin. destruct Hin as (g2 & Hid & Hin).
    apply in_rev in Hin. apply filter_In in Hin. destruct Hin as [Hin Hkeep].
    apply in_rev in Hin.
    assert (g2 = g) by (apply (same_gid (Game.gates s)); assumption).
    subst g2. rewrite Hp in Hkeep. discriminate. }
  assert (Hlisted : In (Game.gid g) (Game.retired s2)).
  { rewrite Sret. apply in_or_app. left. apply in_rev. rewrite rev_involutive.
    apply in_map. apply filter_In. split; [apply in_rev in Hg; exact Hg|].
    rewrite Hp. reflexivity. }
  set (s3 := Game.set_gates gs s2).
  match goal with |- context [if ?c then _ else _] => destruct c end.
  - pose proof (spawnGate_keeps now s3) as K. cbv zeta in K.
    destruct K as [Kret Kgates]. split; [|rewrite Kret; exact Hlisted].
    destruct Kgates as [-> | (gate & -> & Hid)]; [exact Hgone|].
    rewrite map_app. intro Hin. apply in_app_or in Hin.
    destruct Hin as [Hin | [Hin | []]]; [exact (Hgone Hin)|].
    destruct (Hbound g Hg) as [Hlt _].
    rewrite Hid in Hin. cbn [Game.spawned s3 Game.set_gates] in Hin.
    rewrite Ssp, Esp in Hin. lia.
  - split; [exact Hgone | exact Hlisted].
Qed.

End RetirementFacts.

(** ** Concrete runs of the scenes *)

Module GameExampleFacts.
Import GameExamples.

(** Three frames find the first gate past the collision threshold; it is
    resolved by the first of them only, and the wrong lane costs one
    life. *)
Example resolved_by_first_frame_only :
  let s := run3D [Game3D.AnimationFrame 3950 false;
                  Game3D.AnimationFrame 3990 false;
                  Game3D.AnimationFrame 4100 false] start3D in
  progresses s = [(41 # 40)%Q] /\ Game.resolved s = [0%nat] /\ Game.lives s = 2.
Proof. vm_compute. repeat split. Qed.

(** A late frame of [Game3D] removes the gate and spawns the next. *)
Example game3D_gate_retired :
  let s := run3D [Game3D.AnimationFrame 3950 false;
                  Game3D.AnimationFrame 4700 false] start3D in
  Game.retired s = [0%nat] /\ map Game.gid (Game.gates s) = [1%nat].
Proof. vm_compute. repeat split. Qed.

(** The same gate in [GameScene], a thousand seconds after its spawn:
    its progress is 1 and it is still in the scene. *)
Example gameScene_gate_immortal :
  let s := runScene [GameScene.Update 1000000] startScene in
  Game.retired s = [] /\
  hd_error (progresses s) = Some 1%Q /\
  hd_error (map Game.gid (Game.gates s)) = Some 0%nat.
Proof. vm_compute. repeat split. Qed.

End GameExampleFacts.

(** C8, on the code of [Game3D]. The gate is spawned at time 0. A frame at
    1000 ms gives it the progress 1/4; the game is then paused, and a frame
    at 2000 ms changes nothing. The game is resumed at 3000 ms: the first
    frame, at that time, gives the gate the progress 3/4, not 1/4. The
    2000 ms spent paused count as travel time, because the elapsed time is
    [performance.now() - gate.spawnTime] and neither term is adjusted by
    [togglePause]. *)
Theorem pause_counts_as_travel_time :
  let paused :=
    GameExamples.run3D [Game3D.AnimationFrame 1000 false; Game3D.PauseKey;
                        Game3D.AnimationFrame 2000 false]
                       GameExamples.start3D in
  let resumed :=
    GameExamples.run3D [Game3D.PauseKey; Game3D.AnimationFrame 3000 false]
                       paused in
  Game.isPaused paused = true /\
  GameExamples.progresses paused = [(1 # 4)%Q] /\
  Game.isPaused resumed = false /\
  GameExamples.progresses resumed = [(3 # 4)%Q].
Proof. vm_compute. repeat split. Qed.

(** * More of the scoring engine *)

Module ScoreMore.
Import ScoreSystem.

Lemma last_or_nil {A : Type} (l : list A) :
  l = [] \/ exists l' x, l = l' ++ [x].
Proof.
  induction l as [|x l' _] using rev_ind; [left; reflexivity|].
  right. exists l', x. reflexivity.
Qed.

Lemma hasRun_zero (a : list bool) : hasRun a 0.
Proof. exists a, []. simpl. symmetry. apply app_nil_r. Qed.

Lemma hasRun_snoc (a : list bool) (x : bool) (n : nat) :
  hasRun a n -> hasRun (a ++ [x]) n.
Proof.
  intros (pre & post & ->). exists pre, (post ++ [x]).
  rewrite <- !app_assoc. reflexivity.
Qed.

Lemma endsWithRun_hasRun (a : list bool) (n : nat) :
  endsWithRun a n -> hasRun a n.
Proof.
  intros (pre & -> & _). exists pre, []. rewrite app_nil_r. reflexivity.
Qed.

Lemma endsWithRun_true (a : list bool) (n : nat) :
  endsWithRun a n -> endsWithRun (a ++ [true]) (S n).
Proof.
  intros (pre & -> & Hpre). exists pre. split; [|exact Hpre].
  rewrite <- app_assoc. f_equal. simpl. symmetry. apply repeat_cons.
Qed.

Lemma endsWithRun_false (a : list bool) : endsWithRun (a ++ [false]) 0.
Proof.
  exists (a ++ [false]). split; [simpl; symmetry; apply app_nil_r|].
  right. exists a. reflexivity.
Qed.

(** A run at the end of the answers is no longer than the run they end
    with. *)
Lemma final_run_bound (n : nat) :
  forall (pre p : list bool) (k : nat),
    pre ++ repeat true n = p ++ repeat true k ->
    (pre = [] \/ exists pre', pre = pre' ++ [false]) ->
    (k <= n)%nat.
Proof.
  induction n as [|n IH]; intros pre p k E Hpre.
  - destruct k as [|k]; [lia|]. exfalso.
    simpl in E. rewrite app_nil_r in E. rewrite repeat_cons in E.
    destruct Hpre as [-> | (pre' & ->)].
    + symmetry in E. apply app_eq_nil in E. destruct E as [_ E].
      apply app_eq_nil in E. destruct E; discriminate.
    + rewrite app_assoc in E. apply app_inj_tail in E. destruct E; discriminate.
  - destruct k as [|k]; [lia|].
    cbn [repeat] in E. rewrite !repeat_cons, !app_assoc in E.
    apply app_inj_tail in E. destruct E as [E _].
    apply (IH pre p k E) in Hpre. lia.
Qed.

Lemma hasRun_after_true (a : list bool) (n k : nat) :
  endsWithRun a n -> hasRun (a ++ [true]) k -> (k <= S n)%nat \/ hasRun a k.
Proof.
  intros (pre & -> & Hpre) (p & q & E).
  destruct (last_or_nil q) as [-> | (q' & x & ->)].
  - left. rewrite app_nil_r in E.
    destruct k as [|k]; [lia|].
    cbn [repeat] in E. rewrite repeat_cons, app_assoc in E.
    apply app_inj_tail in E. destruct E as [E _].
    pose proof (final_run_bound n pre p k E Hpre). lia.
  - right. rewrite !app_assoc in E. apply app_inj_tail in E.
    destruct E as [E _]. exists p, q'. rewrite E, <- app_assoc. reflexivity.
Qed.

Lemma hasRun_after_false (a : list bool) (k : nat) :
  hasRun (a ++ [false]) k -> hasRun a k.
Proof.
  intros (p & q & E).
  destruct (last_or_nil q) as [-> | (q' & x & ->)].
  - rewrite app_nil_r in E. destruct k as [|k]; [apply hasRun_zero|].
    exfalso. cbn [repeat] in E. rewrite repeat_cons, app_assoc in E.
    apply app_inj_tail in E. destruct E; discriminate.
  - rewrite !app_assoc in E. apply app_inj_tail in E.
    destruct E as [E _]. exists p, q'. rewrite E, <- app_assoc. reflexivity.
Qed.

Lemma Tracks_new : Tracks [] new.
Proof.
  unfold Tracks, new; cbn. split; [reflexivity|]. split; [reflexivity|]. split.
  - exists 0%nat. split; [reflexivity|]. exists []. split; [reflexivity | left; reflexivity].
  - exists 0%nat. split; [reflexivity|]. split; [apply hasRun_zero|].
    intros k (pre & post & E). symmetry in E.
    apply app_eq_nil in E. destruct E as [_ E].
    apply app_eq_nil in E. destruct E as [E _].
    destruct k; [lia | discriminate E].
Qed.

Lemma Tracks_calculateScore (correct : bool) (ms : Q) (lvl : Z)
    (a : list bool) (s : t) :
  Tracks a s -> Tracks (a ++ [correct]) (snd (calculateScore correct ms lvl s)).
Proof.
  intros (Ht & Hc & (n & Hn & Hend) & (m & Hm & Hrun & Hmax)).
  unfold Tracks, calculateScore.
  destruct correct;
    cbn [negb snd totalAnswers correctAnswers streak maxStreak];
    rewrite length_app, count_occ_app; cbn [List.length count_occ].
  - destruct (Bool.bool_dec true true) as [_|N]; [|congruence].
    split; [lia|]. split; [lia|]. split.
    + exists (S n). split; [lia | apply endsWithRun_true; exact Hend].
    + exists (Nat.max m (S n)). split; [lia|]. split.
      * destruct (Nat.max_spec m (S n)) as [[_ ->] | [_ ->]].
        -- apply endsWithRun_hasRun, endsWithRun_true. exact Hend.
        -- apply hasRun_snoc. exact Hrun.
      * intros k Hk.
        destruct (hasRun_after_true a n k Hend Hk) as [Hle | Hin]; [lia|].
        apply Hmax in Hin. lia.
  - destruct (Bool.bool_dec false true) as [E|_]; [discriminate E|].
    split; [lia|]. split; [lia|]. split.
    + exists 0%nat. split; [reflexivity | apply endsWithRun_false].
    + exists m. split; [exact Hm|]. split; [apply hasRun_snoc; exact Hrun|].
      intros k Hk. apply Hmax. apply hasRun_after_false. exact Hk.
Qed.

Lemma Tracks_run (cs : list Call) :
  forall (a : list bool) (s : t),
    Tracks a s -> Tracks (answersSince cs a) (snd (run cs s)).
Proof.
  induction cs as [|c cs IH]; intros a s H; [exact H|].
  rewrite ScoreFacts.run_cons. cbn [snd answersSince].
  destruct c as [correct ms lvl|]; cbn [call].
  - pose proof (Tracks_calculateScore correct ms lvl a s H) as H1.
    destruct (calculateScore correct ms lvl s) as [r s1]. apply IH. exact H1.
  - apply IH. exact Tracks_new.
Qed.

(** X1. After any sequence of [calculateScore] and [reset] calls on a new
    score system, [totalAnswers] is the number of answers given since the
    last [reset] and [correctAnswers] the number of correct ones among
    them. *)
Theorem counters_count_answers (cs : list Call) :
  let s := snd (run cs new) in
  let answers := answersSince cs [] in
  getTotalAnswers s = Z.of_nat (List.length answers) /\
  getCorrectAnswers s = Z.of_nat (count_occ Bool.bool_dec answers true).
Proof.
  cbv zeta. destruct (Tracks_run cs [] new Tracks_new) as (Ht & Hc & _).
  split; assumption.
Qed.

(** X2. After any sequence of calls on a new score system, the current
    streak is the length of the run of correct answers that the answers
    since the last [reset] end with: they are some answers that are empty
    or end with a wrong one, followed by [streak] correct ones. *)
Theorem streak_is_final_run (cs : list Call) :
  exists n : nat,
    getStreak (snd (run cs new)) = Z.of_nat n /\
    endsWithRun (answersSince cs []) n.
Proof.
  destruct (Tracks_run cs [] new Tracks_new) as (_ & _ & H & _). exact H.
Qed.

(** X3. After any sequence of calls on a new score system, [maxStreak] is
    the length of the longest run of consecutive correct answers since the
    last [reset]: there is a run of that length and none is longer. *)
Theorem maxStreak_is_longest_run (cs : list Call) :
  exists m : nat,
    getMaxStreak (snd (run cs new)) = Z.of_nat m /\
    hasRun (answersSince cs []) m /\
    forall k, hasRun (answersSince cs []) k -> (k <= m)%nat.
Proof.
  destruct (Tracks_run cs [] new Tracks_new) as (_ & _ & _ & H). exact H.
Qed.

Lemma score_is_sum_from (cs : list Call) :
  forall s, score (snd (run cs s)) = pointsSince (fst (run cs s)) (score s).
Proof.
  induction cs as [|c cs IH]; intros s; [reflexivity|].
  rewrite ScoreFacts.run_cons. cbn [fst snd pointsSince].
  destruct c as [correct ms lvl|]; cbn [call].
  - destruct (calculateScore correct ms lvl s) as [r s1] eqn:E.
    cbn [fst snd pointsSince]. rewrite IH. f_equal.
    unfold calculateScore in E. destruct correct; cbn [negb] in E;
      injection E as <- <-; cbn; lia.
  - cbn [fst snd pointsSince]. apply IH.
Qed.

(** X4. After any sequence of calls on a new score system, the score is the
    sum of the [totalPoints] returned by the [calculateScore] calls made
    since the last [reset]. *)
Theorem score_is_sum_of_points (cs : list Call) :
  getScore (snd (run cs new)) = pointsSince (fst (run cs new)) 0.
Proof. apply (score_is_sum_from cs new). Qed.

Lemma percent_range (c t : Z) :
  0 <= c <= t -> 0 < t ->
  0 <= Math_round (inject_Z c / inject_Z t * 100) <= 100.
Proof.
  intros Hc Ht. unfold Math_round.
  assert (Ht' : (0 < inject_Z t)%Q) by (q2z; lia).
  assert (H0 : (0 <= inject_Z c / inject_Z t)%Q).
  { apply Qle_shift_div_l; [exact Ht'|]. q2z. lia. }
  assert (H1 : (inject_Z c / inject_Z t <= 1)%Q).
  { apply Qle_shift_div_r; [exact Ht'|]. q2z. lia. }
  set (x := (inject_Z c / inject_Z t)%Q) in *. clearbody x.
  split.
  - change 0 with (Qfloor 0). apply Qfloor_resp_le. lra.
  - apply Z.le_trans with (m := Qfloor (100 + (1 # 2))%Q);
      [apply Qfloor_resp_le; lra | vm_compute; discriminate].
Qed.

(** X5. After any sequence of calls on a new score system, [getAccuracy] is
    a percentage: it lies between 0 and 100, is 0 when no answer was given
    or none was correct, and is 100 when every answer given was correct. *)
Theorem accuracy_is_percentage (cs : list Call) :
  let s := snd (run cs new) in
  0 <= getAccuracy s <= 100 /\
  (getCorrectAnswers s = 0 -> getAccuracy s = 0) /\
  (0 < getTotalAnswers s -> getCorrectAnswers s = getTotalAnswers s ->
   getAccuracy s = 100).
Proof.
  cbv zeta. destruct (Tracks_run cs [] new Tracks_new) as (Ht & Hc & _).
  set (s := snd (run cs new)) in *.
  assert (Hle : 0 <= correctAnswers s <= totalAnswers s).
  { rewrite Ht, Hc. split; [lia|].
    apply inj_le. apply count_occ_bound. }
  unfold getAccuracy, getCorrectAnswers, getTotalAnswers.
  destruct (totalAnswers s =? 0) eqn:E.
  - split; [lia|]. split; [reflexivity|]. apply Z.eqb_eq in E. lia.
  - apply Z.eqb_neq in E. split; [apply percent_range; lia|]. split.
    + intros ->. unfold Math_round.
      assert (Q0 : (inject_Z 0 / inject_Z (totalAnswers s) * 100 + (1 # 2)
                    == 1 # 2)%Q).
      { unfold Qdiv. setoid_replace (inject_Z 0) with 0%Q by reflexivity. ring. }
      rewrite Q0. reflexivity.
    + intros Hpos ->. unfold Math_round.
      assert (Q1 : (inject_Z (totalAnswers s) / inject_Z (totalAnswers s) * 100
                    + (1 # 2) == 100 + (1 # 2))%Q).
      { assert (Hnz : ~ (inject_Z (totalAnswers s) == 0)%Q) by (q2z; lia).
        field. exact Hnz. }
      rewrite Q1. reflexivity.
Qed.

End ScoreMore.

(** * More of the difficulty controllers *)

Module DifficultyMore.

(** X6. The count-gated [update] throws exactly when its signal is
    negative: [Math.floor(correctAnswers / 50)] is then below 0 and the
    index into [LEVEL_SETTINGS] is outside the table. *)
Theorem count_update_throws_iff_negative (c : Q) (d : DifficultyState) :
  DifficultySystemCount.update c d = None <-> (c < 0)%Q.
Proof.
  split.
  - intro H. destruct (Qlt_le_dec c 0) as [Hlt | Hge]; [exact Hlt|].
    pose proof (DifficultyFacts.count_level c d Hge) as L.
    rewrite H in L. discriminate L.
  - intro Hlt. unfold DifficultySystemCount.update.
    assert (Hf : Qfloor (c / inject_Z DifficultySystemCount.CORRECT_ANSWERS_PER_LEVEL)
                 < 0).
    { rewrite Zlt_Qlt.
      apply Qle_lt_trans with
        (y := (c / inject_Z DifficultySystemCount.CORRECT_ANSWERS_PER_LEVEL)%Q);
        [apply Qfloor_le|].
      apply Qlt_shift_div_r; [reflexivity|].
      setoid_replace (inject_Z 0 * inject_Z DifficultySystemCount.CORRECT_ANSWERS_PER_LEVEL)%Q
        with 0%Q by reflexivity.
      exact Hlt. }
    assert (Hidx : DifficultySystemCount.newLevel c - 1 < 0)
      by (unfold DifficultySystemCount.newLevel; lia).
    unfold arr_get. apply Z.ltb_lt in Hidx. rewrite Hidx. reflexivity.
Qed.

(** X7. On a negative distance, which reaches no threshold, the
    distance-gated [update] returns the settings it had, leaves the state
    as it was and does not call the callback. *)
Theorem distance_update_negative_keeps (dist : Q) (d : DifficultyState) :
  (dist < 0)%Q ->
  DifficultySystem.update dist d = Some (currentSettings d, d, None).
Proof.
  intro Hlt. unfold DifficultySystem.update.
  assert (Hkeep : DifficultySystem.findTier
                    (rev DifficultySystem.DIFFICULTY_THRESHOLDS) dist
                    (currentSettings d) = currentSettings d).
  { cbn [rev DifficultySystem.DIFFICULTY_THRESHOLDS app
         DifficultySystem.findTier DifficultySystem.distance].
    repeat match goal with
           | |- context [Qgeb dist ?c] =>
               let E := fresh "E" in
               destruct (Qgeb dist c) eqn:E;
               [apply Qgeb_le in E; exfalso; lra | clear E]
           end.
    reflexivity. }
  rewrite Hkeep. destruct d as [cur cb]. cbn [currentSettings onLevelChange].
  unfold notify. cbn [currentSettings hskLevel].
  rewrite Z.eqb_refl. reflexivity.
Qed.

Lemma distance_update_negative_keeps_witness :
  (-1 < 0)%Q /\
  DifficultySystem.update (-1) DifficultySystem.atLevel6
  = Some (currentSettings DifficultySystem.atLevel6,
          DifficultySystem.atLevel6, None).
Proof.
  assert (H : (-1 < 0)%Q) by reflexivity.
  split; [exact H|].
  exact (distance_update_negative_keeps (-1) DifficultySystem.atLevel6 H).
Defined.

(** Strictly increasing integers above [a] and up to [b] are at most
    [b - a] many. *)
Lemma increasing_length (l : list Z) :
  forall a b, StronglySorted Z.lt l -> Forall (fun x => a < x <= b) l ->
              a <= b -> Z.of_nat (List.length l) <= b - a.
Proof.
  induction l as [|x l IH]; intros a b Hs Hf Hab; [simpl; lia|].
  inversion Hs as [|? ? Hs' Hx]; subst.
  inversion Hf as [|? ? Hax Hf']; subst.
  assert (Hl : Forall (fun y => x < y <= b) l).
  { rewrite Forall_forall in *. intros y Hy.
    specialize (Hx y Hy). specialize (Hf' y Hy). lia. }
  specialize (IH x b Hs' Hl ltac:(lia)).
  cbn [List.length]. lia.
Qed.

Section Notifications.

Variable update : Q -> DifficultyState -> UpdateResult.

(** The level [update] resolves for a signal that is not negative. *)
Variable levelOf : Q -> Z.

Hypothesis levelOf_mono :
  forall s1 s2, (s1 <= s2)%Q -> levelOf s1 <= levelOf s2 <= 6.

Hypothesis update_spec :
  forall s d, (0 <= s)%Q ->
    exists settings d',
      update s d = Some (settings, d', notify (hskLevel (currentSettings d)) d') /\
      hskLevel (currentSettings d') = levelOf s /\
      onLevelChange d' = onLevelChange d.

Lemma notifications_increase (signals : list Q) :
  forall d,
    StronglySorted Qle signals ->
    Forall (fun s => (0 <= s)%Q) signals ->
    Forall (fun s => hskLevel (currentSettings d) <= levelOf s) signals ->
    StronglySorted Z.lt (notifications update signals d) /\
    Forall (fun l => hskLevel (currentSettings d) < l <= 6)
           (notifications update signals d).
Proof.
  induction signals as [|s rest IH]; intros d Hs H0 Hl.
  - cbn. split; constructor.
  - inversion Hs as [|? ? Hs' Hle]; subst.
    inversion H0 as [|? ? H0s H0']; subst.
    inversion Hl as [|? ? Hls _]; subst.
    destruct (update_spec s d H0s) as (settings & d' & Eu & Elv & Ecb).
    cbn [notifications]. rewrite Eu.
    assert (Hl' : Forall (fun s' => hskLevel (currentSettings d') <= levelOf s') rest).
    { rewrite Forall_forall in *. intros s' Hs'in. rewrite Elv.
      apply levelOf_mono. apply Hle. exact Hs'in. }
    destruct (IH d' Hs' H0' Hl') as [IHs IHf].
    assert (H6 : levelOf s <= 6) by (apply (levelOf_mono s s); apply Qle_refl).
    unfold notify.
    destruct (negb (hskLevel (currentSettings d') =? hskLevel (currentSettings d))
              && onLevelChange d') eqn:En.
    + apply andb_true_iff in En. destruct En as [En _].
      apply negb_true_iff in En. apply Z.eqb_neq in En.
      split.
      * constructor; [exact IHs|].
        rewrite Forall_forall in *. intros l Hin. apply IHf in Hin. lia.
      * constructor; [lia|].
        rewrite Forall_forall in *. intros l Hin. apply IHf in Hin. lia.
    + split; [exact IHs|].
      rewrite Forall_forall in *. intros l Hin. apply IHf in Hin. lia.
Qed.

End Notifications.

Lemma distance_update_spec (s : Q) (d : DifficultyState) :
  (0 <= s)%Q ->
  exists settings d',
    DifficultySystem.update s d
    = Some (settings, d', notify (hskLevel (currentSettings d)) d') /\
    hskLevel (currentSettings d') = DifficultySystem.tierOf s /\
    onLevelChange d' = onLevelChange d.
Proof.
  intro H. pose proof (DifficultyFacts.distance_level s d H) as L.
  unfold DifficultySystem.update in *. cbn [resolvedLevel] in L.
  injection L as L. eexists _, _. split; [reflexivity|].
  split; [exact L | reflexivity].
Qed.

Lemma count_update_spec (s : Q) (d : DifficultyState) :
  (0 <= s)%Q ->
  exists settings d',
    DifficultySystemCount.update s d
    = Some (settings, d', notify (hskLevel (currentSettings d)) d') /\
    hskLevel (currentSettings d') = DifficultySystemCount.newLevel s /\
    onLevelChange d' = onLevelChange d.
Proof.
  intro H. pose proof (DifficultyFacts.count_level s d H) as L.
  unfold DifficultySystemCount.update in *.
  destruct (arr_get DifficultySystemCount.LEVEL_SETTINGS
              (DifficultySystemCount.newLevel s - 1)) as [e|]; [|discriminate L].
  cbn [resolvedLevel] in L. injection L as L.
  eexists _, _. split; [reflexivity|]. split; [exact L | reflexivity].
Qed.

Lemma newLevel_mono_range (s1 s2 : Q) :
  (s1 <= s2)%Q ->
  DifficultySystemCount.newLevel s1 <= DifficultySystemCount.newLevel s2 <= 6.
Proof.
  intro H. split; [apply DifficultyFacts.newLevel_mono; exact H|].
  unfold DifficultySystemCount.newLevel. lia.
Qed.

(** X8. While the signal grows (a correct-answer count or a distance, not
    negative), the level-change callback registered on a new controller is
    called with strictly increasing levels between 2 and 6, so at most
    five times, in both versions: never for the level 1 the controller
    starts with, and never twice for one level. *)
Theorem level_up_notifications (signals : list Q) :
  StronglySorted Qle signals ->
  Forall (fun s => (0 <= s)%Q) signals ->
  (let ns := notifications DifficultySystem.update signals
               (DifficultySystem.setLevelChangeCallback DifficultySystem.new) in
   StronglySorted Z.lt ns /\ Forall (fun l => 2 <= l <= 6) ns /\
   (List.length ns <= 5)%nat) /\
  (let ns := notifications DifficultySystemCount.update signals
               (DifficultySystemCount.setLevelChangeCallback
                  DifficultySystemCount.new) in
   StronglySorted Z.lt ns /\ Forall (fun l => 2 <= l <= 6) ns /\
   (List.length ns <= 5)%nat).
Proof.
  intros Hs H0. split; cbv zeta.
  - destruct (notifications_increase DifficultySystem.update
                DifficultySystem.tierOf DifficultyFacts.tierOf_mono
                distance_update_spec signals
                (DifficultySystem.setLevelChangeCallback DifficultySystem.new)
                Hs H0) as [Hsorted Hrange].
    { rewrite Forall_forall. intros s _. cbn.
      unfold DifficultySystem.tierOf.
      repeat match goal with |- context [Qgeb s ?c] => destruct (Qgeb s c) end;
        lia. }
    cbn [DifficultySystem.setLevelChangeCallback DifficultySystem.new
         currentSettings hskLevel] in Hrange.
    split; [exact Hsorted|]. split.
    + rewrite Forall_forall in *. intros l Hl. apply Hrange in Hl. lia.
    + pose proof (increasing_length _ 1 6 Hsorted Hrange ltac:(lia)). lia.
  - destruct (notifications_increase DifficultySystemCount.update
                DifficultySystemCount.newLevel newLevel_mono_range
                count_update_spec signals
                (DifficultySystemCount.setLevelChangeCallback
                   DifficultySystemCount.new)
                Hs H0) as [Hsorted Hrange].
    { rewrite Forall_forall in *. intros s Hin. cbn.
      apply DifficultyFacts.newLevel_range. apply H0. exact Hin. }
    cbn [DifficultySystemCount.setLevelChangeCallback DifficultySystemCount.new
         currentSettings hskLevel] in Hrange.
    split; [exact Hsorted|]. split.
    + rewrite Forall_forall in *. intros l Hl. apply Hrange in Hl. lia.
    + pose proof (increasing_length _ 1 6 Hsorted Hrange ltac:(lia)). lia.
Qed.

(** The signals 0, 49, 50, 120: the count-gated callback is called with 2
    and then with 3. *)
Lemma level_up_notifications_witness :
  let signals := [0; 49; 50; 120]%Q in
  StronglySorted Qle signals /\
  Forall (fun s => (0 <= s)%Q) signals /\
  notifications DifficultySystemCount.update signals
    (DifficultySystemCount.setLevelChangeCallback DifficultySystemCount.new)
  = [2; 3] /\
  (List.length
     (notifications DifficultySystem.update signals
        (DifficultySystem.setLevelChangeCallback DifficultySystem.new))
   <= 5)%nat.
Proof.
  cbv zeta.
  assert (Hs : StronglySorted Qle [0; 49; 50; 120]%Q)
    by (repeat constructor; vm_compute; discriminate).
  assert (H0 : Forall (fun s => (0 <= s)%Q) [0; 49; 50; 120]%Q)
    by (repeat constructor; vm_compute; discriminate).
  split; [exact Hs|]. split; [exact H0|]. split; [reflexivity|].
  exact (proj2 (proj2 (proj1 (level_up_notifications _ Hs H0)))).
Defined.

(** The settings [a] are no harder than the settings [b]: no higher
    level, no higher speed, no shorter decision time; and both are settings
    of the tables, with a speed from 1 to 3/2 and a decision time from 1500
    to 3000 ms. *)
Lemma count_settings_ordered (i j : Z) :
  0 <= i <= j -> j <= 5 ->
  exists a b,
    arr_get DifficultySystemCount.LEVEL_SETTINGS i = Some a /\
    arr_get DifficultySystemCount.LEVEL_SETTINGS j = Some b /\
    (1 <= DifficultySystemCount.speed a)%Q /\
    (DifficultySystemCount.speed a <= DifficultySystemCount.speed b)%Q /\
    (DifficultySystemCount.speed b <= 3 # 2)%Q /\
    1500 <= DifficultySystemCount.ls_decisionTime b
    <= DifficultySystemCount.ls_decisionTime a /\
    DifficultySystemCount.ls_decisionTime a <= 3000.
Proof.
  intros Hi Hj.
  assert (Ci : i = 0 \/ i = 1 \/ i = 2 \/ i = 3 \/ i = 4 \/ i = 5) by lia.
  assert (Cj : j = 0 \/ j = 1 \/ j = 2 \/ j = 3 \/ j = 4 \/ j = 5) by lia.
  destruct Ci as [-> | [-> | [-> | [-> | [-> | ->]]]]];
    destruct Cj as [-> | [-> | [-> | [-> | [-> | ->]]]]];
    try lia;
    (eexists _, _; split; [reflexivity|]; split; [reflexivity|];
     cbn [DifficultySystemCount.speed DifficultySystemCount.ls_decisionTime];
     repeat split; try lia; try (vm_compute; discriminate)).
Qed.

(** X9. In both versions, for signals that are not negative, a larger
    signal never gives an easier game: the speed multiplier of the smaller
    signal is at most that of the larger, and its decision time at least
    as long. The speed multiplier is always between 1 and 3/2 and the
    decision time between 1500 and 3000 ms. *)
Theorem settings_follow_signal (d : DifficultyState) (s1 s2 : Q) :
  (0 <= s1)%Q -> (s1 <= s2)%Q ->
  (exists a b da db na nb,
      DifficultySystem.update s1 d = Some (a, da, na) /\
      DifficultySystem.update s2 d = Some (b, db, nb) /\
      (1 <= speedMultiplier a)%Q /\
      (speedMultiplier a <= speedMultiplier b)%Q /\
      (speedMultiplier b <= 3 # 2)%Q /\
      1500 <= decisionTime b <= decisionTime a /\ decisionTime a <= 3000) /\
  (exists a b da db na nb,
      DifficultySystemCount.update s1 d = Some (a, da, na) /\
      DifficultySystemCount.update s2 d = Some (b, db, nb) /\
      (1 <= speedMultiplier a)%Q /\
      (speedMultiplier a <= speedMultiplier b)%Q /\
      (speedMultiplier b <= 3 # 2)%Q /\
      1500 <= decisionTime b <= decisionTime a /\ decisionTime a <= 3000).
Proof.
  intros H0 H12. assert (H2 : (0 <= s2)%Q) by lra. split.
  - unfold DifficultySystem.update.
    eexists _, _, _, _, _, _. split; [reflexivity|]. split; [reflexivity|].
    cbn [currentSettings rev DifficultySystem.DIFFICULTY_THRESHOLDS app
         DifficultySystem.findTier DifficultySystem.distance
         DifficultySystem.th_hskLevel DifficultySystem.speed
         DifficultySystem.th_decisionTime].
    repeat match goal with
           | |- context [Qgeb ?x ?c] =>
               lazymatch x with
               | s1 => idtac | s2 => idtac
               end;
               destruct (Qgeb x c) eqn:?
           end;
      repeat match goal with
             | E : Qgeb _ _ = true |- _ => apply Qgeb_le in E
             | E : Qgeb _ _ = false |- _ => apply Qgeb_lt in E
             end;
      try (exfalso; lra);
      cbn [speedMultiplier decisionTime];
      repeat split; try lia; try (vm_compute; discriminate).
  - pose proof (DifficultyFacts.newLevel_range s1 H0) as R1.
    pose proof (DifficultyFacts.newLevel_range s2 H2) as R2.
    pose proof (DifficultyFacts.newLevel_mono s1 s2 H12) as M.
    destruct (count_settings_ordered
                (DifficultySystemCount.newLevel s1 - 1)
                (DifficultySystemCount.newLevel s2 - 1) ltac:(lia) ltac:(lia))
      as (a & b & Ea & Eb & Hrest).
    unfold DifficultySystemCount.update. rewrite Ea, Eb.
    eexists _, _, _, _, _, _. split; [reflexivity|]. split; [reflexivity|].
    cbn [currentSettings speedMultiplier decisionTime]. exact Hrest.
Qed.

Lemma settings_follow_signal_witness :
  (0 <= 40)%Q /\ (40 <= 260)%Q /\
  exists a b da db na nb,
    DifficultySystemCount.update 40 DifficultySystemCount.new = Some (a, da, na) /\
    DifficultySystemCount.update 260 DifficultySystemCount.new = Some (b, db, nb) /\
    (speedMultiplier a <= speedMultiplier b)%Q.
Proof.
  assert (A : (0 <= 40)%Q) by (vm_compute; discriminate).
  assert (B : (40 <= 260)%Q) by (vm_compute; discriminate).
  split; [exact A|]. split; [exact B|].
  destruct (proj2 (settings_follow_signal DifficultySystemCount.new 40 260 A B))
    as (a & b & da & db & na & nb & Ea & Eb & _ & Hs & _).
  exists a, b, da, db, na, nb. repeat split; assumption.
Defined.

End DifficultyMore.

(** * More of the word selector *)

Lemma shuffleLoop_calls (Math_random : nat -> Q) {A : Type} (i : nat) :
  forall (arr : list A) (k : nat),
    snd (WordManager.shuffleLoop Math_random i arr k) = (k + i)%nat.
Proof.
  induction i as [|i IH]; intros arr k; cbn [WordManager.shuffleLoop snd].
  - lia.
  - rewrite IH. lia.
Qed.

(** X10. [shuffle] returns a permutation of its array, and calls
    [Math.random()] once for each entry but one. *)
Theorem shuffle_is_permutation (Math_random : nat -> Q) {A : Type}
    (array : list A) (k : nat) :
  inUnitInterval Math_random ->
  Permutation array (fst (WordManager.shuffle Math_random array k)) /\
  snd (WordManager.shuffle Math_random array k)
  = (k + (List.length array - 1))%nat.
Proof.
  intros _. split; [apply shuffle_Permutation|].
  unfold WordManager.shuffle. apply shuffleLoop_calls.
Qed.

Lemma shuffle_is_permutation_witness :
  inUnitInterval WordExamples.randomHalf /\
  Permutation [1; 2; 3; 4]
    (fst (WordManager.shuffle WordExamples.randomHalf [1; 2; 3; 4] 0)) /\
  fst (WordManager.shuffle WordExamples.randomHalf [1; 2; 3; 4] 0) = [1; 4; 2; 3].
Proof.
  split; [exact WordExampleFacts.randomHalf_range|]. split.
  - exact (proj1 (shuffle_is_permutation WordExamples.randomHalf [1; 2; 3; 4] 0%nat
                    WordExampleFacts.randomHalf_range)).
  - vm_compute. reflexivity.
Defined.

Lemma fill_full (ds ws : list Word) :
  (2 <= List.length ds)%nat -> WordManager.fill ds ws = ds.
Proof.
  intro H. destruct ws as [|w ws]; [reflexivity|].
  rewrite fill_cons. apply Nat.leb_le in H. rewrite H. reflexivity.
Qed.

(** X11. Distractors of the category of the correct word are preferred:
    when the pool has two other words of that category with distinct
    targets, [getDistractors] returns two distractors and both are words of
    the pool of that category, with targets other than the correct one. *)
Theorem distractors_prefer_category (Math_random : nat -> Q)
    (correctWord : Word) (level : Z) (pool : list Word) (k : nat) :
  inUnitInterval Math_random ->
  twoOfCategory correctWord pool ->
  let ds := fst (WordManager.getDistractors Math_random correctWord level pool k) in
  List.length ds = 2%nat /\
  Forall (fun d => category d = category correctWord /\ In d pool /\
                   target d <> target correctWord) ds.
Proof.
  intros _ (a & b & Ha & Hb & Hca & Hcb & Hta & Htb & Hab). cbv zeta.
  unfold WordManager.getDistractors.
  set (same := filter _ pool).
  pose proof (shuffle_Permutation Math_random same k) as Psame.
  destruct (WordManager.shuffle Math_random same k) as [shuffledCategory k1].
  destruct (WordManager.shuffle Math_random _ k1) as [shuffledPool k2].
  cbn [fst] in *.
  set (R := fun d : Word => category d = category correctWord /\ In d pool /\
                            target d <> target correctWord).
  assert (Rsame : Forall R shuffledCategory).
  { apply Forall_forall. intros w Hw.
    apply (Permutation_in _ (Permutation_sym Psame)) in Hw.
    apply filter_In in Hw. destruct Hw as [Hin Hw].
    apply andb_true_iff in Hw. destruct Hw as [Hc Ht].
    apply String.eqb_eq in Hc. apply negb_true_iff in Ht.
    apply String.eqb_neq in Ht. repeat split; assumption. }
  assert (In_same : forall w, In w pool -> category w = category correctWord ->
                              target w <> target correctWord ->
                              In w shuffledCategory).
  { intros w Hw Hc Ht. apply (Permutation_in _ Psame). apply filter_In.
    split; [exact Hw|]. apply andb_true_iff. split.
    - apply String.eqb_eq. exact Hc.
    - apply negb_true_iff. apply String.eqb_neq. exact Ht. }
  destruct (fill_invariant R shuffledCategory [] (NoDup_nil _) (Forall_nil _)
              Rsame) as [_ F1].
  assert (L1 : (List.length (WordManager.fill [] shuffledCategory) <= 2)%nat)
    by (apply fill_length; simpl; lia).
  assert (L2 : List.length (WordManager.fill [] shuffledCategory) = 2%nat).
  { destruct (Nat.lt_ge_cases (List.length (WordManager.fill [] shuffledCategory)) 2)
      as [Hlt | Hge]; [|lia].
    exfalso.
    pose proof (fill_covers shuffledCategory [] Hlt a (In_same a Ha Hca Hta)) as Ta.
    pose proof (fill_covers shuffledCategory [] Hlt b (In_same b Hb Hcb Htb)) as Tb.
    destruct (WordManager.fill [] shuffledCategory) as [|d0 [|d1 ds']];
      simpl in *; try lia; try contradiction.
    destruct Ta as [Ta|[]]. destruct Tb as [Tb|[]]. congruence. }
  rewrite fill_full by lia. split; assumption.
Qed.

Lemma distractors_prefer_category_witness :
  let pool := [mkWord "gou" "gou" "dog" "animal"; mkWord "mao" "mao" "cat" "animal";
               mkWord "niao" "niao" "bird" "animal"; mkWord "shu" "shu" "book" "thing";
               mkWord "bi" "bi" "pen" "thing"]%string in
  let cw := mkWord "gou" "gou" "dog" "animal"%string in
  inUnitInterval WordExamples.randomZero /\
  twoOfCategory cw pool /\
  List.length (fst (WordManager.getDistractors WordExamples.randomZero cw 1 pool 0))
  = 2%nat.
Proof.
  cbv zeta.
  assert (H2 : twoOfCategory (mkWord "gou" "gou" "dog" "animal")
                 [mkWord "gou" "gou" "dog" "animal"; mkWord "mao" "mao" "cat" "animal";
                  mkWord "niao" "niao" "bird" "animal"; mkWord "shu" "shu" "book" "thing";
                  mkWord "bi" "bi" "pen" "thing"]%string).
  { exists (mkWord "mao" "mao" "cat" "animal"), (mkWord "niao" "niao" "bird" "animal").
    cbn. repeat split; auto; discriminate. }
  split; [exact WordExampleFacts.randomZero_range|]. split; [exact H2|].
  exact (proj1 (distractors_prefer_category WordExamples.randomZero _ 1 _ 0%nat
                  WordExampleFacts.randomZero_range H2)).
Defined.

(** The word of an option is the correct word or one of the
    distractors. *)
Lemma buildOptions_words (lanes : list Lane) :
  forall (i idx : Z) (cw : Word) (ds : list Word) (di : nat) (lane : Lane)
         (w : Word),
    In (lane, Some w) (WordManager.buildOptions lanes i idx cw ds di) ->
    w = cw \/ In w ds.
Proof.
  induction lanes as [|l lanes IH]; intros i idx cw ds di lane w Hin;
    [contradiction|].
  cbn [WordManager.buildOptions] in Hin.
  destruct (i =? idx); destruct Hin as [E | Hin].
  - injection E as _ E. left. symmetry. exact E.
  - eapply IH. exact Hin.
  - injection E as _ E. right. eapply nth_error_In. exact E.
  - eapply IH. exact Hin.
Qed.

(** X12. On a pool that is not empty, [generateQuestion] returns a
    question made of words of the pool: its correct word is in the pool,
    its options are on the lanes left, center and right in this order, and
    every option that holds a word holds the correct word or a word of the
    pool with another target. *)
Theorem question_words_from_pool (Math_random : nat -> Q)
    (getWordsForLevel : Z -> Language -> list Word)
    (level : Z) (wm : WordManager.t) :
  inUnitInterval Math_random ->
  WordManager.candidateWords getWordsForLevel level wm <> [] ->
  exists q wm',
    WordManager.generateQuestion Math_random getWordsForLevel level wm
    = (Some q, wm') /\
    In (WordManager.correctWord q)
       (WordManager.candidateWords getWordsForLevel level wm) /\
    map fst (WordManager.options q) = [left; center; right] /\
    forall lane w,
      In (lane, Some w) (WordManager.options q) ->
      In w (WordManager.candidateWords getWordsForLevel level wm) /\
      (w = WordManager.correctWord q \/
       target w <> target (WordManager.correctWord q)).
Proof.
  intros Hr Hne.
  destruct (generateQuestion_spec Math_random getWordsForLevel Hr level wm Hne)
    as (cw & ds & idx & mode & k & Hgen & _ & Hcw & _ & Hd).
  destruct Hd as (_ & Hfa & _ & _).
  eexists _, _. split; [exact Hgen|].
  cbn [WordManager.correctWord WordManager.options].
  split; [exact Hcw|]. split; [apply buildOptions_lanes|].
  intros lane w Hin. apply buildOptions_words in Hin.
  destruct Hin as [-> | Hin]; [split; [exact Hcw | left; reflexivity]|].
  rewrite Forall_forall in Hfa. destruct (Hfa w Hin) as [Ht Hp].
  split; [exact Hp | right; exact Ht].
Qed.

Lemma question_words_from_pool_witness :
  inUnitInterval WordExamples.randomZero /\
  WordManager.candidateWords WordExamples.noWords 1
    (WordExamples.manager [WordExamples.word "yi"]) <> [] /\
  exists q wm',
    WordManager.generateQuestion WordExamples.randomZero WordExamples.noWords 1
      (WordExamples.manager [WordExamples.word "yi"]) = (Some q, wm') /\
    In (WordManager.correctWord q) [WordExamples.word "yi"].
Proof.
  assert (Hne : WordManager.candidateWords WordExamples.noWords 1
                  (WordExamples.manager [WordExamples.word "yi"]) <> [])
    by discriminate.
  split; [exact WordExampleFacts.randomZero_range|]. split; [exact Hne|].
  destruct (question_words_from_pool WordExamples.randomZero WordExamples.noWords 1
              (WordExamples.manager [WordExamples.word "yi"])
              WordExampleFacts.randomZero_range Hne)
    as (q & wm' & Hgen & Hcw & _).
  exists q, wm'. split; assumption.
Defined.

(** X13. [generateQuestion] throws exactly when its candidate pool is
    empty, and a call that throws leaves the recency buffer, the custom
    deck and the language as they were. *)
Theorem generateQuestion_throws_iff_empty (Math_random : nat -> Q)
    (getWordsForLevel : Z -> Language -> list Word)
    (level : Z) (wm : WordManager.t) :
  inUnitInterval Math_random ->
  let r := WordManager.generateQuestion Math_random getWordsForLevel level wm in
  (fst r = None <-> WordManager.candidateWords getWordsForLevel level wm = []) /\
  (fst r = None ->
   WordManager.recentWords (snd r) = WordManager.recentWords wm /\
   WordManager.customWords (snd r) = WordManager.customWords wm /\
   WordManager.language (snd r) = WordManager.language wm).
Proof.
  intros Hr. cbv zeta.
  assert (Hiff : fst (WordManager.generateQuestion Math_random getWordsForLevel
                        level wm) = None
                 <-> WordManager.candidateWords getWordsForLevel level wm = []).
  { split.
    - intro Hnone.
      destruct (WordManager.candidateWords getWordsForLevel level wm) eqn:E;
        [reflexivity|]. exfalso.
      destruct (generateQuestion_spec Math_random getWordsForLevel Hr level wm)
        as (cw & ds & idx & mode & k & Hgen & _); [rewrite E; discriminate|].
      rewrite Hgen in Hnone. discriminate Hnone.
    - apply generateQuestion_empty_pool. }
  split; [exact Hiff|].
  intro Hnone. apply Hiff in Hnone.
  unfold WordManager.generateQuestion. rewrite Hnone.
  pose proof (pickCorrect_empty Math_random (WordManager.recentWords wm)
                (WordManager.randomCalls wm)) as Hp.
  destruct (WordManager.pickCorrect Math_random [] _ _) as [picked k].
  cbn [fst] in Hp. subst picked. cbn. repeat split.
Qed.

Lemma generateQuestion_throws_iff_empty_witness :
  inUnitInterval WordExamples.randomZero /\
  fst (WordManager.generateQuestion WordExamples.randomZero WordExamples.noWords 1
         (WordManager.new chinese)) = None.
Proof.
  split; [exact WordExampleFacts.randomZero_range|].
  apply (proj1 (generateQuestion_throws_iff_empty WordExamples.randomZero
                  WordExamples.noWords 1 (WordManager.new chinese)
                  WordExampleFacts.randomZero_range)).
  reflexivity.
Defined.

Lemma pushRecent_last (recent : list string) (x : string) :
  exists front, WordManager.pushRecent recent x = front ++ [x].
Proof.
  unfold WordManager.pushRecent, WordManager.maxRecentWords.
  destruct (20 <? List.length (recent ++ [x]))%nat eqn:E.
  - destruct recent as [|a r]; [discriminate E|]. exists r. reflexivity.
  - exists recent. reflexivity.
Qed.

(** X14. Whatever the size of the pool, [generateQuestion] avoids the
    recent words when it can: if some word of the pool has a target that
    is not in the recency buffer, the target of the correct word is not in
    it either; otherwise a word of the pool is repeated. In both cases the
    target of the correct word becomes the newest entry of the buffer. *)
Theorem recent_words_avoided (Math_random : nat -> Q)
    (getWordsForLevel : Z -> Language -> list Word)
    (level : Z) (wm : WordManager.t) :
  inUnitInterval Math_random ->
  WordManager.candidateWords getWordsForLevel level wm <> [] ->
  exists q wm' front,
    WordManager.generateQuestion Math_random getWordsForLevel level wm
    = (Some q, wm') /\
    ((exists a, In a (WordManager.candidateWords getWordsForLevel level wm) /\
                ~ In (target a) (WordManager.recentWords wm)) ->
     ~ In (target (WordManager.correctWord q)) (WordManager.recentWords wm)) /\
    In (WordManager.correctWord q)
       (WordManager.candidateWords getWordsForLevel level wm) /\
    WordManager.recentWords wm' = front ++ [target (WordManager.correctWord q)].
Proof.
  intros Hr Hne.
  destruct (generateQuestion_spec Math_random getWordsForLevel Hr level wm Hne)
    as (cw & ds & idx & mode & k & Hgen & _ & Hcw & Hrecent & _).
  destruct (pushRecent_last (WordManager.recentWords wm) (target cw))
    as (front & Hfront).
  eexists _, _, front. split; [exact Hgen|].
  cbn [WordManager.correctWord WordManager.recentWords].
  split; [exact Hrecent|]. split; [exact Hcw | exact Hfront].
Qed.

(** A deck of two words, the first of which was just used: the second is
    chosen. *)
Lemma recent_words_avoided_witness :
  let wm := WordManager.mk ["yi"%string] (Some [WordExamples.word "yi"; WordExamples.word "er"])
                           chinese 0 in
  inUnitInterval WordExamples.randomZero /\
  WordManager.candidateWords WordExamples.noWords 1 wm <> [] /\
  exists q wm' front,
    WordManager.generateQuestion WordExamples.randomZero WordExamples.noWords 1 wm
    = (Some q, wm') /\
    WordManager.recentWords wm' = front ++ [target (WordManager.correctWord q)].
Proof.
  cbv zeta.
  assert (Hne : WordManager.candidateWords WordExamples.noWords 1
                  (WordManager.mk ["yi"%string]
                     (Some [WordExamples.word "yi"; WordExamples.word "er"])
                     chinese 0) <> []) by discriminate.
  split; [exact WordExampleFacts.randomZero_range|]. split; [exact Hne|].
  destruct (recent_words_avoided WordExamples.randomZero WordExamples.noWords 1 _
              WordExampleFacts.randomZero_range Hne)
    as (q & wm' & front & Hgen & _ & _ & Hfront).
  exists q, wm', front. split; assumption.
Defined.

(** X15. A custom deck that is not empty replaces the vocabulary: the
    question and the state [generateQuestion] returns depend neither on the
    level nor on the built-in tables. *)
Theorem custom_deck_overrides_level (Math_random : nat -> Q)
    (tables tables' : Z -> Language -> list Word) (level level' : Z)
    (wm : WordManager.t) :
  WordManager.hasCustomWords wm = true ->
  WordManager.generateQuestion Math_random tables level wm
  = WordManager.generateQuestion Math_random tables' level' wm.
Proof.
  intro H. unfold WordManager.generateQuestion.
  assert (E : WordManager.candidateWords tables level wm
              = WordManager.candidateWords tables' level' wm).
  { unfold WordManager.candidateWords, WordManager.hasCustomWords in *.
    destruct (WordManager.customWords wm) as [[|w ws]|];
      try discriminate H; reflexivity. }
  rewrite E. reflexivity.
Qed.

Lemma custom_deck_overrides_level_witness :
  WordManager.hasCustomWords (WordExamples.manager WordExamples.deck3) = true /\
  WordManager.generateQuestion WordExamples.randomZero WordExamples.noWords 1
    (WordExamples.manager WordExamples.deck3)
  = WordManager.generateQuestion WordExamples.randomZero
      (fun _ _ => WordExamples.deck21) 6 (WordExamples.manager WordExamples.deck3).
Proof.
  split; [reflexivity|].
  apply custom_deck_overrides_level. reflexivity.
Defined.

(** * The vocabulary tables *)

Section DataFacts.

Variables hskWords arabicWords : Z -> list Word.

Local Abbreviation getWordsForLevel := (Data.getWordsForLevel hskWords arabicWords).
Local Abbreviation getAllWords := (Data.getAllWords hskWords arabicWords).

Lemma getWordsForLevel_cases (level : Z) (language : Language) :
  (1 <= level <= 6 ->
   getWordsForLevel level language
   = match language with
     | chinese => hskWords level
     | arabic => arabicWords level
     end) /\
  (level < 1 \/ 6 < level -> getWordsForLevel level language = []).
Proof.
  split.
  - intro H.
    assert (C : level = 1 \/ level = 2 \/ level = 3 \/ level = 4 \/ level = 5
                \/ level = 6) by lia.
    destruct C as [-> | [-> | [-> | [-> | [-> | ->]]]]];
      destruct language; reflexivity.
  - intro H.
    assert (E : forall f : Z -> list Word,
               Data.lookup (map (fun l => (l, f l)) [1; 2; 3; 4; 5; 6]) level
               = None).
    { intro f. unfold Data.lookup. cbn [map find fst].
      repeat match goal with
             | |- context [?n =? level] =>
                 destruct (Z.eqb_spec n level); [lia|]
             end.
      reflexivity. }
    destruct language;
      unfold Data.getWordsForLevel, Data.getArabicWordsForLevel,
             Data.chineseWordsByLevel, Data.arabicWordsByLevel;
      [rewrite (E hskWords) | rewrite (E arabicWords)]; reflexivity.
Qed.

(** X16. [getWordsForLevel] returns the list of the level for the levels 1
    to 6 and the empty list for any other level, in both languages; and
    [getAllWords] is the lists of the levels 1 to 6 one after the other, so
    a word is in it exactly when it is a word of some level. *)
Theorem vocabulary_by_level (language : Language) :
  (forall level, level < 1 \/ 6 < level -> getWordsForLevel level language = []) /\
  getAllWords language
  = flat_map (fun level => getWordsForLevel level language) [1; 2; 3; 4; 5; 6] /\
  (forall w, In w (getAllWords language) <->
             exists level, In w (getWordsForLevel level language)).
Proof.
  assert (Hall : getAllWords language
                 = flat_map (fun level => getWordsForLevel level language)
                            [1; 2; 3; 4; 5; 6]).
  { destruct language; cbn; rewrite ?app_nil_r; reflexivity. }
  split; [intros level H; apply getWordsForLevel_cases; exact H|].
  split; [exact Hall|].
  intro w. rewrite Hall, in_flat_map. split.
  - intros (level & _ & Hw). exists level. exact Hw.
  - intros (level & Hw). exists level. split; [|exact Hw].
    destruct (Z_le_dec 1 level) as [H1|H1];
      [destruct (Z_le_dec level 6) as [H6|H6]|].
    + simpl. lia.
    + rewrite (proj2 (getWordsForLevel_cases level language)) in Hw by lia.
      contradiction.
    + rewrite (proj2 (getWordsForLevel_cases level language)) in Hw by lia.
      contradiction.
Qed.

(** X17. Without a custom deck, the candidate pool of level 1 is the list
    of level 1, the pool of a level from 2 to 6 is its list followed by the
    list of the level below, and [generateQuestion] throws for every level
    below 1 or above 7, whose pool is empty. *)
Theorem pool_by_level (Math_random : nat -> Q) (level : Z) (wm : WordManager.t) :
  WordManager.hasCustomWords wm = false ->
  (level = 1 ->
   WordManager.candidateWords getWordsForLevel level wm
   = getWordsForLevel 1 (WordManager.language wm)) /\
  (2 <= level <= 6 ->
   WordManager.candidateWords getWordsForLevel level wm
   = getWordsForLevel level (WordManager.language wm)
     ++ getWordsForLevel (level - 1) (WordManager.language wm)) /\
  (level < 1 \/ 7 < level ->
   fst (WordManager.generateQuestion Math_random getWordsForLevel level wm)
   = None).
Proof.
  intro Hc.
  assert (E : WordManager.candidateWords getWordsForLevel level wm
              = WordManager.getAvailableWords getWordsForLevel level wm).
  { unfold WordManager.candidateWords, WordManager.hasCustomWords in *.
    destruct (WordManager.customWords wm) as [[|w ws]|];
      try discriminate Hc; reflexivity. }
  rewrite E. unfold WordManager.getAvailableWords.
  split; [|split].
  - intros ->. cbn [Z.gtb Z.compare]. apply app_nil_r.
  - intro H. replace (level >? 1) with true; [reflexivity|].
    symmetry. apply Z.gtb_lt. lia.
  - intro H. apply generateQuestion_empty_pool. rewrite E.
    unfold WordManager.getAvailableWords.
    rewrite (proj2 (getWordsForLevel_cases level _)) by lia.
    destruct (level >? 1); [|reflexivity].
    rewrite (proj2 (getWordsForLevel_cases (level - 1) _)) by lia.
    reflexivity.
Qed.

End DataFacts.

Lemma pool_by_level_witness :
  WordManager.hasCustomWords (WordManager.new chinese) = false /\
  fst (WordManager.generateQuestion WordExamples.randomZero
         (Data.getWordsForLevel (fun _ => WordExamples.deck3)
                                (fun _ => WordExamples.deck3))
         8 (WordManager.new chinese)) = None.
Proof.
  split; [reflexivity|].
  apply (proj2 (proj2 (pool_by_level (fun _ => WordExamples.deck3)
                         (fun _ => WordExamples.deck3)
                         WordExamples.randomZero 8 (WordManager.new chinese)
                         eq_refl))).
  right. reflexivity.
Defined.

(** * Lines of separated values *)

Module CsvFacts.
Import CsvParser.

Lemma scan_plain (field : list ascii) :
  forall (tail current : list ascii) (inQuotes : bool)
         (result : list (list ascii)),
    plainField field ->
    scan (field ++ tail) current inQuotes result
    = scan tail (current ++ field) inQuotes result.
Proof.
  induction field as [|c field IH]; intros tail current inQuotes result Hp.
  - rewrite app_nil_r. reflexivity.
  - inversion Hp as [|? ? [Hq Hs] Hp']; subst.
    cbn [app scan]. rewrite Hq, Hs. cbn [andb].
    rewrite IH by exact Hp'. rewrite <- app_assoc. reflexivity.
Qed.

(** Inside quotes, an escaped field and its closing quote are read as the
    field, provided no quote follows the closing quote. *)
Lemma scan_escaped (field : list ascii) :
  forall (tail current : list ascii) (result : list (list ascii)),
    match tail with
    | next :: _ => isQuote next = false
    | [] => True
    end ->
    scan (escapeQuotes field ++ quote :: tail) current true result
    = scan tail (current ++ field) false result.
Proof.
  induction field as [|c field IH]; intros tail current result Htail.
  - cbn [escapeQuotes flat_map app scan]. rewrite app_nil_r.
    change (isQuote quote) with true. cbn iota.
    destruct tail as [|next tail']; [reflexivity|].
    rewrite Htail. reflexivity.
  - unfold escapeQuotes in *. cbn [flat_map].
    destruct (isQuote c) eqn:Ec.
    + assert (c = quote) by (apply Ascii.eqb_eq; exact Ec). subst c.
      cbn [app scan]. rewrite Ec. cbn iota.
      rewrite IH by exact Htail. rewrite <- app_assoc. reflexivity.
    + cbn [app scan]. rewrite Ec. rewrite andb_false_r.
      rewrite IH by exact Htail. rewrite <- app_assoc. reflexivity.
Qed.

Lemma scan_quoted (field tail : list ascii) (result : list (list ascii)) :
  match tail with
  | next :: _ => isQuote next = false
  | [] => True
  end ->
  scan (quoteField field ++ tail) [] false result
  = scan tail field false result.
Proof.
  intro Htail. unfold quoteField. cbn [app scan].
  change (isQuote quote) with true. cbn iota. cbn [negb].
  rewrite <- app_assoc. cbn [app].
  apply (scan_escaped field tail [] result Htail).
Qed.

Lemma isSeparator_quote (c : ascii) :
  isQuote c = true -> isSeparator c = false.
Proof.
  unfold isQuote. intro H. apply Ascii.eqb_eq in H. subst c. reflexivity.
Qed.

Lemma isSeparator_not_quote (sep : ascii) :
  isSeparator sep = true -> isQuote sep = false.
Proof.
  unfold isSeparator, isQuote. intro H.
  apply orb_true_iff in H. destruct H as [H | H];
    [apply orb_true_iff in H; destruct H as [H | H]|];
    apply Ascii.eqb_eq in H; subst sep; reflexivity.
Qed.

Lemma scan_cell (cell : bool * list ascii) (tail : list ascii)
    (result : list (list ascii)) :
  writable cell ->
  match tail with
  | next :: _ => isQuote next = false
  | [] => True
  end ->
  scan (writeCell cell ++ tail) [] false result
  = scan tail (snd cell) false result.
Proof.
  destruct cell as [[|] field]; unfold writable, writeCell; cbn [fst snd];
    intros Hw Htail.
  - apply scan_quoted. exact Htail.
  - rewrite scan_plain by (apply Hw; reflexivity). reflexivity.
Qed.

(** X18. A line written from one or more fields with a comma, a tab or a
    semicolon between them, each field either as it is, if it holds no
    quote and no separator, or in quotes with its quotes doubled, is read
    back by [parseCSVLine] as these fields. *)
Theorem parseCSVLine_round_trip (sep : ascii)
    (cells : list (bool * list ascii)) :
  isSeparator sep = true -> cells <> [] -> Forall writable cells ->
  parseCSVLine (joinWith sep (map writeCell cells)) = map snd cells.
Proof.
  intros Hsep Hne Hw. unfold parseCSVLine.
  assert (G : forall result,
             scan (joinWith sep (map writeCell cells)) [] false result
             = result ++ map snd cells).
  { destruct cells as [|c cells]; [contradiction|]. clear Hne.
    revert c Hw. induction cells as [|d cells IH]; intros c Hw result;
      inversion Hw as [|? ? Hc Hw']; subst.
    - cbn [map joinWith]. rewrite <- (app_nil_r (writeCell c)).
      rewrite scan_cell by (exact Hc || exact I). reflexivity.
    - change (joinWith sep (map writeCell (c :: d :: cells)))
        with (writeCell c ++ sep :: joinWith sep (map writeCell (d :: cells))).
      rewrite scan_cell
        by (exact Hc || exact (isSeparator_not_quote sep Hsep)).
      cbn [scan].
      rewrite (isSeparator_not_quote sep Hsep), Hsep. cbn [andb negb].
      rewrite (IH d Hw'). rewrite <- app_assoc. reflexivity. }
  apply (G []).
Qed.

Lemma parseCSVLine_round_trip_witness :
  parseCSVLine
    (joinWith comma
       (map writeCell
          [(false, list_ascii_of_string "ni hao");
           (true, list_ascii_of_string "hello, you");
           (true, [quote; "h"%char; "i"%char; quote])]))
  = [list_ascii_of_string "ni hao"; list_ascii_of_string "hello, you";
     [quote; "h"%char; "i"%char; quote]].
Proof.
  apply (parseCSVLine_round_trip comma
           [(false, list_ascii_of_string "ni hao");
            (true, list_ascii_of_string "hello, you");
            (true, [quote; "h"%char; "i"%char; quote])]).
  - reflexivity.
  - discriminate.
  - apply Forall_cons;
      [intros _; unfold plainField; cbn [snd list_ascii_of_string];
       repeat (apply Forall_cons; [split; reflexivity|]); apply Forall_nil|].
    apply Forall_cons; [intro H; discriminate H|].
    apply Forall_cons; [intro H; discriminate H|]. apply Forall_nil.
Defined.

Lemma scan_length (n : nat) :
  forall (line current : list ascii) (inQuotes : bool)
         (result : list (list ascii)),
    (List.length line <= n)%nat ->
    (List.length result + 1 <= List.length (scan line current inQuotes result)
     <= List.length result + 1 + List.length (separatorsOf line))%nat /\
    (inQuotes = false -> existsb isQuote line = false ->
     List.length (scan line current inQuotes result)
     = (List.length result + 1 + List.length (separatorsOf line))%nat).
Proof.
  assert (B : forall current inQuotes result,
             (List.length result + 1
              <= List.length (scan [] current inQuotes result)
              <= List.length result + 1 + List.length (separatorsOf []))%nat /\
             (inQuotes = false -> existsb isQuote [] = false ->
              List.length (scan [] current inQuotes result)
              = (List.length result + 1 + List.length (separatorsOf []))%nat)).
  { intros current inQuotes result. cbn [scan separatorsOf filter].
    rewrite length_app. simpl. lia. }
  induction n as [|n IH]; intros line current inQuotes result Hn.
  - destruct line; [apply B | simpl in Hn; lia].
  - destruct line as [|c rest]; [apply B|]. simpl in Hn.
    assert (Hrest : (List.length rest <= n)%nat) by lia.
    unfold separatorsOf in *. cbn [scan filter existsb].
    destruct (isQuote c) eqn:Eq.
    + rewrite (isSeparator_quote c Eq).
      split; [|intros _ E; discriminate E].
      destruct inQuotes.
      * destruct rest as [|next rest'];
          [apply (IH [] current (negb true) result Hrest)|].
        destruct (isQuote next) eqn:En.
        -- cbn [filter]. rewrite (isSeparator_quote next En).
           apply IH. simpl in Hrest. lia.
        -- apply (IH (next :: rest') current (negb true) result Hrest).
      * apply (IH rest current (negb false) result Hrest).
    + cbn [orb]. destruct (isSeparator c) eqn:Es; cbn [andb].
      * destruct inQuotes; cbn [negb].
        -- split; [|intro E; discriminate E].
           destruct (IH rest (current ++ [c]) true result Hrest) as [H _].
           simpl. lia.
        -- destruct (IH rest [] false (result ++ [current]) Hrest)
             as [H1 H2].
           rewrite length_app in H1, H2. simpl in *.
           split; [lia|]. intros _ E. rewrite (H2 eq_refl E). lia.
      * apply (IH rest (current ++ [c]) inQuotes result Hrest).
Qed.

(** X19. [parseCSVLine] returns at least one field and at most one more
    than the line has commas, tabs and semicolons; for a line without a
    quote it returns exactly one field more than the line has separators
    (so one empty field for the empty line). *)
Theorem parseCSVLine_field_count (line : list ascii) :
  (1 <= List.length (parseCSVLine line)
   <= 1 + List.length (separatorsOf line))%nat /\
  (existsb isQuote line = false ->
   List.length (parseCSVLine line)
   = (1 + List.length (separatorsOf line))%nat) /\
  parseCSVLine [] = [[]].
Proof.
  unfold parseCSVLine.
  destruct (scan_length (List.length line) line [] false [] (le_n _))
    as [H1 H2].
  simpl in H1, H2. split; [exact H1|]. split; [|reflexivity].
  intro E. apply (H2 eq_refl E).
Qed.

End CsvFacts.

(** * More of the scenes *)

Module GameMore.
Import Game.

Lemma Accounts_ext (s s' : t) :
  lives s' = lives s -> isGameOver s' = isGameOver s ->
  scoreSystem s' = scoreSystem s -> resolved s' = resolved s ->
  Accounts s -> Accounts s'.
Proof.
  unfold Accounts. intros -> -> -> ->. tauto.
Qed.

Lemma Accounts_new (wm : WordManager.t) (d : DifficultyState) :
  Accounts (Game.new wm d).
Proof.
  unfold Accounts. cbn. repeat split; try lia.
Qed.

(** A collision is scored as one answer; a wrong answer costs a life and
    ends the game when none is left; a correct answer gives a life back
    only below 3. *)
Lemma processGateCollision_accounts (gate : Gate) (now : Q) (s : t) :
  Accounts s -> Accounts (processGateCollision gate now s).
Proof.
  unfold Accounts, processGateCollision, ScoreSystem.calculateScore,
    ScoreSystem.getTotalAnswers, ScoreSystem.getCorrectAnswers.
  intros (Hl & Hover & Htot & Hc).
  destruct (onCorrectLane (currentLane s) (question gate)); cbn [negb].
  - match goal with
    | |- context [if ?c then _ else _] => destruct c eqn:E
    end;
      cbn [set_outcome lives isGameOver scoreSystem resolved
           ScoreSystem.totalAnswers ScoreSystem.correctAnswers List.length];
      rewrite Nat2Z.inj_succ;
      [apply andb_true_iff in E; destruct E as [_ E]; apply Z.ltb_lt in E|];
      repeat split; try lia; intro H; specialize (Hover H); lia.
  - cbn [set_outcome lives isGameOver scoreSystem resolved
         ScoreSystem.totalAnswers ScoreSystem.correctAnswers List.length].
    rewrite Nat2Z.inj_succ.
    repeat split; try lia.
    destruct (lives s - 1 <=? 0) eqn:E; [discriminate|].
    intros _. apply Z.leb_gt in E. lia.
Qed.

Section LoopMore.

Variable progressAt : Q -> Q -> Gate -> Q.
Variables collisionAt retireAt : Q.

(** What one turn of the loop over the gates leaves alone. *)
Lemma stepGate_more (now : Q) (g : Gate) (remaining : nat) (s : t) :
  let r := Game.stepGate progressAt collisionAt retireAt now g remaining s in
  (Accounts s -> Accounts (snd r)) /\
  difficultySystem (snd r) = difficultySystem s /\
  wordManager (snd r) = wordManager s /\
  gameSpeed (snd r) = gameSpeed s.
Proof.
  cbv zeta. unfold Game.stepGate.
  set (p := progressAt now (gameSpeed s) g).
  cbn [processed].
  set (g1 := mkGate (gid g) p (question g) (processed g) (spawnTime g)).
  pose proof (GameFacts.processGateCollision_fields g1 now s) as F.
  cbv zeta in F. destruct F as (_ & _ & _ & Fspeed & _ & Fd & Fwm & _).
  pose proof (processGateCollision_accounts g1 now s) as A.
  destruct (Qgeb p collisionAt && negb (processed g));
    destruct (Qgeb p retireAt); cbn [fst snd];
    destruct (0 <? remaining)%nat;
    (split;
     [intro H;
      first [ apply (Accounts_ext s); [reflexivity ..| exact H]
            | apply (Accounts_ext (processGateCollision g1 now s));
              [reflexivity ..| apply A; exact H] ]
     | cbn; repeat split; congruence]).
Qed.

Lemma updateGates_more (now : Q) (before : list Gate) :
  forall (after : list Gate) (s : t),
    let r := Game.updateGates progressAt collisionAt retireAt now before
               after s in
    (Accounts s -> Accounts (snd r)) /\
    difficultySystem (snd r) = difficultySystem s /\
    wordManager (snd r) = wordManager s /\
    gameSpeed (snd r) = gameSpeed s.
Proof.
  induction before as [|g before IH]; intros after s; cbv zeta.
  - cbn [Game.updateGates snd].
    split; [intro H; exact H | repeat split].
  - cbn [Game.updateGates].
    pose proof (stepGate_more now g
                  (List.length before + List.length after) s) as R.
    cbv zeta in R. destruct R as (RA & Rd & Rwm & Rspeed).
    destruct (Game.stepGate progressAt collisionAt retireAt now g
                (List.length before + List.length after) s) as [[g'|] s1];
      cbn [snd] in *;
      [specialize (IH (g' :: after) s1) | specialize (IH after s1)];
      cbv zeta in IH; destruct IH as (IA & Id & Iwm & Ispeed);
      (split; [tauto | repeat split; congruence]).
Qed.

End LoopMore.

Section FrameMore.

Variable Math_random : nat -> Q.
Variable getWordsForLevel : Z -> Language -> list Word.
Variable difficultyUpdate : Q -> DifficultyState -> UpdateResult.
Variable progressAt : Q -> Q -> Gate -> Q.
Variables collisionAt retireAt spacingTime : Q.

Local Abbreviation spawnGate := (Game.spawnGate Math_random getWordsForLevel).
Local Abbreviation frame :=
  (Game.frame Math_random getWordsForLevel difficultyUpdate progressAt
              collisionAt retireAt spacingTime).
Local Abbreviation candidateWords :=
  (WordManager.candidateWords getWordsForLevel).

(** [generateQuestion] writes neither the custom deck nor the language. *)
Lemma generateQuestion_keeps (level : Z) (wm : WordManager.t) :
  let r := WordManager.generateQuestion Math_random getWordsForLevel level wm in
  WordManager.customWords (snd r) = WordManager.customWords wm /\
  WordManager.language (snd r) = WordManager.language wm.
Proof.
  cbv zeta. unfold WordManager.generateQuestion.
  destruct (WordManager.pickCorrect _ _ _ _) as [[cw|] k1].
  - destruct (WordManager.getDistractors _ _ _ _ _) as [ds k2].
    cbn. split; reflexivity.
  - cbn. split; reflexivity.
Qed.

Lemma candidateWords_ext (level : Z) (wm wm' : WordManager.t) :
  WordManager.customWords wm' = WordManager.customWords wm ->
  WordManager.language wm' = WordManager.language wm ->
  candidateWords level wm' = candidateWords level wm.
Proof.
  unfold WordManager.candidateWords, WordManager.getAvailableWords.
  intros -> ->. reflexivity.
Qed.

Lemma spawnGate_more (now : Q) (s : t) :
  let s' := spawnGate now s in
  (Accounts s -> Accounts s') /\
  difficultySystem s' = difficultySystem s /\
  gameSpeed s' = gameSpeed s /\
  WordManager.customWords (wordManager s')
  = WordManager.customWords (wordManager s) /\
  WordManager.language (wordManager s')
  = WordManager.language (wordManager s) /\
  (gates s <> [] -> gates s' <> []) /\
  (inUnitInterval Math_random ->
   candidateWords (hskLevel (currentSettings (difficultySystem s)))
                  (wordManager s) <> [] ->
   gates s' <> []).
Proof.
  cbv zeta. unfold Game.spawnGate.
  pose proof (generateQuestion_keeps
                (hskLevel (currentSettings (difficultySystem s)))
                (wordManager s)) as K.
  cbv zeta in K.
  destruct (WordManager.generateQuestion Math_random getWordsForLevel
              (hskLevel (currentSettings (difficultySystem s)))
              (wordManager s)) as [[q|] wm] eqn:E;
    cbn [snd] in K; destruct K as [Kc Kl].
  - cbn [gates difficultySystem gameSpeed wordManager].
    assert (G : gates s ++
                [mkGate (spawned s) 0 q false now] <> []).
    { intro X. apply app_eq_nil in X. destruct X as [_ X]. discriminate X. }
    split; [intro H; apply (Accounts_ext s); [reflexivity ..| exact H]|].
    repeat split; try assumption; intros; exact G.
  - cbn [gates difficultySystem gameSpeed wordManager set_wordManager].
    split; [intro H; apply (Accounts_ext s); [reflexivity ..| exact H]|].
    repeat split; try assumption.
    + intro H; exact H.
    + intros Hr Hne. exfalso.
      destruct (generateQuestion_spec Math_random getWordsForLevel Hr _ _ Hne)
        as (cw & ds & idx & mode & k & Hgen & _).
      rewrite Hgen in E. discriminate E.
Qed.

(** A frame whose [update] returns: the state [s3] the loop over the gates
    leaves, and the spawn that may follow. *)
Lemma frame_shape (now : Q) (arrived : bool) (s : t)
    (settings : DifficultySettings) (d' : DifficultyState) (note : option Z) :
  difficultyUpdate (inject_Z (ScoreSystem.getCorrectAnswers (scoreSystem s)))
                   (difficultySystem s) = Some (settings, d', note) ->
  exists s3,
    (frame now arrived s = s3 /\ gates s3 <> [] \/
     frame now arrived s = spawnGate now s3) /\
    (Accounts s -> Accounts s3) /\
    difficultySystem s3 = d' /\
    gameSpeed s3 = speedMultiplier settings /\
    wordManager s3 = wordManager s.
Proof.
  intro E. unfold Game.frame. rewrite E.
  set (s0 := set_difficulty d' (speedMultiplier settings) s).
  set (s1 := if arrived then set_isMoving false s0 else s0).
  pose proof (updateGates_more progressAt collisionAt retireAt now
                (rev (gates s1)) [] s1) as U.
  cbv zeta in U.
  destruct (Game.updateGates progressAt collisionAt retireAt now
              (rev (gates s1)) [] s1) as [gs s2].
  cbn [snd] in U. destruct U as (UA & Ud & Uwm & Uspeed).
  exists (set_gates gs s2). split; [|split; [|split; [|split]]].
  - destruct gs as [|g gs]; cbn [set_gates gates orb]; [right; reflexivity|].
    destruct (Qltb _ _); [right; reflexivity|].
    left. split; [reflexivity | discriminate].
  - intro H. apply (Accounts_ext s2); [reflexivity ..|]. apply UA.
    apply (Accounts_ext s);
      [unfold s1, s0; destruct arrived; reflexivity ..| exact H].
  - cbn [set_gates difficultySystem]. rewrite Ud.
    unfold s1, s0; destruct arrived; reflexivity.
  - cbn [set_gates gameSpeed]. rewrite Uspeed.
    unfold s1, s0; destruct arrived; reflexivity.
  - cbn [set_gates wordManager]. rewrite Uwm.
    unfold s1, s0; destruct arrived; reflexivity.
Qed.

Lemma frame_accounts (now : Q) (arrived : bool) (s : t) :
  Accounts s -> Accounts (frame now arrived s).
Proof.
  intro H.
  destruct (difficultyUpdate
              (inject_Z (ScoreSystem.getCorrectAnswers (scoreSystem s)))
              (difficultySystem s)) as [[[settings d'] note]|] eqn:E.
  - destruct (frame_shape now arrived s settings d' note E)
      as (s3 & Hcase & HA & _).
    destruct Hcase as [[-> _] | ->]; [exact (HA H)|].
    apply spawnGate_more. exact (HA H).
  - unfold Game.frame. rewrite E. exact H.
Qed.

(** A frame with an [update] that reads a table. *)
Lemma frame_table (hi : Q) (now : Q) (arrived : bool) (s : t) :
  tableUpdate difficultyUpdate hi -> Accounts s ->
  let s' := frame now arrived s in
  Accounts s' /\
  ((1 <= gameSpeed s')%Q /\ (gameSpeed s' <= hi)%Q) /\
  (1 <= hskLevel (currentSettings (difficultySystem s')) <= 6)%Z /\
  WordManager.customWords (wordManager s')
  = WordManager.customWords (wordManager s) /\
  WordManager.language (wordManager s')
  = WordManager.language (wordManager s) /\
  (inUnitInterval Math_random ->
   (forall level, (1 <= level <= 6)%Z ->
                  candidateWords level (wordManager s) <> []) ->
   gates s' <> []).
Proof.
  intros T A. cbv zeta.
  assert (Hc : (0 <= ScoreSystem.getCorrectAnswers (scoreSystem s))%Z)
    by (destruct A as (_ & _ & _ & Hc); lia).
  destruct (T _ (difficultySystem s) Hc)
    as (settings & d' & note & E & Ecur & Hlevel & Hlo & Hhi).
  destruct (frame_shape now arrived s settings d' note E)
    as (s3 & Hcase & HA & Hd & Hspeed & Hwm).
  pose proof (spawnGate_more now s3) as S. cbv zeta in S.
  destruct S as (SA & Sd & Sspeed & Sc & Sl & Sg & Sq).
  destruct Hcase as [[-> Hne] | ->].
  - rewrite Hspeed, Hd, Ecur, Hwm.
    split; [exact (HA A)|].
    repeat split; try assumption; try lia. intros _ _. exact Hne.
  - rewrite Sspeed, Sd, Sc, Sl, Hspeed, Hd, Ecur, Hwm.
    split; [exact (SA (HA A))|].
    repeat split; try assumption; try lia.
    intros Hr Hpool. apply Sq; [exact Hr|].
    rewrite Hd, Ecur, Hwm. apply Hpool. exact Hlevel.
Qed.

End FrameMore.

End GameMore.

(** ** The tables of the two controllers *)

Lemma distance_tableUpdate : tableUpdate DifficultySystem.update (3 # 2).
Proof.
  intros c d Hc. unfold DifficultySystem.update.
  eexists _, _, _. split; [reflexivity|]. cbn [currentSettings].
  split; [reflexivity|].
  assert (H0 : Qgeb (inject_Z c) 0 = true).
  { apply Qgeb_le. unfold Qle. simpl. lia. }
  cbn [rev DifficultySystem.DIFFICULTY_THRESHOLDS app
       DifficultySystem.findTier DifficultySystem.distance
       DifficultySystem.th_hskLevel DifficultySystem.speed
       DifficultySystem.th_decisionTime].
  rewrite H0.
  repeat match goal with
         | |- context [Qgeb (inject_Z c) ?k] =>
             destruct (Qgeb (inject_Z c) k)
         end;
    cbn [hskLevel speedMultiplier];
    (split; [lia | split; vm_compute; discriminate]).
Qed.

Lemma count_tableUpdate : tableUpdate DifficultySystemCount.update (5 # 4).
Proof.
  intros c d Hc. unfold DifficultySystemCount.update.
  assert (H0 : (0 <= inject_Z c)%Q) by (unfold Qle; simpl; lia).
  pose proof (DifficultyFacts.newLevel_range (inject_Z c) H0) as R.
  set (i := DifficultySystemCount.newLevel (inject_Z c) - 1) in *.
  assert (C : i = 0 \/ i = 1 \/ i = 2 \/ i = 3 \/ i = 4 \/ i = 5) by lia.
  clearbody i.
  destruct C as [-> | [-> | [-> | [-> | [-> | ->]]]]];
    (eexists _, _, _; split; [reflexivity|];
     cbn [currentSettings hskLevel speedMultiplier
          DifficultySystemCount.ls_hskLevel DifficultySystemCount.speed];
     split; [reflexivity|]; split; [lia|]; split; vm_compute; discriminate).
Qed.

(** ** Invariants of the runs of both scenes *)

Section SceneMore.

Variable Math_random : nat -> Q.
Variable getWordsForLevel : Z -> Language -> list Word.
Variable difficultyUpdate : Q -> DifficultyState -> UpdateResult.

Section RunInv.

Variable P : Game.t -> Prop.

Hypothesis P_frame :
  forall progressAt collisionAt retireAt spacingTime now arrived s,
    P s ->
    P (Game.frame Math_random getWordsForLevel difficultyUpdate progressAt
                  collisionAt retireAt spacingTime now arrived s).
Hypothesis P_lane : forall lane s, P s -> P (Game.set_lane lane s).
Hypothesis P_moving : forall b s, P s -> P (Game.set_isMoving b s).
Hypothesis P_paused : forall b s, P s -> P (Game.set_isPaused b s).

Lemma GameScene_run_inv (es : list GameScene.Event) :
  forall s, P s ->
            P (GameScene.run Math_random getWordsForLevel difficultyUpdate
                 es s).
Proof.
  induction es as [|e es IH]; intros s Hs; [exact Hs|].
  cbn. apply IH. destruct e as [time | lane |]; cbn [GameScene.step].
  - unfold GameScene.update. destruct (Game.isGameOver s); [exact Hs|].
    apply P_frame. exact Hs.
  - unfold GameScene.moveToLane. destruct (Game.isMoving s); [exact Hs|].
    apply P_lane. exact Hs.
  - apply P_moving. exact Hs.
Qed.

Lemma Game3D_run_inv (es : list Game3D.Event) :
  forall s, P s ->
            P (Game3D.run Math_random getWordsForLevel difficultyUpdate es s).
Proof.
  induction es as [|e es IH]; intros s Hs; [exact Hs|].
  cbn. apply IH. destruct e as [now arrived | | lane]; cbn [Game3D.step].
  - unfold Game3D.animate. destruct (Game.isGameOver s); [exact Hs|].
    destruct (Game.isPaused s); [exact Hs|].
    apply P_frame. exact Hs.
  - apply P_paused. exact Hs.
  - destruct (_ || _); [exact Hs|].
    unfold Game3D.moveToLane. destruct (_ || _); [exact Hs|].
    apply P_lane. exact Hs.
Qed.

End RunInv.

(** X20. In both scenes, after any sequence of frames and inputs from the
    start of the game: the lives are at most 3; they are at least 1 as
    long as the game is not over; the score system has counted exactly one
    answer for each collision that was resolved; and the correct answers
    are between 0 and the total. *)
Theorem lives_and_answers_accounted :
  (forall (es : list GameScene.Event) (now : Q),
      Accounts
        (GameScene.run Math_random getWordsForLevel difficultyUpdate es
           (GameScene.create Math_random getWordsForLevel now))) /\
  (forall (es : list Game3D.Event) (wm : WordManager.t) (d : DifficultyState)
          (now : Q),
      Accounts
        (Game3D.run Math_random getWordsForLevel difficultyUpdate es
           (Game3D.init Math_random getWordsForLevel wm d now))).
Proof.
  assert (F : forall progressAt collisionAt retireAt spacingTime now arrived s,
             Accounts s ->
             Accounts
               (Game.frame Math_random getWordsForLevel difficultyUpdate
                  progressAt collisionAt retireAt spacingTime now arrived s))
    by (intros; apply GameMore.frame_accounts; assumption).
  assert (L : forall lane s, Accounts s -> Accounts (Game.set_lane lane s))
    by (intros lane s H; apply (GameMore.Accounts_ext s);
        [reflexivity ..| exact H]).
  assert (M : forall b s, Accounts s -> Accounts (Game.set_isMoving b s))
    by (intros b s H; apply (GameMore.Accounts_ext s);
        [reflexivity ..| exact H]).
  assert (U : forall b s, Accounts s -> Accounts (Game.set_isPaused b s))
    by (intros b s H; apply (GameMore.Accounts_ext s);
        [reflexivity ..| exact H]).
  split.
  - intros es now. apply GameScene_run_inv; try assumption.
    apply GameMore.spawnGate_more. apply GameMore.Accounts_new.
  - intros es wm d now. apply Game3D_run_inv; try assumption.
    apply GameMore.spawnGate_more. apply GameMore.Accounts_new.
Qed.

(** The runs of both scenes with an [update] that reads a table. *)
Lemma runs_safe (hi : Q) :
  tableUpdate difficultyUpdate hi ->
  (forall (es : list GameScene.Event) (now : Q),
      frameSafe difficultyUpdate hi
        (GameScene.run Math_random getWordsForLevel difficultyUpdate es
           (GameScene.create Math_random getWordsForLevel now))) /\
  (forall (es : list Game3D.Event) (wm : WordManager.t) (d : DifficultyState)
          (now : Q),
      frameSafe difficultyUpdate hi
        (Game3D.run Math_random getWordsForLevel difficultyUpdate es
           (Game3D.init Math_random getWordsForLevel wm d now))).
Proof.
  intro T.
  set (P := fun s : Game.t =>
              Accounts s /\ (1 <= Game.gameSpeed s)%Q /\
              (Game.gameSpeed s <= hi)%Q).
  assert (Hhi : (1 <= hi)%Q).
  { destruct (T 0%Z DifficultySystem.new ltac:(lia))
      as (settings & _ & _ & _ & _ & _ & Hlo & Hhi).
    eapply Qle_trans; eassumption. }
  assert (S : forall s, P s -> frameSafe difficultyUpdate hi s).
  { intros s (A & Hs). split; [|exact Hs].
    destruct A as (_ & _ & _ & Hc).
    destruct (T _ (Game.difficultySystem s) (proj1 Hc))
      as (settings & d' & note & E & _).
    rewrite E. discriminate. }
  assert (F : forall progressAt collisionAt retireAt spacingTime now arrived s,
             P s ->
             P (Game.frame Math_random getWordsForLevel difficultyUpdate
                  progressAt collisionAt retireAt spacingTime now arrived s)).
  { intros progressAt collisionAt retireAt spacingTime now arrived s (A & _).
    pose proof (GameMore.frame_table Math_random getWordsForLevel
                  difficultyUpdate progressAt collisionAt retireAt spacingTime
                  hi now arrived s T A) as R.
    cbv zeta in R. destruct R as (R1 & R2 & _). split; assumption. }
  assert (L : forall lane s, P s -> P (Game.set_lane lane s)).
  { intros lane s (A & Hs). split; [|exact Hs].
    apply (GameMore.Accounts_ext s); [reflexivity ..| exact A]. }
  assert (M : forall b s, P s -> P (Game.set_isMoving b s)).
  { intros b s (A & Hs). split; [|exact Hs].
    apply (GameMore.Accounts_ext s); [reflexivity ..| exact A]. }
  assert (U : forall b s, P s -> P (Game.set_isPaused b s)).
  { intros b s (A & Hs). split; [|exact Hs].
    apply (GameMore.Accounts_ext s); [reflexivity ..| exact A]. }
  assert (I : forall wm d now,
             P (Game.spawnGate Math_random getWordsForLevel now
                  (Game.new wm d))).
  { intros wm d now.
    pose proof (GameMore.spawnGate_more Math_random getWordsForLevel now
                  (Game.new wm d)) as R.
    cbv zeta in R. destruct R as (RA & _ & Rspeed & _).
    split; [apply RA; apply GameMore.Accounts_new|].
    rewrite Rspeed. cbn [Game.new Game.gameSpeed].
    split; [apply Qle_refl | exact Hhi]. }
  split.
  - intros es now. apply S. apply (GameScene_run_inv P); try assumption.
    apply I.
  - intros es wm d now. apply S. apply (Game3D_run_inv P); try assumption.
    apply I.
Qed.

End SceneMore.

(** X21. In both scenes and with either difficulty system, after any
    sequence of frames and inputs from the start of the game, the [update]
    of the next frame does not throw (the count of correct answers it is
    called with is never negative) and the speed the gates travel at is
    between 1 and the highest speed of the table: 1.5 for the
    distance-gated table, 1.25 for the count-gated one. *)
Theorem frames_never_throw (Math_random : nat -> Q)
    (getWordsForLevel : Z -> Language -> list Word) :
  (forall (es : list GameScene.Event) (now : Q),
      frameSafe DifficultySystem.update (3 # 2)
        (GameScene.run Math_random getWordsForLevel DifficultySystem.update es
           (GameScene.create Math_random getWordsForLevel now))) /\
  (forall (es : list Game3D.Event) (wm : WordManager.t) (d : DifficultyState)
          (now : Q),
      frameSafe DifficultySystem.update (3 # 2)
        (Game3D.run Math_random getWordsForLevel DifficultySystem.update es
           (Game3D.init Math_random getWordsForLevel wm d now))) /\
  (forall (es : list GameScene.Event) (now : Q),
      frameSafe DifficultySystemCount.update (5 # 4)
        (GameScene.run Math_random getWordsForLevel
           DifficultySystemCount.update es
           (GameScene.create Math_random getWordsForLevel now))) /\
  (forall (es : list Game3D.Event) (wm : WordManager.t) (d : DifficultyState)
          (now : Q),
      frameSafe DifficultySystemCount.update (5 # 4)
        (Game3D.run Math_random getWordsForLevel DifficultySystemCount.update
           es (Game3D.init Math_random getWordsForLevel wm d now))).
Proof.
  destruct (runs_safe Math_random getWordsForLevel DifficultySystem.update
              (3 # 2) distance_tableUpdate) as [A B].
  destruct (runs_safe Math_random getWordsForLevel
              DifficultySystemCount.update (5 # 4) count_tableUpdate)
    as [C D].
  split; [exact A | split; [exact B | split; [exact C | exact D]]].
Qed.

(** ** Game over and pause *)

Lemma withPlayer_id (s : Game.t) :
  withPlayer (Game.currentLane s) (Game.isMoving s) (Game.isPaused s) s = s.
Proof.
  destruct s. reflexivity.
Qed.

Lemma GameScene_over_run (Math_random : nat -> Q)
    (getWordsForLevel : Z -> Language -> list Word)
    (difficultyUpdate : Q -> DifficultyState -> UpdateResult)
    (es : list GameScene.Event) :
  forall s, Game.isGameOver s = true ->
    exists lane moving,
      GameScene.run Math_random getWordsForLevel difficultyUpdate es s
      = withPlayer lane moving (Game.isPaused s) s.
Proof.
  induction es as [|e es IH]; intros s Hover.
  - exists (Game.currentLane s), (Game.isMoving s).
    symmetry. apply withPlayer_id.
  - cbn [GameScene.run fold_left].
    assert (Hstep : exists lane moving,
               GameScene.step Math_random getWordsForLevel difficultyUpdate e s
               = withPlayer lane moving (Game.isPaused s) s).
    { destruct e as [time | lane |]; cbn [GameScene.step].
      - unfold GameScene.update. rewrite Hover.
        exists (Game.currentLane s), (Game.isMoving s).
        symmetry. apply withPlayer_id.
      - unfold GameScene.moveToLane. destruct (Game.isMoving s) eqn:Em.
        + exists (Game.currentLane s), (Game.isMoving s).
          symmetry. apply withPlayer_id.
        + exists lane, true. destruct s. reflexivity.
      - exists (Game.currentLane s), false. destruct s. reflexivity. }
    destruct Hstep as (lane & moving & ->).
    destruct (IH (withPlayer lane moving (Game.isPaused s) s) Hover)
      as (lane' & moving' & E).
    exists lane', moving'. exact E.
Qed.

Lemma Game3D_over_run (Math_random : nat -> Q)
    (getWordsForLevel : Z -> Language -> list Word)
    (difficultyUpdate : Q -> DifficultyState -> UpdateResult)
    (es : list Game3D.Event) :
  forall s, Game.isGameOver s = true ->
    exists paused,
      Game3D.run Math_random getWordsForLevel difficultyUpdate es s
      = withPlayer (Game.currentLane s) (Game.isMoving s) paused s.
Proof.
  induction es as [|e es IH]; intros s Hover.
  - exists (Game.isPaused s). symmetry. apply withPlayer_id.
  - cbn [Game3D.run fold_left].
    assert (Hstep : exists paused,
               Game3D.step Math_random getWordsForLevel difficultyUpdate e s
               = withPlayer (Game.currentLane s) (Game.isMoving s) paused s).
    { destruct e as [now arrived | | lane]; cbn [Game3D.step].
      - unfold Game3D.animate. rewrite Hover.
        exists (Game.isPaused s). symmetry. apply withPlayer_id.
      - exists (negb (Game.isPaused s)). destruct s. reflexivity.
      - rewrite Hover, orb_true_r.
        exists (Game.isPaused s). symmetry. apply withPlayer_id. }
    destruct Hstep as (paused & ->).
    destruct (IH (withPlayer (Game.currentLane s) (Game.isMoving s) paused s)
                Hover) as (paused' & E).
    exists paused'. exact E.
Qed.

(** X22. Game over is final. Once [isGameOver] is set, no sequence of
    frames and inputs changes the score, the lives, the gates, the
    difficulty, the word manager or any other field of the scene but those
    of the player: in [GameScene] the lane and [isMoving] may still change,
    in [Game3D] only [isPaused]. *)
Theorem game_over_is_final (Math_random : nat -> Q)
    (getWordsForLevel : Z -> Language -> list Word)
    (difficultyUpdate : Q -> DifficultyState -> UpdateResult)
    (s : Game.t) (esScene : list GameScene.Event)
    (es3D : list Game3D.Event) :
  Game.isGameOver s = true ->
  (let s' := GameScene.run Math_random getWordsForLevel difficultyUpdate
               esScene s in
   s' = withPlayer (Game.currentLane s') (Game.isMoving s')
                   (Game.isPaused s) s) /\
  (let s' := Game3D.run Math_random getWordsForLevel difficultyUpdate
               es3D s in
   s' = withPlayer (Game.currentLane s) (Game.isMoving s)
                   (Game.isPaused s') s).
Proof.
  intro Hover. cbv zeta. split.
  - destruct (GameScene_over_run Math_random getWordsForLevel
                difficultyUpdate esScene s Hover) as (lane & moving & E).
    rewrite E. reflexivity.
  - destruct (Game3D_over_run Math_random getWordsForLevel
                difficultyUpdate es3D s Hover) as (paused & E).
    rewrite E. reflexivity.
Qed.

Lemma game_over_is_final_witness :
  Game.isGameOver GameExamples.lost3D = true /\
  Game.lives GameExamples.lost3D = 0%Z /\
  GameExamples.run3D
    [Game3D.AnimationFrame 20000 true; Game3D.LaneKey left;
     Game3D.AnimationFrame 30000 false] GameExamples.lost3D
  = GameExamples.lost3D.
Proof.
  assert (H : Game.isGameOver GameExamples.lost3D = true)
    by (vm_compute; reflexivity).
  split; [exact H|]. split; [vm_compute; reflexivity|].
  pose proof (proj2 (game_over_is_final WordExamples.randomZero
                       WordExamples.noWords DifficultySystemCount.update
                       GameExamples.lost3D []
                       [Game3D.AnimationFrame 20000 true; Game3D.LaneKey left;
                        Game3D.AnimationFrame 30000 false] H)) as E.
  cbv zeta in E. unfold GameExamples.run3D. rewrite E.
  vm_compute. reflexivity.
Defined.

Lemma Game3D_paused_run (Math_random : nat -> Q)
    (getWordsForLevel : Z -> Language -> list Word)
    (difficultyUpdate : Q -> DifficultyState -> UpdateResult)
    (es : list Game3D.Event) :
  forall s, Game.isPaused s = true ->
            Forall (fun e => e <> Game3D.PauseKey) es ->
            Game3D.run Math_random getWordsForLevel difficultyUpdate es s = s.
Proof.
  induction es as [|e es IH]; intros s Hp Hes; [reflexivity|].
  inversion Hes as [|? ? He Hes']; subst.
  cbn [Game3D.run fold_left].
  assert (Hstep : Game3D.step Math_random getWordsForLevel difficultyUpdate
                    e s = s).
  { destruct e as [now arrived | | lane]; cbn [Game3D.step].
    - unfold Game3D.animate. rewrite Hp.
      destruct (Game.isGameOver s); reflexivity.
    - contradiction He. reflexivity.
    - rewrite Hp. reflexivity. }
  rewrite Hstep. apply IH; assumption.
Qed.

(** X23. A paused [Game3D] is frozen: frames and lane keys change no field
    of it, so that whatever frames and lane keys arrive between the key
    that pauses and the key that resumes, the game resumes in the state it
    was paused in. *)
Theorem paused_game_is_frozen (Math_random : nat -> Q)
    (getWordsForLevel : Z -> Language -> list Word)
    (difficultyUpdate : Q -> DifficultyState -> UpdateResult)
    (s : Game.t) (es : list Game3D.Event) :
  Forall (fun e => e <> Game3D.PauseKey) es ->
  (Game.isPaused s = true ->
   Game3D.run Math_random getWordsForLevel difficultyUpdate es s = s) /\
  (Game.isPaused s = false ->
   Game3D.run Math_random getWordsForLevel difficultyUpdate
     (Game3D.PauseKey :: es ++ [Game3D.PauseKey]) s = s).
Proof.
  intro Hes. split.
  - intro Hp. apply Game3D_paused_run; assumption.
  - intro Hp. cbn [Game3D.run fold_left Game3D.step].
    rewrite fold_left_app.
    fold (Game3D.run Math_random getWordsForLevel difficultyUpdate es
            (Game3D.togglePause s)).
    rewrite Game3D_paused_run;
      [|unfold Game3D.togglePause; cbn; rewrite Hp; reflexivity | exact Hes].
    cbn [fold_left Game3D.step]. unfold Game3D.togglePause.
    destruct s. cbn in *. subst. reflexivity.
Qed.

Lemma paused_game_is_frozen_witness :
  Game.isPaused GameExamples.paused3D = true /\
  GameExamples.run3D
    [Game3D.AnimationFrame 5000 true; Game3D.LaneKey left;
     Game3D.AnimationFrame 60000 false] GameExamples.paused3D
  = GameExamples.paused3D.
Proof.
  assert (H : Game.isPaused GameExamples.paused3D = true)
    by (vm_compute; reflexivity).
  split; [exact H|].
  apply (proj1 (paused_game_is_frozen WordExamples.randomZero
                  WordExamples.noWords DifficultySystemCount.update
                  GameExamples.paused3D
                  [Game3D.AnimationFrame 5000 true; Game3D.LaneKey left;
                   Game3D.AnimationFrame 60000 false]
                  ltac:(repeat constructor; discriminate))).
  exact H.
Defined.

(** ** The gates on the track *)



Lemma sorted_snoc (l : list nat) (x : nat) :
  StronglySorted lt l -> Forall (fun y => (y < x)%nat) l ->
  StronglySorted lt (l ++ [x]).
Proof.
  induction l as [|a l IH]; intros Hs Hf; cbn.
  - constructor; constructor.
  - inversion Hs as [|? ? Hs' Ha]; subst.
    inversion Hf as [|? ? Hax Hf']; subst.
    constructor; [apply IH; assumption|].
    apply Forall_app. split; [exact Ha|]. constructor; [exact Hax | constructor].
Qed.

Lemma sorted_filter (f : Game.Gate -> bool) (l : list Game.Gate) :
  StronglySorted lt (map Game.gid l) ->
  StronglySorted lt (map Game.gid (filter f l)).
Proof.
  induction l as [|g l IH]; intro Hs; cbn; [constructor|].
  cbn in Hs. inversion Hs as [|? ? Hs' Hg]; subst.
  destruct (f g); cbn; [|apply IH; exact Hs'].
  constructor; [apply IH; exact Hs'|].
  rewrite Forall_forall in *. intros id Hid. apply Hg.
  apply in_map_iff in Hid. destruct Hid as (h & <- & Hh).
  apply in_map. apply filter_In in Hh. tauto.
Qed.

Lemma rev_filter_rev {A : Type} (f : A -> bool) (l : list A) :
  rev (filter f (rev l)) = filter f l.
Proof.
  induction l as [|a l IH]; [reflexivity|].
  cbn [rev]. rewrite filter_app, rev_app_distr, IH. cbn [filter].
  destruct (f a); reflexivity.
Qed.

(** X25. In both scenes, after any sequence of frames and inputs from the
    start of the game, the gates are in the array in the order they were
    created, oldest first: the gate whose question is shown, [gates[0]],
    is the oldest gate on the track. *)
Theorem gates_in_spawn_order (Math_random : nat -> Q)
    (getWordsForLevel : Z -> Language -> list Word)
    (difficultyUpdate : Q -> DifficultyState -> UpdateResult) :
  (forall (es : list GameScene.Event) (now : Q),
      inSpawnOrder
        (GameScene.run Math_random getWordsForLevel difficultyUpdate es
           (GameScene.create Math_random getWordsForLevel now))) /\
  (forall (es : list Game3D.Event) (wm : WordManager.t) (d : DifficultyState)
          (now : Q),
      inSpawnOrder
        (Game3D.run Math_random getWordsForLevel difficultyUpdate es
           (Game3D.init Math_random getWordsForLevel wm d now))).
Proof.
  set (P := fun s : Game.t =>
              inSpawnOrder s /\
              Forall (fun id => (id < Game.spawned s)%nat)
                     (map Game.gid (Game.gates s))).
  assert (Sp : forall now s,
             P s -> P (Game.spawnGate Math_random getWordsForLevel now s)).
  { intros now s [Hs Hf]. unfold P, inSpawnOrder, Game.spawnGate.
    destruct (WordManager.generateQuestion _ _ _ _) as [[q|] wm0];
      cbn [Game.gates Game.spawned Game.set_wordManager];
      [|split; assumption].
    rewrite map_app. cbn [map Game.gid]. split.
    - apply sorted_snoc; assumption.
    - apply Forall_app. split.
      + eapply Forall_impl; [|exact Hf]. cbn. intros; lia.
      + constructor; [lia | constructor]. }
  assert (F : forall progressAt collisionAt retireAt spacingTime now arrived s,
             P s ->
             P (Game.frame Math_random getWordsForLevel difficultyUpdate
                  progressAt collisionAt retireAt spacingTime now arrived s)).
  { intros progressAt collisionAt retireAt spacingTime now arrived s [Hs Hf].
    unfold Game.frame.
    destruct (difficultyUpdate _ _) as [[[settings d'] note]|];
      [|split; assumption].
    set (s0 := Game.set_difficulty d' (speedMultiplier settings) s).
    set (s1 := if arrived then Game.set_isMoving false s0 else s0).
    assert (Eg : Game.gates s1 = Game.gates s)
      by (unfold s1, s0; destruct arrived; reflexivity).
    assert (Es : Game.spawned s1 = Game.spawned s)
      by (unfold s1, s0; destruct arrived; reflexivity).
    pose proof (GameFacts.updateGates_survivors progressAt collisionAt
                  retireAt now (rev (Game.gates s1)) [] s1) as R.
    cbv zeta in R. destruct R as (R1 & _ & _ & R4).
    destruct (Game.updateGates progressAt collisionAt retireAt now
                (rev (Game.gates s1)) [] s1) as [gs s2].
    cbn [fst snd] in R1, R4.
    rewrite rev_filter_rev, app_nil_r, Eg in R1.
    assert (H3 : P (Game.set_gates gs s2)).
    { unfold P, inSpawnOrder. cbn [Game.set_gates Game.gates Game.spawned].
      rewrite R1, R4, Es. split; [apply sorted_filter; exact Hs|].
      rewrite Forall_forall in *. intros id Hid. apply Hf.
      apply in_map_iff in Hid. destruct Hid as (h & <- & Hh).
      apply in_map. apply filter_In in Hh. tauto. }
    destruct (_ || _); [apply Sp|]; exact H3. }
  assert (L : forall lane s, P s -> P (Game.set_lane lane s))
    by (intros lane s H; exact H).
  assert (M : forall b s, P s -> P (Game.set_isMoving b s))
    by (intros b s H; exact H).
  assert (U : forall b s, P s -> P (Game.set_isPaused b s))
    by (intros b s H; exact H).
  assert (I : forall wm d, P (Game.new wm d)).
  { intros wm d. split; cbn; constructor. }
  split.
  - intros es now.
    apply (GameScene_run_inv Math_random getWordsForLevel difficultyUpdate P);
      try assumption.
    apply Sp. apply I.
  - intros es wm d now.
    apply (Game3D_run_inv Math_random getWordsForLevel difficultyUpdate P);
      try assumption.
    apply Sp. apply I.
Qed.

(** X27. [Game3D] retires its gates in time. With a difficulty system
    that reads its table, a gate of a game that is neither paused nor over
    is gone after the first frame that comes 4600 ms or more after its
    spawn (1.15 times the travel time of 4000 ms, at a speed of 1 or
    more): it is no more in the array, it is listed as removed, and it was
    resolved exactly once. *)
Theorem Game3D_gate_retired_in_time (Math_random : nat -> Q)
    (getWordsForLevel : Z -> Language -> list Word)
    (difficultyUpdate : Q -> DifficultyState -> UpdateResult) (hi : Q)
    (es : list Game3D.Event) (wm : WordManager.t) (d : DifficultyState)
    (start now : Q) (arrived : bool) (g : Game.Gate) :
  tableUpdate difficultyUpdate hi ->
  let s := Game3D.run Math_random getWordsForLevel difficultyUpdate es
             (Game3D.init Math_random getWordsForLevel wm d start) in
  Game.isGameOver s = false -> Game.isPaused s = false ->
  In g (Game.gates s) ->
  (Game.spawnTime g + 4600 <= now)%Q ->
  let s' := Game3D.animate Math_random getWordsForLevel difficultyUpdate
              now arrived s in
  ~ In (Game.gid g) (map Game.gid (Game.gates s')) /\
  In (Game.gid g) (Game.retired s') /\
  resolutions s' (Game.gid g) = 1%nat.
Proof.
  intros T s Hover Hpaused Hg Hnow s'.
  assert (Hinit : GameInv.Once Game3D.collisionAt
                    (Game3D.init Math_random getWordsForLevel wm d start)).
  { unfold Game3D.init, Game3D.spawnGate.
    apply GameFacts.spawnGate_ok;
      [exact (proj2 Game3D_thresholds) | apply GameFacts.Once_new]. }
  assert (Hs : GameInv.Once Game3D.collisionAt s)
    by (apply Game3D_run_ok; exact Hinit).
  assert (Hs' : GameInv.Once Game3D.collisionAt s')
    by (apply (Game3D_step_ok Math_random getWordsForLevel difficultyUpdate
                 (Game3D.AnimationFrame now arrived) s Hs)).
  assert (A : Accounts s).
  { apply (Game3D_run_inv Math_random getWordsForLevel difficultyUpdate
             Accounts).
    - intros; apply GameMore.frame_accounts; assumption.
    - intros lane x H; apply (GameMore.Accounts_ext x);
        [reflexivity ..| exact H].
    - intros b x H; apply (GameMore.Accounts_ext x);
        [reflexivity ..| exact H].
    - apply GameMore.spawnGate_more. apply GameMore.Accounts_new. }
  destruct A as (_ & _ & _ & Hc).
  destruct (T _ (Game.difficultySystem s) (proj1 Hc))
    as (settings & d' & note & E & _ & _ & Hlo & _).
  assert (Hpos : (0 < speedMultiplier settings)%Q) by lra.
  assert (Htime : (Game.spawnTime g
                   + Game3D.retireAt
                     * (Game3D.GATE_TRAVEL_TIME / speedMultiplier settings)
                   <= now)%Q).
  { assert (Hq : (Game3D.GATE_TRAVEL_TIME / speedMultiplier settings
                  <= 4000)%Q).
    { apply Qle_shift_div_r; [exact Hpos|].
      unfold Game3D.GATE_TRAVEL_TIME. lra. }
    set (q := (Game3D.GATE_TRAVEL_TIME / speedMultiplier settings)%Q) in *.
    clearbody q. unfold Game3D.retireAt. lra. }
  destruct (Game3D_retires Math_random getWordsForLevel difficultyUpdate
              now arrived s settings d' note g Hover Hpaused E Hpos
              (proj1 Hs) Hg Htime) as [Hgone Hret].
  split; [exact Hgone|]. split; [exact Hret|].
  destruct (Once_ResolvedOnce Game3D.collisionAt s' Hs') as (_ & _ & _ & R).
  apply R. exact Hret.
Qed.

Lemma Game3D_gate_retired_in_time_witness :
  Forall (fun g =>
            ~ In (Game.gid g)
                 (map Game.gid
                    (Game.gates
                       (GameExamples.run3D [Game3D.AnimationFrame 5000 false]
                          GameExamples.start3D))))
         (Game.gates GameExamples.start3D).
Proof.
  apply Forall_forall. intros g Hg.
  assert (Hspawn : Game.spawnTime g = 0%Q).
  { vm_compute in Hg. destruct Hg as [<- | []]. reflexivity. }
  apply (Game3D_gate_retired_in_time WordExamples.randomZero
           WordExamples.noWords DifficultySystemCount.update (5 # 4) []
           (WordExamples.manager WordExamples.deck3)
           DifficultySystemCount.new 0 5000 false g count_tableUpdate).
  - vm_compute. reflexivity.
  - vm_compute. reflexivity.
  - exact Hg.
  - rewrite Hspawn. vm_compute. discriminate.
Defined.

(** ** The lanes on the screen *)

(** X26. [getLaneX] places the lanes symmetrically about the vanishing
    point, the center lane on it; from progress 0 on, left is left of
    center and right is right of it; and the lanes spread as the progress
    grows, to 100, 240 and 380 at the player. *)
Theorem lanes_spread_symmetrically (p q : Q) :
  (0 <= p)%Q -> (p <= q)%Q ->
  (GameScene.getLaneX left p + GameScene.getLaneX right p
   == 2 * GameScene.getLaneX center p)%Q /\
  (GameScene.getLaneX left p < GameScene.getLaneX center p)%Q /\
  (GameScene.getLaneX center p < GameScene.getLaneX right p)%Q /\
  (GameScene.getLaneX left q <= GameScene.getLaneX left p)%Q /\
  (GameScene.getLaneX right p <= GameScene.getLaneX right q)%Q /\
  (GameScene.getLaneX left 1 == 100)%Q /\
  (GameScene.getLaneX center 1 == 240)%Q /\
  (GameScene.getLaneX right 1 == 380)%Q.
Proof.
  intros Hp Hq.
  unfold GameScene.getLaneX, GameScene.VANISHING_POINT_X,
    GameScene.TRACK_WIDTH_START, GameScene.TRACK_WIDTH_END, Qdiv.
  change (/ 3)%Q with (1 # 3)%Q.
  repeat split; try reflexivity; lra.
Qed.

Lemma lanes_spread_symmetrically_witness :
  (GameScene.getLaneX left (1 # 2) < GameScene.getLaneX center (1 # 2))%Q /\
  (GameScene.getLaneX right (1 # 2) <= GameScene.getLaneX right 1)%Q.
Proof.
  pose proof (lanes_spread_symmetrically (1 # 2) 1
                ltac:(vm_compute; discriminate)
                ltac:(vm_compute; discriminate)) as H.
  split; [apply H | apply H].
Defined.
